(** * Merkle Mountain Range of Go-VerusHash

    A shallow embedding of the Merkle Mountain Range header bundled in
    [verushash/dependencies.go] (the [mmr.h] part): nodes, chunked layers,
    the mountain range, its views, proof generation, proof bits and the
    branch check, followed by the properties of these definitions.

    Part I holds the definitions, Part II the theorems. *)

From Stdlib Require Import ZArith List Bool Lia Sorted.
Import ListNotations.
Local Open Scope Z_scope.

(* ===================================================================== *)
(** * Part I: definitions *)
(* ===================================================================== *)

(** ** Machine integers

    Sizes and indexes are kept in [Z]; a conversion to a fixed width is
    written where the source stores into a variable of that width. *)

Definition uint32_t (x : Z) : Z := x mod 2 ^ 32.
Definition uint64_t (x : Z) : Z := x mod 2 ^ 64.
Definition int64_t (x : Z) : Z := (x + 2 ^ 63) mod 2 ^ 64 - 2 ^ 63.
Definition arith_uint256 (x : Z) : Z := x mod 2 ^ 256.

(** [uint256] is an opaque 256-bit blob; [uint256()] is the null hash. *)
Definition uint256 : Type := Z.
Definition uint256_null : uint256 := 0.

(** ** std::vector *)

Definition vsize {A} (v : list A) : Z := Z.of_nat (length v).

(** [v[i]], unchecked. *)
Definition vat {A} (d : A) (v : list A) (i : Z) : A := nth (Z.to_nat i) v d.

(** [v.resize(n)]: drops the tail or pads with value-initialised elements. *)
Definition vresize {A} (d : A) (v : list A) (n : Z) : list A :=
  firstn (Z.to_nat n) v ++ repeat d (Z.to_nat n - length v)%nat.

(** [f] applied to [v.back()], in place. *)
Definition vback_apply {A} (d : A) (f : A -> A) (v : list A) : list A :=
  removelast v ++ [f (last v d)].

(** [v[i] = x]. *)
Definition vset {A} (v : list A) (i : Z) (x : A) : list A :=
  firstn (Z.to_nat i) v ++ x :: skipn (S (Z.to_nat i)) v.

(** The integers [lo, lo+1, ..., hi] of a counted loop. *)
Definition zrange (lo hi : Z) : list Z :=
  map (fun k => lo + Z.of_nat k) (seq 0 (Z.to_nat (hi + 1 - lo))).

(** ** Faults

    A thrown [std::length_error] and a failed [assert] end the computation. *)

Inductive fault : Type :=
| length_error
| assert_failure
| out_of_fuel.

Inductive result (A : Type) : Type :=
| Ok (a : A)
| Throw (e : fault).
Arguments Ok {A} a.
Arguments Throw {A} e.

Definition bind {A B} (m : result A) (k : A -> result B) : result B :=
  match m with
  | Ok a => k a
  | Throw e => Throw e
  end.

Notation "x <- m ;; k" := (bind m (fun x => k))
  (at level 61, m at next level, right associativity).

Definition assert (b : bool) : result unit :=
  if b then Ok tt else Throw assert_failure.

Definition is_ok {A} (m : result A) : bool :=
  match m with Ok _ => true | Throw _ => false end.

(** ** The hash writer (template parameter HASHALGOWRITER)

    Every use in the range feeds two 256-bit values to a fresh writer and
    takes its hash; [HashObj objL objR] is that computation. *)

Class HASHALGOWRITER : Type := { HashObj : uint256 -> uint256 -> uint256 }.

(** ** Node types (template parameter NODE_TYPE) *)

Class NODE_TYPE : Type := {
  Node : Type;
  hash : Node -> uint256;
  NodeDefault : Node;
  CreateParentNode : Node -> Node -> result Node;
  GetProofHash : Node -> Node -> list uint256;
  GetLeafHash : Node -> list uint256;
  GetExtraHashCount : Z;
  GetBranchType : Z
}.

(** *** CMMRNode *)

Record CMMRNode : Type := mkCMMRNode { CMMRNode_hash : uint256 }.

#[export] Instance CMMRNode_type {HW : HASHALGOWRITER} : NODE_TYPE := {|
  Node := CMMRNode;
  hash := CMMRNode_hash;
  NodeDefault := mkCMMRNode uint256_null;
  CreateParentNode := fun l nRight =>
    Ok (mkCMMRNode (HashObj (CMMRNode_hash l) (CMMRNode_hash nRight)));
  GetProofHash := fun n opposite => [CMMRNode_hash n];
  GetLeafHash := fun n => [];
  GetExtraHashCount := 0;
  GetBranchType := 2
|}.

(** *** CMMRPowerNode *)

Record CMMRPowerNode : Type :=
  mkCMMRPowerNode { CMMRPowerNode_hash : uint256; power : uint256 }.

Definition Work (n : CMMRPowerNode) : Z :=
  Z.shiftr (arith_uint256 (Z.shiftl (power n) 128)) 128.

Definition Stake (n : CMMRPowerNode) : Z := Z.shiftr (power n) 128.

Definition CMMRPowerNode_CreateParentNode {HW : HASHALGOWRITER}
    (l nRight : CMMRPowerNode) : result CMMRPowerNode :=
  let work := arith_uint256 (Work l + Work nRight) in
  let stake := arith_uint256 (Stake l + Stake nRight) in
  _ <- assert ((Z.shiftr (arith_uint256 (Z.shiftl work 128)) 128 =? work)
               && (Z.shiftr (arith_uint256 (Z.shiftl stake 128)) 128 =? stake)) ;;
  let nodePower := Z.lor (arith_uint256 (Z.shiftl stake 128)) work in
  let preHash := HashObj (CMMRPowerNode_hash l) (CMMRPowerNode_hash nRight) in
  Ok (mkCMMRPowerNode (HashObj preHash nodePower) nodePower).

Definition CMMRPowerNode_GetProofHash (n proving : CMMRPowerNode) : list uint256 :=
  [CMMRPowerNode_hash n;
   Z.lor (arith_uint256 (Z.shiftl (arith_uint256 (Stake n + Stake proving)) 128))
         (arith_uint256 (Work n + Work proving))].

#[export] Instance CMMRPowerNode_type {HW : HASHALGOWRITER} : NODE_TYPE := {|
  Node := CMMRPowerNode;
  hash := CMMRPowerNode_hash;
  NodeDefault := mkCMMRPowerNode uint256_null uint256_null;
  CreateParentNode := CMMRPowerNode_CreateParentNode;
  GetProofHash := CMMRPowerNode_GetProofHash;
  GetLeafHash := fun n => [power n];
  GetExtraHashCount := 1;
  GetBranchType := 3
|}.

(** ** CChunkedLayer *)

Module CChunkedLayer.
Section Layer.
Context {NT : NODE_TYPE}.

Definition CHUNK_SHIFT : Z := 9.

Record t : Type := mk { vSize : Z; nodes : list (list Node) }.

Definition empty : t := mk 0 [].

Definition chunkSize : Z := Z.shiftl 1 CHUNK_SHIFT.
Definition chunkMask : Z := chunkSize - 1.

Definition size (l : t) : Z := vSize l.

(** The element read by [operator[]] once the bound check has passed. *)
Definition slot (l : t) (idx : Z) : Node :=
vat NodeDefault (vat [] (nodes l) (Z.shiftr idx CHUNK_SHIFT)) (Z.land idx chunkMask).

(** [operator[]] *)
Definition get (l : t) (idx : Z) : result Node :=
if idx <? vSize l then Ok (slot l idx) else Throw length_error.

Definition push_back (l : t) (node : Node) : t :=
let vSize' := uint64_t (vSize l + 1) in
let nodes' := if Z.land vSize' chunkMask =? 1 then nodes l ++ [[]] else nodes l in
mk vSize' (vback_apply [] (fun c => c ++ [node]) nodes').

Definition clear (l : t) : t := mk 0 [].

Definition resize (l : t) (newSize : Z) : t :=
if newSize =? 0 then clear l
else
  let chunksSize := Z.shiftr (newSize - 1) CHUNK_SHIFT + 1 in
  let nodes1 := vresize [] (nodes l) chunksSize in
  let first := if size l =? 0 then 1 else Z.shiftr (size l - 1) CHUNK_SHIFT + 1 in
  let nodes2 :=
    fold_left
      (fun ns i =>
         if i <? chunksSize
         then vback_apply [] (fun c => vresize NodeDefault c chunkSize) ns
         else vback_apply [] (fun c => vresize NodeDefault c
                                         (Z.land (newSize - 1) chunkMask + 1)) ns)
      (zrange first chunksSize) nodes1 in
  mk (uint64_t (Z.shiftl (vsize nodes2 - 1) CHUNK_SHIFT
                + Z.land (newSize - 1) chunkMask + 1))
     nodes2.
End Layer.
Arguments t {NT}.
End CChunkedLayer.

(** [while (v) { sizes.push_back(v); v >>= 1; }]; the fuel is the width of
    the counter. *)
Fixpoint halving (fuel : nat) (v : Z) : list Z :=
  match fuel with
  | O => []
  | S fuel' => if v =? 0 then [] else v :: halving fuel' (Z.shiftr v 1)
  end.

(** ** CMerkleMountainRange *)

Module CMerkleMountainRange.
Section Range.
Context {NT : NODE_TYPE}.

Record t : Type :=
mk { upperNodes : list (@CChunkedLayer.t NT); layer0 : @CChunkedLayer.t NT }.

Definition empty : t := mk [] CChunkedLayer.empty.

(** The loop of [Add]; [below] is [layer0] after the push. *)
Fixpoint Add_loop (fuel : nat) (below0 : @CChunkedLayer.t NT)
  (upper : list (@CChunkedLayer.t NT)) (height layerSize : Z)
  : result (list (@CChunkedLayer.t NT)) :=
if (height <=? vsize upper) && (1 <? layerSize) then
  match fuel with
  | O => Throw out_of_fuel
  | S fuel' =>
      let newSizeAbove := Z.shiftr layerSize 1 in
      let upper1 :=
        if height =? vsize upper
        then vresize CChunkedLayer.empty upper (vsize upper + 1)
        else upper in
      let curSizeAbove :=
        uint32_t (CChunkedLayer.size (vat CChunkedLayer.empty upper1 height)) in
      upper2 <-
        (if (Z.land layerSize 1 =? 0) && (curSizeAbove <? newSizeAbove) then
           let idx := uint32_t (layerSize - 2) in
           let below :=
             if height =? 0 then below0
             else vat CChunkedLayer.empty upper1 (height - 1) in
           l <- CChunkedLayer.get below idx ;;
           r <- CChunkedLayer.get below (uint32_t (idx + 1)) ;;
           parent <- CreateParentNode l r ;;
           Ok (vset upper1 height
                 (CChunkedLayer.push_back
                    (vat CChunkedLayer.empty upper1 height) parent))
         else Ok upper1) ;;
      Add_loop fuel' below0 upper2 (uint32_t (height + 1)) newSizeAbove
  end
else Ok upper.

Definition Add (m : t) (leaf : Node) : result (t * Z) :=
let layer0' := CChunkedLayer.push_back (layer0 m) leaf in
upper' <- Add_loop 32 layer0' (upperNodes m) 0
            (uint32_t (CChunkedLayer.size layer0')) ;;
Ok (mk upper' layer0', uint64_t (CChunkedLayer.size layer0' - 1)).

Definition size (m : t) : Z := CChunkedLayer.size (layer0 m).

Definition height (m : t) : Z :=
if CChunkedLayer.size (layer0 m) =? 0 then 0
else uint32_t (vsize (upperNodes m) + 1).

(** [operator[]] *)
Definition get (m : t) (pos : Z) : result Node :=
if size m <=? pos then Throw length_error
else CChunkedLayer.get (layer0 m) pos.

Definition GetNode (m : t) (Height Index : Z) : Node :=
let layers := height m in
if Height <? layers then
  if negb (Height =? 0) then
    let layer := vat CChunkedLayer.empty (upperNodes m) (Height - 1) in
    if Index <? CChunkedLayer.size layer
    then CChunkedLayer.slot layer Index
    else NodeDefault
  else
    if Index <? CChunkedLayer.size (layer0 m)
    then CChunkedLayer.slot (layer0 m) Index
    else NodeDefault
else NodeDefault.

Definition Truncate (m : t) (newSize : Z) : t :=
let curSize := size m in
if newSize <? curSize then
  let maxSize := size m in
  let newSize := if maxSize <? newSize then maxSize else newSize in
  let sizes := newSize :: halving 64 (Z.shiftr newSize 1) in
  let upper1 := vresize CChunkedLayer.empty (upperNodes m) (vsize sizes - 1) in
  let layer0' := CChunkedLayer.resize (layer0 m) (vat 0 sizes 0) in
  let upper2 :=
    fold_left
      (fun up i =>
         vset up i (CChunkedLayer.resize (vat CChunkedLayer.empty up i)
                                         (vat 0 sizes (i + 1))))
      (zrange 0 (vsize upper1 - 1)) upper1 in
  mk upper2 layer0'
else m.

(** The range after appending [leaves] to an empty one, in order. *)
Definition build (leaves : list Node) : result t :=
fold_left (fun rm leaf => m <- rm ;; r <- Add m leaf ;; Ok (fst r))
          leaves (Ok empty).
End Range.
Arguments t {NT}.
End CMerkleMountainRange.

(** ** CMMRBranch and CMerkleBranch *)

Definition BRANCH_INVALID : Z := 0.
Definition BRANCH_BTC : Z := 1.
Definition BRANCH_MMRBLAKE_NODE : Z := 2.
Definition BRANCH_MMRBLAKE_POWERNODE : Z := 3.
Definition BRANCH_ETH : Z := 4.
Definition BRANCH_MULTIPART : Z := 5.

Record CMMRBranch : Type := mkCMMRBranch {
  branchType : Z;
  nIndex : Z;
  nSize : Z;
  branch : list uint256
}.

Record CMerkleBranch : Type := mkCMerkleBranch {
  btc_nIndex : Z;
  btc_branch : list uint256
}.

(** ** CMerkleMountainView *)

Module CMerkleMountainView.
Section View.
Context {NT : NODE_TYPE}.

Record t : Type := mk {
mmr : @CMerkleMountainRange.t NT;
sizes : list Z;
peaks : list Node;
peakMerkle : list (list Node)
}.

(** The constructor from a range and a view size. *)
Definition new (mountainRange : @CMerkleMountainRange.t NT) (viewSize : Z) : t :=
let maxSize := CMerkleMountainRange.size mountainRange in
let viewSize := if (maxSize <? viewSize) || (viewSize =? 0) then maxSize else viewSize in
mk mountainRange (viewSize :: halving 64 (Z.shiftr viewSize 1)) [] [].

Definition size (v : t) : Z :=
if vsize (sizes v) =? 0 then 0 else vat 0 (sizes v) 0.

(** The test that makes height [ht] a peak in [CalcPeaks]. *)
Definition peak_test (szs : list Z) (ht : Z) : bool :=
(ht =? vsize szs - 1)
|| (vat 0 szs (ht + 1) <? Z.shiftr (uint64_t (vat 0 szs ht + 1)) 1).

Definition CalcPeaks (v : t) (force : bool) : t :=
if force || ((vsize (peaks v) =? 0) && negb (size v =? 0)) then
  let peaks' :=
    fold_left
      (fun pk ht =>
         if peak_test (sizes v) ht
         then CMerkleMountainRange.GetNode (mmr v) ht
                (uint64_t (vat 0 (sizes v) ht - 1)) :: pk
         else pk)
      (zrange 0 (vsize (sizes v) - 1)) [] in
  mk (mmr v) (sizes v) peaks' []
else v.

(** One layer of the peak merkle tree: the pairs of [src], then its last
  element when [passThrough]. *)
Definition merkle_layer (src : list Node) (layerSize : Z) : result (list Node) :=
let passThrough := negb (Z.land layerSize 1 =? 0) in
combined <-
  fold_left
    (fun acc i =>
       layer <- acc ;;
       parent <- CreateParentNode (vat NodeDefault src (Z.shiftl i 1))
                                  (vat NodeDefault src (Z.shiftl i 1 + 1)) ;;
       Ok (layer ++ [parent]))
    (zrange 0 (Z.shiftr layerSize 1 - 1)) (Ok []) ;;
Ok (if passThrough then combined ++ [last src NodeDefault] else combined).

(** The loop of [GetRoot] that fills [peakMerkle]. *)
Fixpoint GetRoot_loop (fuel : nat) (pks : list Node) (pm : list (list Node))
  (layerNum layerSize : Z) : result (list (list Node)) :=
if (layerNum =? 0) || (1 <? layerSize) then
  match fuel with
  | O => Throw out_of_fuel
  | S fuel' =>
      let layerIndex := if layerNum =? 0 then 0 else uint32_t (layerNum - 1) in
      let src := if layerNum =? 0 then pks else vat [] pm layerIndex in
      layer <- merkle_layer src layerSize ;;
      GetRoot_loop fuel' pks (pm ++ [layer]) (uint32_t (layerNum + 1))
                   (uint32_t (vsize layer))
  end
else Ok pm.

Definition GetRoot (v : t) : result (uint256 * t) :=
if (0 <? size v) && (vsize (peakMerkle v) =? 0) then
  let v1 := CalcPeaks v false in
  pm <- GetRoot_loop (S (S (length (peaks v1)))) (peaks v1) (peakMerkle v1) 0
          (uint32_t (vsize (peaks v1))) ;;
  Ok (hash (vat NodeDefault (last pm []) 0), mk (mmr v1) (sizes v1) (peaks v1) pm)
else if 0 <? vsize (peakMerkle v) then
  Ok (hash (vat NodeDefault (last (peakMerkle v) []) 0), v)
else Ok (uint256_null, v).

Definition GetHash (v : t) (index : Z) : result uint256 :=
if index <? size v then
  n <- CChunkedLayer.get (CMerkleMountainRange.layer0 (mmr v)) index ;; Ok (hash n)
else Ok uint256_null.

(** Proof hashes are recorded with the side of the walk that emitted them:
  1 when the [p & 1] branch ran (the sibling is hashed on the left), 0
  otherwise; the extra hashes of a step are recorded with 0.  The branch
  of the proof is the list of second components. *)
Definition emit (side : Z) (hashes : list uint256) : list (Z * uint256) :=
match hashes with
| [] => []
| h :: extra => (side, h) :: map (fun x => (0, x)) extra
end.

(** [for (p = 0; p < peaks.size(); p++) if (peaks[p].hash == peakHash) break;] *)
Fixpoint find_peak (peakHash : uint256) (pks : list Node) (p : Z) : Z :=
match pks with
| [] => p
| n :: rest => if hash n =? peakHash then p else find_peak peakHash rest (p + 1)
end.

(** The walk up the peak merkle tree in [GetProof]. *)
Fixpoint GetProof_peaks (fuel : nat) (v : t) (layerNum layerSize p : Z)
  (br : list (Z * uint256)) : result (list (Z * uint256)) :=
if (layerNum =? 0) || (1 <? layerSize) then
  match fuel with
  | O => Throw out_of_fuel
  | S fuel' =>
      let layerIndex := if layerNum =? 0 then 0 else uint32_t (layerNum - 1) in
      let src := if layerNum =? 0 then peaks v else vat [] (peakMerkle v) layerIndex in
      let br' :=
        if (p <? uint32_t (layerSize - 1)) || negb (Z.land p 1 =? 0) then
          if negb (Z.land p 1 =? 0)
          then br ++ emit 1 (GetProofHash (vat NodeDefault src (p - 1))
                                          (vat NodeDefault src p))
          else br ++ emit 0 (GetProofHash (vat NodeDefault src (p + 1))
                                          (vat NodeDefault src p))
        else br in
      GetProof_peaks fuel' v (uint32_t (layerNum + 1))
        (uint32_t (vsize (vat [] (peakMerkle v) layerNum)))
        (Z.shiftr p 1) br'
  end
else Ok br.

(** The loop of [GetProof] over the heights [ls]. *)
Fixpoint GetProof_loop (v : t) (ls : list Z) (p : Z) (br : list (Z * uint256))
  : result (list (Z * uint256)) :=
match ls with
| [] => Ok br
| l :: rest =>
    if negb (Z.land p 1 =? 0) then
      GetProof_loop v rest (Z.shiftr p 1)
        (br ++ emit 1 (GetProofHash
                         (CMerkleMountainRange.GetNode (mmr v) l (uint64_t (p - 1)))
                         (CMerkleMountainRange.GetNode (mmr v) l p)))
    else if uint64_t (p + 1) <? vat 0 (sizes v) l then
      GetProof_loop v rest (Z.shiftr p 1)
        (br ++ emit 0 (GetProofHash
                         (CMerkleMountainRange.GetNode (mmr v) l (uint64_t (p + 1)))
                         (CMerkleMountainRange.GetNode (mmr v) l p)))
    else
      let peakHash := hash (CMerkleMountainRange.GetNode (mmr v) l p) in
      let p := find_peak peakHash (peaks v) 0 in
      _ <- assert (p <? vsize (peaks v)) ;;
      GetProof_peaks (S (length (peakMerkle v))) v 0
        (uint32_t (vsize (peaks v))) p br
end.

(** The recorded walk of [GetProof] for a position inside the view, and
  the view with its cached peaks. *)
Definition GetProof_walk (v : t) (pos : Z) : result (list (Z * uint256) * t) :=
r <- GetRoot v ;;
let v1 := snd r in
leaf <- CChunkedLayer.get (CMerkleMountainRange.layer0 (mmr v1)) pos ;;
let toAdd := GetLeafHash leaf in
w <- GetProof_loop v1 (zrange 0 (vsize (sizes v1) - 1)) pos
       (map (fun x => (0, x)) toAdd) ;;
Ok (w, v1).

(** [GetProof]: [None] stands for the [false] return. *)
Definition GetProof (v : t) (pos : Z) : result (option CMMRBranch * t) :=
if pos <? size v then
  r <- GetProof_walk v pos ;;
  let v1 := snd r in
  Ok (Some (mkCMMRBranch GetBranchType (uint32_t pos) (uint32_t (size v1))
                         (map snd (fst r))), v1)
else Ok (None, v).

(** The loop of [GetProofBits] that fills [MerkleSizes]. *)
Fixpoint MerkleSizes_loop (fuel : nat) (layerNum layerSize : Z) (ms : list Z) : list Z :=
if (layerNum =? 0) || (1 <? layerSize) then
  match fuel with
  | O => ms
  | S fuel' =>
      let passThrough := Z.land layerSize 1 in
      let layerSize := uint64_t (Z.shiftr layerSize 1 + passThrough) in
      let ms := if layerSize =? 0 then ms else ms ++ [layerSize] in
      MerkleSizes_loop fuel' (uint64_t (layerNum + 1)) layerSize ms
  end
else ms.

(** [for (p = 0; p < PeakIndexes.size(); p++) if (PeakIndexes[p] == l) break;] *)
Fixpoint find_index (l : Z) (PeakIndexes : list Z) (p : Z) : Z :=
match PeakIndexes with
| [] => p
| x :: rest => if x =? l then p else find_index l rest (p + 1)
end.

(** [Bits.push_back(bit)] followed by the zero of every extra hash. *)
Definition push_bit (Bits : list Z) (bit extrahashes : Z) : list Z :=
Bits ++ bit :: repeat 0 (Z.to_nat extrahashes).

(** The walk up the peak merkle sizes in [GetProofBits]. *)
Fixpoint GetProofBits_peaks (fuel : nat) (MerkleSizes : list Z) (extrahashes : Z)
  (layerNum layerSize p : Z) (Bits : list Z) : result (list Z) :=
if (layerNum =? uint64_t (-1)) || (1 <? layerSize) then
  match fuel with
  | O => Throw out_of_fuel
  | S fuel' =>
      let Bits' :=
        if (p <? uint64_t (layerSize - 1)) || negb (Z.land p 1 =? 0) then
          if negb (Z.land p 1 =? 0)
          then push_bit Bits 1 extrahashes
          else push_bit Bits 0 extrahashes
        else Bits in
      let layerNum' := uint64_t (layerNum + 1) in
      GetProofBits_peaks fuel' MerkleSizes extrahashes layerNum'
        (vat 0 MerkleSizes layerNum') (Z.shiftr p 1) Bits'
  end
else Ok Bits.

(** The loop of [GetProofBits] over the heights [ls]. *)
Fixpoint GetProofBits_loop (Sizes PeakIndexes MerkleSizes : list Z) (extrahashes : Z)
  (ls : list Z) (p : Z) (Bits : list Z) : result (list Z) :=
match ls with
| [] => Ok Bits
| l :: rest =>
    if negb (Z.land p 1 =? 0) then
      GetProofBits_loop Sizes PeakIndexes MerkleSizes extrahashes rest
        (Z.shiftr p 1) (push_bit Bits 1 extrahashes)
    else if uint64_t (p + 1) <? vat 0 Sizes l then
      GetProofBits_loop Sizes PeakIndexes MerkleSizes extrahashes rest
        (Z.shiftr p 1) (push_bit Bits 0 extrahashes)
    else
      let p := find_index l PeakIndexes 0 in
      _ <- assert (p <? vsize PeakIndexes) ;;
      GetProofBits_peaks (S (length MerkleSizes)) MerkleSizes extrahashes
        (uint64_t (-1)) (vsize PeakIndexes) p Bits
end.

(** The body of [GetProofBits], with the extra hash count of the node type
  as an argument. *)
Definition ProofBits (extrahashes pos mmvSize : Z) : result (list Z) :=
if (0 <? pos) && (pos <? mmvSize) then
  let Sizes := mmvSize :: halving 64 (Z.shiftr mmvSize 1) in
  let PeakIndexes :=
    fold_left
      (fun pk ht =>
         if (ht =? uint32_t (uint32_t (vsize Sizes) - 1))
            || negb (Z.land (vat 0 Sizes ht) 1 =? 0)
         then (ht mod 256) :: pk else pk)
      (zrange 0 (vsize Sizes - 1)) [] in
  let MerkleSizes :=
    MerkleSizes_loop (S (S (length PeakIndexes))) 0 (vsize PeakIndexes) [] in
  GetProofBits_loop Sizes PeakIndexes MerkleSizes extrahashes
    (zrange 0 (vsize Sizes - 1)) pos (repeat 0 (Z.to_nat extrahashes))
else Ok [].

Definition GetProofBits (pos mmvSize : Z) : result (list Z) :=
ProofBits GetExtraHashCount pos mmvSize.
End View.
Arguments t {NT}.
End CMerkleMountainView.

(** ** Checking a branch *)

Section SafeCheck.
Context {HW : HASHALGOWRITER}.

(** The loop shared by [CMMRBranch::SafeCheck] and
    [CMerkleBranch::SafeCheck]; [index] is an [int64_t]. *)
Fixpoint SafeCheck_loop (br : list uint256) (index : Z) (h : uint256) : uint256 :=
  match br with
  | [] => h
  | it :: rest =>
      if negb (Z.land index 1 =? 0) then
        if it =? h then uint256_null
        else SafeCheck_loop rest (Z.shiftr index 1) (HashObj it h)
      else SafeCheck_loop rest (Z.shiftr index 1) (HashObj h it)
  end.

(** The body of both checks once [index] has been initialised. *)
Definition SafeCheck_from (index : Z) (br : list uint256) (h : uint256) : uint256 :=
  if index =? -1 then uint256_null else SafeCheck_loop br index h.

Definition CMerkleBranch_SafeCheck (b : CMerkleBranch) (h : uint256) : uint256 :=
  SafeCheck_from (int64_t (btc_nIndex b)) (btc_branch b) h.

(** Bit [i] of the result is the [i]-th element of [bits]. *)
Fixpoint pack_bits (bits : list Z) : Z :=
  match bits with
  | [] => 0
  | b :: rest => Z.lor b (Z.shiftl (pack_bits rest) 1)
  end.

(** Modelled from the spec: [CMerkleBranchBase::GetMMRProofIndex] is only
    declared in the sources at hand.  The specification fixes it as the
    position remapping whose bit packing mirrors the layout of
    [GetProofBits]: bit [i] of the index is the [i]-th proof bit, in an
    unsigned 64-bit result. *)
Definition GetMMRProofIndex {NT : NODE_TYPE} (pos mmvSize extrahashes : Z) : Z :=
  match CMerkleMountainView.ProofBits extrahashes pos mmvSize with
  | Ok bits => uint64_t (pack_bits bits)
  | Throw _ => 0
  end.

Definition CMMRBranch_SafeCheck {NT : NODE_TYPE} (b : CMMRBranch) (h : uint256)
    : uint256 :=
  SafeCheck_from (int64_t (GetMMRProofIndex (nIndex b) (nSize b) GetExtraHashCount))
                 (branch b) h.

(** The walk as the specification words it: step [i] looks at bit [i] of
    the index; a set bit with a sibling equal to the running hash gives the
    null hash, a set bit otherwise combines (sibling, running), a clear bit
    combines (running, sibling). *)
Fixpoint spec_walk (index : Z) (i : Z) (br : list uint256) (h : uint256) : uint256 :=
  match br with
  | [] => h
  | sibling :: rest =>
      if Z.testbit index i then
        if sibling =? h then uint256_null
        else spec_walk index (i + 1) rest (HashObj sibling h)
      else spec_walk index (i + 1) rest (HashObj h sibling)
  end.

(** A canonical proof, in the words of the glossary: no sibling at a step
    whose index bit is set equals the hash it is paired with. *)
Fixpoint canonical (index : Z) (br : list uint256) (h : uint256) : bool :=
  match br with
  | [] => true
  | sibling :: rest =>
      if Z.testbit index 0 then
        negb (sibling =? h) && canonical (Z.shiftr index 1) rest (HashObj sibling h)
      else canonical (Z.shiftr index 1) rest (HashObj h sibling)
  end.
End SafeCheck.

(** ** Two hash writers used to run the definitions

    [pair_writer] is injective on naturals and never returns the null hash;
    hashes are not reduced to 256 bits, so it has no collision at all. *)

Definition pair_hash (l r : uint256) : uint256 :=
  (l + r) * (l + r + 1) / 2 + r + 1.

Definition pair_writer : HASHALGOWRITER := {| HashObj := pair_hash |}.

(** ** CMMRProof: reading a proof sequence from a stream *)

Module CMMRProof.
Section Proof.
(** The stream and the [READWRITE] of each serialised type come from the
  serialisation headers, which are not part of the sources at hand: a
  reader gives the value read and the rest of the stream, or [None] when
  it throws a [std::exception]. *)
Variable Stream : Type.
Variable CETHPATRICIABranch : Type.
Variable read_int32 : Stream -> option (Z * Stream).
Variable read_uint8 : Stream -> option (Z * Stream).
Variable read_CBTCMerkleBranch : Stream -> option (CMerkleBranch * Stream).
Variable read_CMMRNodeBranch : Stream -> option (CMMRBranch * Stream).
Variable read_CMMRPowerNodeBranch : Stream -> option (CMMRBranch * Stream).
Variable read_CETHPATRICIABranch : Stream -> option (CETHPATRICIABranch * Stream).
Variable read_CMultiPartProof : Stream -> option (list Z * Stream).

(** The objects a [CMerkleBranchBase *] of the sequence can point to. *)
Inductive entry : Type :=
| pBranch (b : CMerkleBranch)
| pNodeBranch (b : CMMRBranch)
| pPowerNodeBranch (b : CMMRBranch)
| pETHBranch (b : CETHPATRICIABranch)
| pMultiProofBranch (vch : list Z).

(** Modelled from the spec: [CMMRProof::DeleteProofSequence] is only
  declared in the sources at hand.  The specification has it discard
  every branch of the sequence. *)
Definition DeleteProofSequence (proofSequence : list entry) : list entry := [].

Definition lift {A} (f : A -> entry) (r : option (A * Stream))
  : option (option entry * Stream) :=
match r with
| Some (a, s) => Some (Some (f a), s)
| None => None
end.

(** The [switch] of the read loop: [None] for a thrown exception, else the
  object allocated ([pobj], null in the default case), the stream, and
  whether the default case set [error]. *)
Definition read_switch (branchType : Z) (s : Stream)
  : option (option entry * Stream * bool) :=
let noerr r := match r with Some (o, s') => Some (o, s', false) | None => None end in
if branchType =? BRANCH_BTC then noerr (lift pBranch (read_CBTCMerkleBranch s))
else if branchType =? BRANCH_MMRBLAKE_NODE
  then noerr (lift pNodeBranch (read_CMMRNodeBranch s))
else if branchType =? BRANCH_MMRBLAKE_POWERNODE
  then noerr (lift pPowerNodeBranch (read_CMMRPowerNodeBranch s))
else if branchType =? BRANCH_ETH
  then noerr (lift pETHBranch (read_CETHPATRICIABranch s))
else if branchType =? BRANCH_MULTIPART
  then noerr (lift pMultiProofBranch (read_CMultiPartProof s))
else Some (None, s, true).

(** [for (int i = 0; i < proofSize && !error; i++)], with [n] iterations
  left; returns the sequence and [error]. *)
Fixpoint read_loop (n : nat) (s : Stream) (proofSequence : list entry)
  : list entry * bool :=
match n with
| O => (proofSequence, false)
| S n' =>
    match read_uint8 s with
    | None => (proofSequence, true)
    | Some (branchType, s1) =>
        match read_switch branchType s1 with
        | None => (proofSequence, true)
        | Some (pobj, s2, error) =>
            let proofSequence' :=
              match pobj with
              | Some e => proofSequence ++ [e]
              | None => proofSequence
              end in
            if error then (proofSequence', true)
            else read_loop n' s2 proofSequence'
        end
    end
end.

(** [SerializationOp] for reading; [None] when reading [proofSize] throws,
  which is outside the [try]. *)
Definition SerializationOp_read (s : Stream) (proofSequence : list entry)
  : option (list entry) :=
match read_int32 s with
| None => None
| Some (proofSize, s1) =>
    let proofSequence := DeleteProofSequence proofSequence in
    let r := read_loop (Z.to_nat proofSize) s1 proofSequence in
    Some (if snd r then DeleteProofSequence (fst r) else fst r)
end.

(** One well-formed branch: a known tag followed by a readable payload. *)
Definition read_entry (s : Stream) : option (entry * Stream) :=
match read_uint8 s with
| None => None
| Some (branchType, s1) =>
    match read_switch branchType s1 with
    | Some (Some e, s2, false) => Some (e, s2)
    | _ => None
    end
end.

(** [n] well-formed branches in a row, or [None] at an unknown tag or an
  exception. *)
Fixpoint read_entries (n : nat) (s : Stream) : option (list entry) :=
match n with
| O => Some []
| S n' =>
    match read_entry s with
    | None => None
    | Some (e, s1) =>
        match read_entries n' s1 with
        | None => None
        | Some es => Some (e :: es)
        end
    end
end.
End Proof.
End CMMRProof.

Section LayerModel.
Context {NT : NODE_TYPE}.

(** The layer obtained by pushing the elements of [xs] in order. *)
Definition layer_of (xs : list Node) : CChunkedLayer.t :=
  fold_left CChunkedLayer.push_back xs CChunkedLayer.empty.

(** [l] stores [xs] in full chunks followed by one non-empty chunk. *)
Definition chunked (l : CChunkedLayer.t) (xs : list Node) : Prop :=
  CChunkedLayer.vSize l = vsize xs /\
  ((CChunkedLayer.nodes l = [] /\ xs = []) \/
   exists full lastc,
     CChunkedLayer.nodes l = full ++ [lastc] /\
     Forall (fun c => length c = 512%nat) full /\
     (0 < length lastc <= 512)%nat /\
     xs = concat full ++ lastc).
End LayerModel.

Section RangeModel.
Context {NT : NODE_TYPE}.

(** The parent when [CreateParentNode] returns one. *)
Definition parent (l r : Node) : Node :=
  match CreateParentNode l r with
  | Ok p => p
  | Throw _ => NodeDefault
  end.

(** The parents of the adjacent pairs of a layer. *)
Fixpoint pairs (l : list Node) : list Node :=
  match l with
  | a :: b :: rest => parent a b :: pairs rest
  | _ => []
  end.

(** No [CreateParentNode] of an adjacent pair fails. *)
Fixpoint pairs_ok (l : list Node) : bool :=
  match l with
  | a :: b :: rest => is_ok (CreateParentNode a b) && pairs_ok rest
  | _ => true
  end.

(** The nodes at height [h] over [leaves]. *)
Fixpoint level (h : nat) (leaves : list Node) : list Node :=
  match h with
  | O => leaves
  | S h' => pairs (level h' leaves)
  end.

Definition levels_ok (leaves : list Node) : Prop :=
  forall h, pairs_ok (level h leaves) = true.

(** The range holding every level over [leaves] up to the topmost
    non-empty one. *)
Definition range_of (leaves : list Node) : CMerkleMountainRange.t :=
  CMerkleMountainRange.mk
    (map (fun h => layer_of (level (S h) leaves))
         (seq 0 (Z.to_nat (Z.log2 (vsize leaves)))))
    (layer_of leaves).
End RangeModel.

(** No [CreateParentNode] fails anywhere in the tree over [leaves]; the
    levels from [length leaves] on are empty. *)
Definition tree_ok {NT : NODE_TYPE} (leaves : list Node) : bool :=
  forallb (fun h => pairs_ok (level h leaves)) (seq 0 (length leaves)).

(** ** Node types used to run the definitions *)

Definition plain_nodes : NODE_TYPE := @CMMRNode_type pair_writer.
Definition power_nodes : NODE_TYPE := @CMMRPowerNode_type pair_writer.

Definition plain_leaves (hashes : list Z) : list (@Node plain_nodes) :=
  map mkCMMRNode hashes.

(** ** Peaks and root as the specification words them *)

Section ViewModel.
Context {NT : NODE_TYPE}.

(** Height [ht] is a peak: it is the last height, or the size above it is
    below half the size at [ht], rounded up. *)
Definition spec_is_peak (szs : list Z) (ht : Z) : bool :=
  (ht =? vsize szs - 1) || (vat 0 szs (ht + 1) <? (vat 0 szs ht + 1) / 2).

(** The peak heights, from the highest to the lowest. *)
Definition spec_peak_heights (szs : list Z) : list Z :=
  rev (filter (spec_is_peak szs) (zrange 0 (vsize szs - 1))).

(** Pairs combined, an odd last element carried unchanged. *)
Fixpoint layer_up (l : list Node) : result (list Node) :=
  match l with
  | a :: b :: rest =>
      p <- CreateParentNode a b ;;
      above <- layer_up rest ;;
      Ok (p :: above)
  | _ => Ok l
  end.

(** Layers reduced until one node remains. *)
Fixpoint reduce (fuel : nat) (l : list Node) : result (list Node) :=
  match l with
  | _ :: _ :: _ =>
      match fuel with
      | O => Throw out_of_fuel
      | S fuel' => above <- layer_up l ;; reduce fuel' above
      end
  | _ => Ok l
  end.

(** One step of the loop over the pairs in [merkle_layer]. *)
Definition merkle_step (src : list Node) (acc : result (list Node)) (i : Z)
    : result (list Node) :=
  layer <- acc ;;
  parent <- CreateParentNode (vat NodeDefault src (Z.shiftl i 1))
                             (vat NodeDefault src (Z.shiftl i 1 + 1)) ;;
  Ok (layer ++ [parent]).

Definition spec_root (pks : list Node) : result uint256 :=
  top <- reduce (length pks) pks ;;
  Ok (hash (hd NodeDefault top)).
End ViewModel.

(** The number of set bits. *)
Fixpoint popcount_pos (p : positive) : Z :=
  match p with
  | xH => 1
  | xO q => popcount_pos q
  | xI q => 1 + popcount_pos q
  end.

Definition popcount (n : Z) : Z :=
  match n with
  | Zpos p => popcount_pos p
  | _ => 0
  end.

Definition result_map {A B} (f : A -> B) (r : result A) : result B :=
  match r with
  | Ok a => Ok (f a)
  | Throw e => Throw e
  end.

(** A range of five plain leaves, used to run the definitions. *)
Definition five_leaves : @CMerkleMountainRange.t plain_nodes :=
  range_of (plain_leaves [1; 2; 3; 4; 5]).

(** ** A byte stream used to run the reader

    Every integer and every hash takes one element of the stream, and a
    branch holds one hash. *)

Definition bytes_read (s : list Z) : option (Z * list Z) :=
  match s with
  | b :: rest => Some (b, rest)
  | [] => None
  end.

Definition bytes_read_btc (s : list Z) : option (CMerkleBranch * list Z) :=
  match s with
  | _ :: i :: h :: rest => Some (mkCMerkleBranch i [h], rest)
  | _ => None
  end.

Definition bytes_read_mmr (s : list Z) : option (CMMRBranch * list Z) :=
  match s with
  | t :: i :: n :: h :: rest => Some (mkCMMRBranch t i n [h], rest)
  | _ => None
  end.

Definition bytes_read_eth (s : list Z) : option (unit * list Z) :=
  match s with
  | _ :: rest => Some (tt, rest)
  | [] => None
  end.

Definition bytes_read_multipart (s : list Z) : option (list Z * list Z) :=
  match s with
  | _ :: b :: rest => Some ([b], rest)
  | _ => None
  end.

Definition bytes_SerializationOp_read :=
  CMMRProof.SerializationOp_read (list Z) unit bytes_read bytes_read
    bytes_read_btc bytes_read_mmr bytes_read_mmr bytes_read_eth bytes_read_multipart.

Definition bytes_read_entries :=
  CMMRProof.read_entries (list Z) unit bytes_read
    bytes_read_btc bytes_read_mmr bytes_read_mmr bytes_read_eth bytes_read_multipart.

(** ** Replaying a recorded walk *)

Section ReplayModel.
Context {HW : HASHALGOWRITER}.

(** The hash combinations of a recorded walk, without the check of
    [SafeCheck]: side 1 puts the recorded hash on the left. *)
Definition replay (w : list (Z * uint256)) (h : uint256) : uint256 :=
  fold_left
    (fun h sx => if fst sx =? 1 then HashObj (snd sx) h else HashObj h (snd sx))
    w h.

(** What the walks need from a node type: a proof step carries the hash
    of the sibling and [GetExtraHashCount] further hashes, a leaf carries
    [GetExtraHashCount] hashes, and combining a node with the proof hashes
    of its sibling gives the hash of their parent. *)
Class NodeLaws (NT : NODE_TYPE) : Prop := {
  extra_nonneg : 0 <= GetExtraHashCount;
  proof_hash_length : forall a b : Node,
    vsize (GetProofHash a b) = 1 + GetExtraHashCount;
  leaf_hash_length : forall a : Node,
    vsize (GetLeafHash a) = GetExtraHashCount;
  proof_left : forall l r p : Node,
    CreateParentNode l r = Ok p ->
    replay (CMerkleMountainView.emit 0 (GetProofHash r l)) (hash l) = hash p;
  proof_right : forall l r p : Node,
    CreateParentNode l r = Ok p ->
    replay (CMerkleMountainView.emit 1 (GetProofHash l r)) (hash r) = hash p
}.
End ReplayModel.

Section TowerModel.
Context {NT : NODE_TYPE}.

(** The layers above [l], up to the first one with a single node. *)
Fixpoint tower (fuel : nat) (l : list Node) : result (list (list Node)) :=
  if 1 <? vsize l then
    match fuel with
    | O => Throw out_of_fuel
    | S fuel' =>
        above <- layer_up l ;;
        rest <- tower fuel' above ;;
        Ok (above :: rest)
    end
  else Ok [].

Inductive tower_of : list Node -> list (list Node) -> Prop :=
| tower_top (l : list Node) : vsize l <= 1 -> tower_of l []
| tower_step (l above : list Node) (rest : list (list Node)) :
    1 < vsize l -> layer_up l = Ok above -> tower_of above rest ->
    tower_of l (above :: rest).

(** Layer [j] of the peak merkle tree of a view: the peaks, then the
    cached layers. *)
Definition merkle_at (v : CMerkleMountainView.t) (j : Z) : list Node :=
  if j =? 0 then CMerkleMountainView.peaks v
  else vat [] (CMerkleMountainView.peakMerkle v) (j - 1).

(** The branch of [GetProof], empty when it gives none. *)
Definition proof_branch (v : CMerkleMountainView.t) (pos : Z) : list uint256 :=
  match CMerkleMountainView.GetProof v pos with
  | Ok (Some b, _) => branch b
  | _ => []
  end.
End TowerModel.

(** Pairwise distinct hashes. *)
Fixpoint distinct (l : list uint256) : bool :=
  match l with
  | [] => true
  | x :: rest => negb (existsb (Z.eqb x) rest) && distinct rest
  end.

(** Every recorded side is 0 or 1. *)
Definition sides_ok (w : list (Z * uint256)) : Prop :=
  Forall (fun sx => fst sx = 0 \/ fst sx = 1) w.

(** Power leaves from pairs of a starting hash and a power: the hash of the
    leaf is the hash of the two. *)
Definition power_leaves (l : list (uint256 * uint256)) : list (@Node power_nodes) :=
  map (fun sp => mkCMMRPowerNode (pair_hash (fst sp) (snd sp)) (snd sp)) l.

Definition three_power_leaves : list (@Node power_nodes) :=
  power_leaves [(11, 5); (12, 6); (13, 7)].

(** ** Further operations of the source *)

(** *** Appending branches

    [operator<<] of [CMerkleBranch]:
    [nIndex += append.nIndex << branch.size()] in 32-bit unsigned
    arithmetic.  C++ defines the shift only for a branch of fewer than 32
    hashes. *)
Definition CMerkleBranch_append (b append : CMerkleBranch) : CMerkleBranch :=
  mkCMerkleBranch
    (uint32_t (btc_nIndex b
               + uint32_t (Z.shiftl (btc_nIndex append) (vsize (btc_branch b)))))
    (btc_branch b ++ btc_branch append).

(** *** CMerkleMountainView: resizing and reading *)

Section ViewOps.
Context {NT : NODE_TYPE}.

(** [resize]: the view after the call and the size returned. *)
Definition CMerkleMountainView_resize (v : CMerkleMountainView.t) (newSize : Z)
    : CMerkleMountainView.t * Z :=
  let v' :=
    if negb (newSize =? CMerkleMountainView.size v) then
      let maxSize := CMerkleMountainRange.size (CMerkleMountainView.mmr v) in
      let newSize := if maxSize <? newSize then maxSize else newSize in
      CMerkleMountainView.mk (CMerkleMountainView.mmr v)
        (newSize :: halving 64 (Z.shiftr newSize 1)) [] []
    else v in
  (v', CMerkleMountainView.size v').

(** [GetRootNode]: [None] stands for the [NULL] return. *)
Definition CMerkleMountainView_GetRootNode (v : CMerkleMountainView.t)
    : result (option Node * CMerkleMountainView.t) :=
  r <- CMerkleMountainView.GetRoot v ;;
  let root := fst r in
  let v' := snd r in
  if negb (root =? uint256_null)
  then Ok (Some (vat NodeDefault (last (CMerkleMountainView.peakMerkle v') []) 0), v')
  else Ok (None, v').
End ViewOps.

(** *** CRLPProof::string_to_hex

    Characters are their codes as [unsigned char]. *)

(** ["0123456789ABCDEF"] *)
Definition hex_digits : list Z :=
  [48; 49; 50; 51; 52; 53; 54; 55; 56; 57; 65; 66; 67; 68; 69; 70].

Fixpoint string_to_hex (input : list Z) : list Z :=
  match input with
  | [] => []
  | c :: rest =>
      vat 0 hex_digits (Z.shiftr c 4) :: vat 0 hex_digits (Z.land c 15)
        :: string_to_hex rest
  end.

(** *** CPATRICIABranch::GetBalanceAsBEVector *)

(** The loop [for (...; bigValue > 0; bigValue = bigValue >> 8)], inserting
    the low byte at the front. *)
Fixpoint BEVector_loop (fuel : nat) (bigValue : Z) (vecVal : list Z) : result (list Z) :=
  if 0 <? bigValue then
    match fuel with
    | O => Throw out_of_fuel
    | S fuel' =>
        BEVector_loop fuel' (Z.shiftr bigValue 8)
          ((Z.land bigValue 255) mod 2 ^ 8 :: vecVal)
    end
  else Ok vecVal.

Definition GetBalanceAsBEVector (balance : uint256) : result (list Z) :=
  BEVector_loop 32 (arith_uint256 balance) [].

(** ** Reference definitions for the further operations *)

(** The number of the chunk that holds index [i]. *)
Definition chunk_of (i : Z) : Z := i / 512.

(** Plain leaves with the hashes [0, 1, ..., n-1]. *)
Definition counted_leaves (n : nat) : list (@Node plain_nodes) :=
  plain_leaves (map Z.of_nat (seq 0 n)).

(** The power of a node is a 256-bit value. *)
Definition power_ok (n : CMMRPowerNode) : Prop := 0 <= power n < 2 ^ 256.

(** The work and the stake of a list of nodes, summed. *)
Definition total_work (l : list CMMRPowerNode) : Z :=
  fold_right (fun x s => Work x + s) 0 l.

Definition total_stake (l : list CMMRPowerNode) : Z :=
  fold_right (fun x s => Stake x + s) 0 l.

(** The sum of [f] over a list. *)
Definition total_of {A} (f : A -> Z) (l : list A) : Z :=
  fold_right (fun x s => f x + s) 0 l.

(** The number that a list of bytes writes, most significant byte first. *)
Definition be_value (bytes : list Z) : Z :=
  fold_left (fun acc b => acc * 256 + b) bytes 0.

(** The value of a hexadecimal digit, and the bytes that a string of pairs
    of digits writes. *)
Definition hex_value (c : Z) : Z :=
  if (48 <=? c) && (c <=? 57) then c - 48 else c - 55.

Fixpoint hex_decode (digits : list Z) : list Z :=
  match digits with
  | hi :: lo :: rest => hex_value hi * 16 + hex_value lo :: hex_decode rest
  | _ => []
  end.

(* ===================================================================== *)
(** * Part II: theorems *)
(* ===================================================================== *)

(** ** Tests on bits *)

Lemma land1_testbit (x : Z) : (Z.land x 1 =? 0) = negb (Z.testbit x 0).
Proof.
  rewrite Z.bit0_odd.
  change 1 with (Z.ones 1). rewrite Z.land_ones by lia.
  change (2 ^ 1) with 2. rewrite Zmod_odd.
  destruct (Z.odd x); reflexivity.
Qed.

Lemma odd_test (x : Z) : negb (Z.land x 1 =? 0) = Z.odd x.
Proof. rewrite land1_testbit, Z.bit0_odd. apply negb_involutive. Qed.

(** ** Reading a proof sequence *)

Section Deserialise.
Variable Stream : Type.
Variable CETHPATRICIABranch : Type.
Variable read_int32 : Stream -> option (Z * Stream).
Variable read_uint8 : Stream -> option (Z * Stream).
Variable read_CBTCMerkleBranch : Stream -> option (CMerkleBranch * Stream).
Variable read_CMMRNodeBranch : Stream -> option (CMMRBranch * Stream).
Variable read_CMMRPowerNodeBranch : Stream -> option (CMMRBranch * Stream).
Variable read_CETHPATRICIABranch : Stream -> option (CETHPATRICIABranch * Stream).
Variable read_CMultiPartProof : Stream -> option (list Z * Stream).

Let read_switch := CMMRProof.read_switch Stream CETHPATRICIABranch
  read_CBTCMerkleBranch read_CMMRNodeBranch read_CMMRPowerNodeBranch
  read_CETHPATRICIABranch read_CMultiPartProof.
Let read_loop := CMMRProof.read_loop Stream CETHPATRICIABranch read_uint8
  read_CBTCMerkleBranch read_CMMRNodeBranch read_CMMRPowerNodeBranch
  read_CETHPATRICIABranch read_CMultiPartProof.
Let read_entries := CMMRProof.read_entries Stream CETHPATRICIABranch read_uint8
  read_CBTCMerkleBranch read_CMMRNodeBranch read_CMMRPowerNodeBranch
  read_CETHPATRICIABranch read_CMultiPartProof.
Let SerializationOp_read := CMMRProof.SerializationOp_read Stream CETHPATRICIABranch
  read_int32 read_uint8
  read_CBTCMerkleBranch read_CMMRNodeBranch read_CMMRPowerNodeBranch
  read_CETHPATRICIABranch read_CMultiPartProof.

Lemma read_switch_object (branchType : Z) (s s' : Stream) :
  read_switch branchType s <> Some (None, s', false).
Proof.
  unfold read_switch, CMMRProof.read_switch, CMMRProof.lift. cbv zeta.
  destruct (read_CBTCMerkleBranch s) as [[? ?]|];
  destruct (read_CMMRNodeBranch s) as [[? ?]|];
  destruct (read_CMMRPowerNodeBranch s) as [[? ?]|];
  destruct (read_CETHPATRICIABranch s) as [[? ?]|];
  destruct (read_CMultiPartProof s) as [[? ?]|];
  repeat match goal with
         | |- context [if ?b then _ else _] => destruct b
         end; congruence.
Qed.

Lemma read_switch_error (branchType : Z) (s s' : Stream) o :
  read_switch branchType s = Some (o, s', true) -> o = None.
Proof.
  unfold read_switch, CMMRProof.read_switch, CMMRProof.lift. cbv zeta.
  destruct (read_CBTCMerkleBranch s) as [[? ?]|];
  destruct (read_CMMRNodeBranch s) as [[? ?]|];
  destruct (read_CMMRPowerNodeBranch s) as [[? ?]|];
  destruct (read_CETHPATRICIABranch s) as [[? ?]|];
  destruct (read_CMultiPartProof s) as [[? ?]|];
  repeat match goal with
         | |- context [if ?b then _ else _] => destruct b
         end; congruence.
Qed.

Lemma read_loop_entries (n : nat) : forall (s : Stream) acc,
  match read_entries n s with
  | Some es => read_loop n s acc = (acc ++ es, false)
  | None => snd (read_loop n s acc) = true
  end.
Proof.
  induction n as [|n IH]; intros s acc; cbn.
  - now rewrite app_nil_r.
  - unfold CMMRProof.read_entry.
    destruct (read_uint8 s) as [[branchType s1]|]; [|reflexivity].
    fold read_switch.
    destruct (read_switch branchType s1) as [[[o s2] e]|] eqn:Hsw; [|reflexivity].
    destruct e.
    + destruct o; reflexivity.
    + destruct o as [e|].
      * specialize (IH s2 (acc ++ [e])). fold read_entries read_loop.
        destruct (read_entries n s2) as [es|].
        -- rewrite IH. now rewrite <- app_assoc.
        -- exact IH.
      * now apply read_switch_object in Hsw.
Qed.

(** C9: once [proofSize] has been read, the sequence left by the read is
    the [proofSize] well-formed branches of the stream, or empty as soon
    as one of them has an unknown tag or throws: no branch read before the
    failure survives, nor any branch present before the read. *)
Theorem deserialise_fail_closed (s s1 : Stream) (proofSize : Z) proofSequence :
  read_int32 s = Some (proofSize, s1) ->
  SerializationOp_read s proofSequence =
    Some (match read_entries (Z.to_nat proofSize) s1 with
          | Some es => es
          | None => []
          end).
Proof.
  intros Hsize. unfold SerializationOp_read, CMMRProof.SerializationOp_read.
  rewrite Hsize. f_equal.
  unfold CMMRProof.DeleteProofSequence.
  pose proof (read_loop_entries (Z.to_nat proofSize) s1 []) as H.
  fold read_loop. fold read_entries.
  destruct (read_entries (Z.to_nat proofSize) s1) as [es|].
  - rewrite H. reflexivity.
  - rewrite H. reflexivity.
Qed.
End Deserialise.

Lemma uint32_small (x : Z) : 0 <= x < 2 ^ 32 -> uint32_t x = x.
Proof. intros; unfold uint32_t; now apply Z.mod_small. Qed.

Lemma uint64_small (x : Z) : 0 <= x < 2 ^ 64 -> uint64_t x = x.
Proof. intros; unfold uint64_t; now apply Z.mod_small. Qed.

Lemma shiftr_div (x n : Z) : 0 <= n -> Z.shiftr x n = x / 2 ^ n.
Proof. intros; now apply Z.shiftr_div_pow2. Qed.

Lemma land_mask (x : Z) : Z.land x 511 = x mod 512.
Proof. change 511 with (Z.ones 9). now rewrite Z.land_ones by lia. Qed.

Lemma vsize_app {A} (a b : list A) : vsize (a ++ b) = vsize a + vsize b.
Proof. unfold vsize; rewrite length_app; lia. Qed.

Lemma vsize_nonneg {A} (a : list A) : 0 <= vsize a.
Proof. unfold vsize; lia. Qed.

Section LayerFacts.
Context {NT : NODE_TYPE}.

Lemma length_concat_full (full : list (list Node)) (c : nat) :
  Forall (fun ch => length ch = c) full ->
  length (concat full) = (c * length full)%nat.
Proof.
  induction 1 as [|ch full Hc _ IH]; cbn; [lia|].
  rewrite length_app, IH, Hc. lia.
Qed.

Lemma nth_concat_full (full : list (list Node)) (c : nat) (d : Node) :
  Forall (fun ch => length ch = c) full ->
  forall i, (i < c * length full)%nat ->
  nth (i mod c) (nth (i / c) full []) d = nth i (concat full) d.
Proof.
  induction 1 as [|ch full Hc _ IH]; intros i Hi; cbn in *; [lia|].
  assert (c <> 0)%nat by lia.
  destruct (Nat.lt_ge_cases i c) as [Hlt|Hge].
  - rewrite Nat.div_small, Nat.mod_small by lia.
    now rewrite app_nth1 by lia.
  - replace i with ((i - c) + 1 * c)%nat at 1 2 by lia.
    rewrite Nat.div_add, Nat.Div0.mod_add by lia.
    replace ((i - c) / c + 1)%nat with (S ((i - c) / c)) by lia.
    rewrite app_nth2 by lia. rewrite Hc. apply IH. lia.
Qed.

Lemma chunked_empty : chunked CChunkedLayer.empty [].
Proof. split; [reflexivity|left; split; reflexivity]. Qed.

Lemma chunked_push (l : CChunkedLayer.t) (xs : list Node) (x : Node) :
  chunked l xs -> vsize xs + 1 < 2 ^ 64 ->
  chunked (CChunkedLayer.push_back l x) (xs ++ [x]).
Proof.
  intros [Hsz Hch] Hbound. unfold CChunkedLayer.push_back.
  pose proof (vsize_nonneg xs) as Hnn.
  rewrite Hsz, uint64_small by lia.
  change CChunkedLayer.chunkMask with 511. rewrite land_mask.
  split; cbn [CChunkedLayer.vSize CChunkedLayer.nodes].
  { rewrite vsize_app. reflexivity. }
  right. destruct Hch as [[Hn Hx]|(full & lastc & Hn & Hfull & Hlast & Hx)].
  - subst xs. rewrite Hn. cbn.
    exists [], [x]. cbn. repeat split; auto; lia.
  - rewrite Hn.
    pose proof (length_concat_full full 512 Hfull) as Hlen.
    assert (Hv : vsize xs = 512 * Z.of_nat (length full) + Z.of_nat (length lastc)).
    { unfold vsize. rewrite Hx, length_app, Hlen. lia. }
    destruct (Nat.eq_dec (length lastc) 512) as [Hfulll|Hnot].
    + assert (Hm : (vsize xs + 1) mod 512 = 1).
      { rewrite Hv, Hfulll.
        replace (512 * Z.of_nat (length full) + Z.of_nat 512 + 1)
          with (1 + (Z.of_nat (length full) + 1) * 512) by lia.
        now rewrite Z.mod_add by lia. }
      rewrite Hm. cbn [Z.eqb Pos.eqb].
      unfold vback_apply. rewrite removelast_last, last_last.
      exists (full ++ [lastc]), [x]. repeat split.
      * apply Forall_app; split; auto.
      * cbn; lia.
      * cbn; lia.
      * rewrite concat_app. cbn. rewrite app_nil_r. now rewrite Hx.
    + assert (Hm : (vsize xs + 1) mod 512 <> 1).
      { rewrite Hv.
        replace (512 * Z.of_nat (length full) + Z.of_nat (length lastc) + 1)
          with ((Z.of_nat (length lastc) + 1) + Z.of_nat (length full) * 512) by lia.
        rewrite Z.mod_add by lia.
        pose proof (Z.div_mod (Z.of_nat (length lastc) + 1) 512 ltac:(lia)).
        pose proof (Z.mod_pos_bound (Z.of_nat (length lastc) + 1) 512 ltac:(lia)).
        lia. }
      apply Z.eqb_neq in Hm. rewrite Hm.
      unfold vback_apply. rewrite removelast_last, last_last.
      exists full, (lastc ++ [x]). repeat split; auto.
      * rewrite length_app; cbn; lia.
      * rewrite length_app; cbn; lia.
      * rewrite Hx. now rewrite app_assoc.
Qed.

Lemma layer_of_snoc (xs : list Node) (x : Node) :
  layer_of (xs ++ [x]) = CChunkedLayer.push_back (layer_of xs) x.
Proof. unfold layer_of. now rewrite fold_left_app. Qed.

Lemma chunked_layer_of (xs : list Node) :
  vsize xs < 2 ^ 64 -> chunked (layer_of xs) xs.
Proof.
  induction xs as [|x xs IH] using rev_ind; intros Hb.
  - apply chunked_empty.
  - rewrite layer_of_snoc. rewrite vsize_app in Hb. cbn in Hb.
    apply chunked_push; [apply IH|]; unfold vsize in *; cbn in *; lia.
Qed.

Lemma chunked_size (l : CChunkedLayer.t) (xs : list Node) :
  chunked l xs -> CChunkedLayer.size l = vsize xs.
Proof. now intros [H _]. Qed.

Lemma chunked_slot (l : CChunkedLayer.t) (xs : list Node) (i : Z) :
  chunked l xs -> 0 <= i < vsize xs ->
  CChunkedLayer.slot l i = vat NodeDefault xs i.
Proof.
  intros [Hsz Hch] Hi. unfold CChunkedLayer.slot, vat.
  change CChunkedLayer.chunkMask with 511. rewrite land_mask.
  change CChunkedLayer.CHUNK_SHIFT with 9. rewrite shiftr_div by lia.
  change (2 ^ 9) with 512.
  destruct Hch as [[Hn Hx]|(full & lastc & Hn & Hfull & Hlast & Hx)].
  - subst xs. unfold vsize in Hi; cbn in Hi; lia.
  - rewrite Hn, Hx.
    pose proof (length_concat_full full 512 Hfull) as Hlen.
    assert (Hd : Z.to_nat (i / 512) = (Z.to_nat i / 512)%nat).
    { rewrite Z2Nat.inj_div by lia. reflexivity. }
    assert (Hm : Z.to_nat (i mod 512) = (Z.to_nat i mod 512)%nat).
    { rewrite Z2Nat.inj_mod by lia. reflexivity. }
    rewrite Hd, Hm.
    destruct (Nat.lt_ge_cases (Z.to_nat i) (512 * length full)) as [Hlt|Hge].
    + rewrite (app_nth1 (concat full)) by lia.
      rewrite app_nth1.
      * now apply nth_concat_full.
      * apply Nat.Div0.div_lt_upper_bound. lia.
    + rewrite (app_nth2 (concat full)) by lia. rewrite Hlen.
      assert (Hlt : (Z.to_nat i < 512 * length full + length lastc)%nat).
      { unfold vsize in Hi. rewrite Hx, length_app, Hlen in Hi. lia. }
      assert (Hq : (Z.to_nat i / 512 = length full)%nat).
      { symmetry. apply (Nat.div_unique _ 512 _ (Z.to_nat i - 512 * length full)); lia. }
      assert (Hr : (Z.to_nat i mod 512 = Z.to_nat i - 512 * length full)%nat).
      { symmetry. apply (Nat.mod_unique _ 512 (length full)); lia. }
      rewrite Hq, Hr. rewrite app_nth2 by lia.
      rewrite Nat.sub_diag. reflexivity.
Qed.

Lemma chunked_get (l : CChunkedLayer.t) (xs : list Node) (i : Z) :
  chunked l xs -> 0 <= i < vsize xs ->
  CChunkedLayer.get l i = Ok (vat NodeDefault xs i).
Proof.
  intros Hc Hi. unfold CChunkedLayer.get.
  destruct Hc as [Hsz Hch]. rewrite Hsz.
  destruct (Z.ltb_spec i (vsize xs)); [|lia].
  f_equal. apply chunked_slot; [split; assumption|lia].
Qed.
End LayerFacts.

Lemma list_pair_ind {A} (P : list A -> Prop) :
  P [] -> (forall a, P [a]) -> (forall a b l, P l -> P (a :: b :: l)) ->
  forall l, P l.
Proof.
  intros H0 H1 H2.
  assert (H : forall l, P l /\ forall a, P (a :: l)).
  { induction l as [|b l [IH1 IH2]]; split; auto. }
  intro l; apply H.
Qed.

Lemma vat_app1 {A} (d : A) (a b : list A) (i : Z) :
  0 <= i < vsize a -> vat d (a ++ b) i = vat d a i.
Proof. unfold vat, vsize; intros; apply app_nth1; lia. Qed.

Lemma vat_app2 {A} (d : A) (a b : list A) (i : Z) :
  vsize a <= i -> vat d (a ++ b) i = vat d b (i - vsize a).
Proof.
  unfold vat, vsize; intros. rewrite app_nth2 by lia. f_equal. lia.
Qed.

Lemma vat_last {A} (d : A) (a : list A) (y : A) :
  vat d (a ++ [y]) (vsize a) = y.
Proof. rewrite vat_app2 by lia. now rewrite Z.sub_diag. Qed.

Lemma vat_cons {A} (d : A) (x : A) (a : list A) (i : Z) :
  0 <= i -> vat d (x :: a) (i + 1) = vat d a i.
Proof. unfold vat; intros. replace (Z.to_nat (i + 1)) with (S (Z.to_nat i)) by lia. reflexivity. Qed.

Lemma vat_tail {A} (d : A) (x : A) (a : list A) (k : Z) :
  1 <= k -> vat d (x :: a) k = vat d a (k - 1).
Proof.
  unfold vat; intros. replace (Z.to_nat k) with (S (Z.to_nat (k - 1))) by lia.
  reflexivity.
Qed.

Lemma vat_tail2 {A} (d : A) (x y : A) (a : list A) (k : Z) :
  2 <= k -> vat d (x :: y :: a) k = vat d a (k - 2).
Proof.
  intros. rewrite !vat_tail by lia. f_equal; lia.
Qed.

Lemma land1_mod (x : Z) : Z.land x 1 = x mod 2.
Proof. change 1 with (Z.ones 1). now rewrite Z.land_ones by lia. Qed.

Lemma vsize_cons {A} (x : A) (a : list A) : vsize (x :: a) = vsize a + 1.
Proof. unfold vsize; cbn [length]; lia. Qed.

Section RangeFacts.
Context {NT : NODE_TYPE}.

Lemma vsize_pairs (l : list Node) : vsize (pairs l) = Z.shiftr (vsize l) 1.
Proof.
  rewrite shiftr_div by lia. change (2 ^ 1) with 2.
  induction l as [| a | a b l IH] using list_pair_ind; try reflexivity.
  cbn [pairs]. rewrite !vsize_cons, IH.
  replace (vsize l + 1 + 1) with (vsize l + 1 * 2) by lia.
  rewrite Z.div_add by lia. reflexivity.
Qed.

Lemma vsize_level (h : nat) (leaves : list Node) :
  vsize (level h leaves) = Z.shiftr (vsize leaves) (Z.of_nat h).
Proof.
  induction h as [|h IH]; cbn [level].
  - now rewrite Z.shiftr_0_r.
  - rewrite vsize_pairs, IH, Z.shiftr_shiftr by lia. f_equal. lia.
Qed.

Lemma vat_pairs (l : list Node) : forall i,
  0 <= i -> 2 * i + 1 < vsize l ->
  vat NodeDefault (pairs l) i =
    parent (vat NodeDefault l (2 * i)) (vat NodeDefault l (2 * i + 1)).
Proof.
  induction l as [| a | a b l IH] using list_pair_ind; intros i Hi Hlt.
  - unfold vsize in Hlt; cbn [length] in Hlt; lia.
  - unfold vsize in Hlt; cbn [length] in Hlt; lia.
  - rewrite !vsize_cons in Hlt. cbn [pairs].
    destruct (Z.eq_dec i 0) as [->|Hne]; [reflexivity|].
    rewrite vat_tail, !vat_tail2 by lia. rewrite IH by lia. f_equal; f_equal; lia.
Qed.

Lemma pairs_ok_vat (l : list Node) : pairs_ok l = true -> forall i,
  0 <= i -> 2 * i + 1 < vsize l ->
  CreateParentNode (vat NodeDefault l (2 * i)) (vat NodeDefault l (2 * i + 1))
  = Ok (parent (vat NodeDefault l (2 * i)) (vat NodeDefault l (2 * i + 1))).
Proof.
  induction l as [| a | a b l IH] using list_pair_ind; intros Hok i Hi Hlt.
  - unfold vsize in Hlt; cbn [length] in Hlt; lia.
  - unfold vsize in Hlt; cbn [length] in Hlt; lia.
  - rewrite !vsize_cons in Hlt. cbn [pairs_ok] in Hok.
    apply andb_prop in Hok as [Hab Hok].
    destruct (Z.eq_dec i 0) as [->|Hne].
    + change (vat NodeDefault (a :: b :: l) (2 * 0)) with a.
      change (vat NodeDefault (a :: b :: l) (2 * 0 + 1)) with b.
      unfold parent.
      destruct (CreateParentNode a b); [reflexivity|discriminate].
    + rewrite !vat_tail2 by lia.
      replace (2 * i - 2) with (2 * (i - 1)) by lia.
      replace (2 * i + 1 - 2) with (2 * (i - 1) + 1) by lia.
      apply IH; auto; lia.
Qed.

(** Appending one element to a layer leaves its pairs alone or adds the
    parent of the last two elements. *)
Lemma pairs_snoc (l : list Node) (y : Node) :
  (pairs (l ++ [y]) = pairs l /\ pairs_ok (l ++ [y]) = pairs_ok l) \/
  (Z.land (vsize (l ++ [y])) 1 = 0 /\
   pairs (l ++ [y]) =
     pairs l ++ [parent (vat NodeDefault (l ++ [y]) (vsize (l ++ [y]) - 2))
                        (vat NodeDefault (l ++ [y]) (vsize (l ++ [y]) - 1))] /\
   pairs_ok (l ++ [y]) =
     pairs_ok l &&
     is_ok (CreateParentNode (vat NodeDefault (l ++ [y]) (vsize (l ++ [y]) - 2))
                             (vat NodeDefault (l ++ [y]) (vsize (l ++ [y]) - 1)))).
Proof.
  induction l as [| a | a b l IH] using list_pair_ind.
  - left; split; reflexivity.
  - right. cbn. unfold vat; cbn. rewrite andb_true_r. repeat split; reflexivity.
  - cbn [app pairs pairs_ok]. destruct IH as [[Hp Hk]|(Hev & Hp & Hk)].
    + left. now rewrite Hp, Hk.
    + right. rewrite Hp, Hk.
      rewrite !vsize_cons.
      assert (Hsz : 2 <= vsize (l ++ [y])).
      { assert (0 <= vsize (l ++ [y])) by apply vsize_nonneg.
        destruct (Z.eq_dec (vsize (l ++ [y])) 0) as [E|E].
        - rewrite vsize_app in E. pose proof (vsize_nonneg l). unfold vsize in E at 2; cbn in E; lia.
        - destruct (Z.eq_dec (vsize (l ++ [y])) 1) as [E1|E1]; [rewrite E1 in Hev; discriminate|lia]. }
      rewrite !vat_tail2 by lia.
      replace (vsize (l ++ [y]) + 1 + 1 - 2 - 2) with (vsize (l ++ [y]) - 2) by lia.
      replace (vsize (l ++ [y]) + 1 + 1 - 1 - 2) with (vsize (l ++ [y]) - 1) by lia.
      repeat split.
      * rewrite land1_mod in *.
        replace (vsize (l ++ [y]) + 1 + 1) with (vsize (l ++ [y]) + 1 * 2) by lia.
        now rewrite Z.mod_add by lia.
      * now rewrite andb_assoc.
Qed.

(** Appending a leaf leaves a level alone or appends one node to it. *)
Lemma level_snoc (leaves : list Node) (x : Node) (h : nat) :
  level h (leaves ++ [x]) = level h leaves \/
  exists y, level h (leaves ++ [x]) = level h leaves ++ [y].
Proof.
  induction h as [|h IH]; cbn [level].
  - right; now exists x.
  - destruct IH as [IH|[y IH]]; rewrite IH; [now left|].
    destruct (pairs_snoc (level h leaves) y) as [[Hp _]|(_ & Hp & _)].
    + left; exact Hp.
    + right. eexists; exact Hp.
Qed.

Lemma level_step (leaves : list Node) (x : Node) (h : nat) :
  let L' := level h (leaves ++ [x]) in
  level (S h) (leaves ++ [x]) = level (S h) leaves \/
  (Z.land (vsize L') 1 = 0 /\
   level (S h) (leaves ++ [x]) =
     level (S h) leaves ++ [parent (vat NodeDefault L' (vsize L' - 2))
                                   (vat NodeDefault L' (vsize L' - 1))]).
Proof.
  cbn zeta. cbn [level].
  destruct (level_snoc leaves x h) as [IH|[y IH]]; rewrite IH; [now left|].
  destruct (pairs_snoc (level h leaves) y) as [[Hp _]|(Hev & Hp & _)].
  - now left.
  - right. split; assumption.
Qed.

Lemma levels_ok_snoc (leaves : list Node) (x : Node) :
  levels_ok (leaves ++ [x]) -> levels_ok leaves.
Proof.
  intros Hok h. specialize (Hok h).
  destruct (level_snoc leaves x h) as [IH|[y IH]]; rewrite IH in Hok; [exact Hok|].
  destruct (pairs_snoc (level h leaves) y) as [[_ Hk]|(_ & _ & Hk)];
    rewrite Hk in Hok; [exact Hok|].
  now apply andb_prop in Hok.
Qed.
End RangeFacts.

Lemma shiftr_log2_ge (n : Z) (h : Z) :
  0 < n -> 0 <= h -> (1 <= Z.shiftr n h <-> h <= Z.log2 n).
Proof.
  intros Hn Hh. rewrite shiftr_div by lia.
  pose proof (Z.log2_spec n Hn) as [Hlo Hhi].
  pose proof (Z.log2_nonneg n) as Hlg.
  assert (Hp : 0 < 2 ^ h) by (apply Z.pow_pos_nonneg; lia).
  split; intros H.
  - destruct (Z.le_gt_cases h (Z.log2 n)) as [|Hgt]; [assumption|].
    assert (2 ^ (Z.succ (Z.log2 n)) <= 2 ^ h) by (apply Z.pow_le_mono_r; lia).
    rewrite Z.div_small in H by lia. lia.
  - assert (2 ^ h <= 2 ^ Z.log2 n) by (apply Z.pow_le_mono_r; lia).
    apply Z.div_le_lower_bound; lia.
Qed.

Lemma shiftr_log2_gt (n : Z) (h : Z) :
  0 < n -> 0 <= h -> (1 < Z.shiftr n h <-> h < Z.log2 n).
Proof.
  intros Hn Hh. rewrite shiftr_div by lia.
  pose proof (Z.log2_spec n Hn) as [Hlo Hhi].
  pose proof (Z.log2_nonneg n) as Hlg.
  assert (Hp : 0 < 2 ^ h) by (apply Z.pow_pos_nonneg; lia).
  split; intros H.
  - destruct (Z.lt_ge_cases h (Z.log2 n)) as [|Hge]; [assumption|].
    assert (2 ^ (Z.succ (Z.log2 n)) <= 2 ^ (Z.succ h)) by (apply Z.pow_le_mono_r; lia).
    rewrite !Z.pow_succ_r in * by lia.
    assert (n / 2 ^ h < 2) by (apply Z.div_lt_upper_bound; lia). lia.
  - assert (2 ^ (Z.succ h) <= 2 ^ Z.log2 n) by (apply Z.pow_le_mono_r; lia).
    rewrite !Z.pow_succ_r in * by lia.
    assert (2 <= n / 2 ^ h) by (apply Z.div_le_lower_bound; lia). lia.
Qed.

Lemma shiftr_above_log2 (n h : Z) :
  0 <= n -> Z.log2 n < h -> Z.shiftr n h = 0.
Proof.
  intros Hn Hh. pose proof (Z.log2_nonneg n).
  rewrite shiftr_div by lia.
  destruct (Z.eq_dec n 0) as [->|Hne]; [apply Z.div_0_l; apply Z.pow_nonzero; lia|].
  pose proof (Z.log2_spec n ltac:(lia)) as [Hlo Hhi].
  assert (2 ^ (Z.succ (Z.log2 n)) <= 2 ^ h) by (apply Z.pow_le_mono_r; lia).
  apply Z.div_small; lia.
Qed.

Lemma shiftr_nonneg (n h : Z) : 0 <= n -> 0 <= Z.shiftr n h.
Proof. intros; now apply Z.shiftr_nonneg. Qed.

Lemma shiftr_le (n h : Z) : 0 <= n -> 0 <= h -> Z.shiftr n h <= n.
Proof.
  intros. rewrite shiftr_div by lia.
  assert (0 < 2 ^ h) by (apply Z.pow_pos_nonneg; lia).
  apply Z.div_le_upper_bound; nia.
Qed.

Lemma vat_map_seq {A} (d : A) (f : nat -> A) (m : nat) (j : nat) :
  (j < m)%nat -> vat d (map f (seq 0 m)) (Z.of_nat j) = f j.
Proof.
  intros. unfold vat. rewrite Nat2Z.id.
  rewrite nth_indep with (d' := f 0%nat) by (rewrite length_map, length_seq; lia).
  rewrite map_nth. now rewrite seq_nth.
Qed.

Lemma vsize_map_seq {A} (f : nat -> A) (m : nat) :
  vsize (map f (seq 0 m)) = Z.of_nat m.
Proof. unfold vsize. now rewrite length_map, length_seq. Qed.

Lemma vset_map_seq {A} (f g : nat -> A) (m h : nat) :
  (h < m)%nat -> (forall j, j <> h -> f j = g j) ->
  vset (map f (seq 0 m)) (Z.of_nat h) (g h) = map g (seq 0 m).
Proof.
  intros Hh Hfg. unfold vset. rewrite Nat2Z.id.
  replace m with (h + S (m - S h))%nat by lia.
  rewrite seq_app, !map_app. cbn [seq map plus].
  rewrite firstn_app, firstn_all2 by (rewrite length_map, length_seq; lia).
  rewrite length_map, length_seq, Nat.sub_diag. cbn [firstn]. rewrite app_nil_r.
  rewrite skipn_app, skipn_all2 by (rewrite length_map, length_seq; lia).
  rewrite length_map, length_seq.
  replace (S h - h)%nat with 1%nat by lia. cbn [skipn app].
  f_equal; [|f_equal]; apply map_ext_in; intros j Hj; apply in_seq in Hj; apply Hfg; lia.
Qed.

Lemma vresize_grow {A} (d : A) (l : list A) :
  vresize d l (vsize l + 1) = l ++ [d].
Proof.
  unfold vresize, vsize.
  rewrite firstn_all2 by lia.
  replace (Z.to_nat (Z.of_nat (length l) + 1) - length l)%nat with 1%nat by lia.
  reflexivity.
Qed.

Section AddFacts.
Context {NT : NODE_TYPE}.

Lemma Add_loop_unfold (fuel : nat) below0 upper height layerSize :
  CMerkleMountainRange.Add_loop (S fuel) below0 upper height layerSize =
  if (height <=? vsize upper) && (1 <? layerSize) then
    let newSizeAbove := Z.shiftr layerSize 1 in
    let upper1 :=
      if height =? vsize upper
      then vresize CChunkedLayer.empty upper (vsize upper + 1)
      else upper in
    let curSizeAbove :=
      uint32_t (CChunkedLayer.size (vat CChunkedLayer.empty upper1 height)) in
    upper2 <-
      (if (Z.land layerSize 1 =? 0) && (curSizeAbove <? newSizeAbove) then
         let idx := uint32_t (layerSize - 2) in
         let below :=
           if height =? 0 then below0
           else vat CChunkedLayer.empty upper1 (height - 1) in
         l <- CChunkedLayer.get below idx ;;
         r <- CChunkedLayer.get below (uint32_t (idx + 1)) ;;
         parent <- CreateParentNode l r ;;
         Ok (vset upper1 height
               (CChunkedLayer.push_back
                  (vat CChunkedLayer.empty upper1 height) parent))
       else Ok upper1) ;;
    CMerkleMountainRange.Add_loop fuel below0 upper2 (uint32_t (height + 1)) newSizeAbove
  else Ok upper.
Proof. reflexivity. Qed.

Section Step.
Variable leaves : list Node.
Variable x : Node.
Hypothesis Hok : levels_ok (leaves ++ [x]).
Hypothesis Hbound : vsize (leaves ++ [x]) < 2 ^ 32.

Let N := vsize leaves.
Let N' := vsize (leaves ++ [x]).
Let T := Z.to_nat (Z.log2 N).

(** The upper layers once the heights below [h] have been handled. *)
Let layer_at (h j : nat) : CChunkedLayer.t :=
  layer_of (level (S j) (if (j <? h)%nat then leaves ++ [x] else leaves)).
Let U (h : nat) : list CChunkedLayer.t :=
  map (layer_at h) (seq 0 (Nat.max T h)).

Lemma N'_eq : N' = N + 1.
Proof. unfold N', N. now rewrite vsize_app. Qed.

Lemma level_small (h : nat) : vsize (level h leaves) < 2 ^ 32.
Proof.
  rewrite vsize_level. pose proof N'_eq as E. pose proof (vsize_nonneg leaves).
  pose proof (shiftr_le (vsize leaves) (Z.of_nat h)). unfold N', N in E. lia.
Qed.

Lemma level_small' (h : nat) : vsize (level h (leaves ++ [x])) < 2 ^ 32.
Proof.
  rewrite vsize_level. pose proof (vsize_nonneg (leaves ++ [x])).
  pose proof (shiftr_le (vsize (leaves ++ [x])) (Z.of_nat h)). lia.
Qed.

Lemma level_above_top (h : nat) : (T <= h)%nat -> level (S h) leaves = [].
Proof.
  intros Hh. pose proof (vsize_level (S h) leaves) as Hs.
  rewrite shiftr_above_log2 in Hs.
  - unfold vsize in Hs. destruct (level (S h) leaves); [reflexivity|cbn in Hs; lia].
  - apply vsize_nonneg.
  - unfold T, N in Hh. pose proof (Z.log2_nonneg (vsize leaves)). lia.
Qed.

Lemma upper1_eq (h : nat) :
  (if Z.of_nat h =? vsize (U h)
   then vresize CChunkedLayer.empty (U h) (vsize (U h) + 1)
   else U h)
  = map (layer_at h) (seq 0 (Nat.max T (S h))).
Proof.
  unfold U. rewrite vsize_map_seq.
  destruct (Z.eqb_spec (Z.of_nat h) (Z.of_nat (Nat.max T h))) as [E|E].
  - assert (Hmax : Nat.max T h = h) by lia.
    rewrite <- (vsize_map_seq (layer_at h) (Nat.max T h)), vresize_grow.
    rewrite Hmax. replace (Nat.max T (S h)) with (S h) by lia.
    rewrite seq_S, map_app. cbn [map plus]. f_equal. f_equal.
    unfold layer_at. rewrite Nat.ltb_irrefl.
    rewrite level_above_top by lia. reflexivity.
  - f_equal. f_equal. lia.
Qed.

Lemma Add_loop_levels (fuel : nat) : forall h : nat,
  Z.shiftr N' (Z.of_nat h) < 2 ^ Z.of_nat fuel ->
  Z.of_nat h <= Z.log2 N' ->
  CMerkleMountainRange.Add_loop fuel (layer_of (leaves ++ [x])) (U h)
    (Z.of_nat h) (Z.shiftr N' (Z.of_nat h))
  = Ok (U (Z.to_nat (Z.log2 N'))).
Proof.
  assert (HN' : 0 < N') by (rewrite N'_eq; pose proof (vsize_nonneg leaves); unfold N; lia).
  assert (HN : 0 <= N) by apply vsize_nonneg.
  induction fuel as [|fuel IH]; intros h Hfuel Hh.
  - apply (shiftr_log2_ge N' (Z.of_nat h)) in Hh; [|lia|lia].
    change (2 ^ Z.of_nat 0) with 1 in Hfuel. lia.
  - rewrite Add_loop_unfold.
    destruct (Z.ltb_spec 1 (Z.shiftr N' (Z.of_nat h))) as [Hgt|Hle].
    2:{ rewrite andb_false_r.
        assert (Hh' : ~ Z.of_nat h < Z.log2 N').
        { intros C. apply (shiftr_log2_gt N' (Z.of_nat h)) in C; lia. }
        replace (Z.to_nat (Z.log2 N')) with h by lia. reflexivity. }
    assert (Hlt : Z.of_nat h < Z.log2 N').
    { apply (shiftr_log2_gt N' (Z.of_nat h)); lia. }
    assert (Hlen : (Z.of_nat h <=? vsize (U h)) = true).
    { unfold U. rewrite vsize_map_seq. apply Z.leb_le. lia. }
    rewrite Hlen. cbn [andb]. cbv zeta.
    rewrite upper1_eq.
    assert (HhT : (h < Nat.max T (S h))%nat) by lia.
    rewrite (vat_map_seq _ _ _ h HhT).
    assert (Hcur : layer_at h h = layer_of (level (S h) leaves)).
    { unfold layer_at. now rewrite Nat.ltb_irrefl. }
    rewrite Hcur.
    pose proof (level_small (S h)) as Hsm.
    pose proof (vsize_nonneg (level (S h) leaves)) as Hnn.
    rewrite (chunked_size _ (level (S h) leaves))
      by (apply chunked_layer_of; lia).
    rewrite uint32_small by lia.
    assert (Hn : vsize (level h (leaves ++ [x])) = Z.shiftr N' (Z.of_nat h))
      by apply vsize_level.
    assert (Hnew : vsize (level (S h) (leaves ++ [x]))
                   = Z.shiftr (Z.shiftr N' (Z.of_nat h)) 1).
    { cbn [level]. now rewrite vsize_pairs, Hn. }
    assert (Hnext :
      (upper2 <-
         (if (Z.land (Z.shiftr N' (Z.of_nat h)) 1 =? 0) &&
             (vsize (level (S h) leaves) <? Z.shiftr (Z.shiftr N' (Z.of_nat h)) 1)
          then
            let idx := uint32_t (Z.shiftr N' (Z.of_nat h) - 2) in
            let below :=
              if Z.of_nat h =? 0 then layer_of (leaves ++ [x])
              else vat CChunkedLayer.empty
                     (map (layer_at h) (seq 0 (Nat.max T (S h)))) (Z.of_nat h - 1) in
            l <- CChunkedLayer.get below idx ;;
            r <- CChunkedLayer.get below (uint32_t (idx + 1)) ;;
            parent <- CreateParentNode l r ;;
            Ok (vset (map (layer_at h) (seq 0 (Nat.max T (S h)))) (Z.of_nat h)
                  (CChunkedLayer.push_back (layer_of (level (S h) leaves)) parent))
          else Ok (map (layer_at h) (seq 0 (Nat.max T (S h))))) ;;
       CMerkleMountainRange.Add_loop fuel (layer_of (leaves ++ [x])) upper2
         (uint32_t (Z.of_nat h + 1)) (Z.shiftr (Z.shiftr N' (Z.of_nat h)) 1))
      = CMerkleMountainRange.Add_loop fuel (layer_of (leaves ++ [x])) (U (S h))
         (uint32_t (Z.of_nat h + 1)) (Z.shiftr (Z.shiftr N' (Z.of_nat h)) 1)).
    { assert (Hset : vset (map (layer_at h) (seq 0 (Nat.max T (S h)))) (Z.of_nat h)
                          (layer_at (S h) h) = U (S h)).
      { apply vset_map_seq; [lia|]. intros j Hj. unfold layer_at.
        destruct (Nat.ltb_spec j h), (Nat.ltb_spec j (S h)); try reflexivity; lia. }
      assert (Hnewl : layer_at (S h) h = layer_of (level (S h) (leaves ++ [x]))).
      { unfold layer_at. destruct (Nat.ltb_spec h (S h)); [reflexivity|lia]. }
      destruct (level_step leaves x h) as [Hsame|[Hev Hgrow]].
      - (* the level above is unchanged *)
        assert (Hcond : (vsize (level (S h) leaves)
                         <? Z.shiftr (Z.shiftr N' (Z.of_nat h)) 1) = false).
        { rewrite <- Hnew, Hsame. apply Z.ltb_irrefl. }
        rewrite Hcond, andb_false_r. cbn [bind].
        assert (Hid : vset (map (layer_at h) (seq 0 (Nat.max T (S h)))) (Z.of_nat h)
                           (layer_at h h) = map (layer_at h) (seq 0 (Nat.max T (S h))))
          by (apply vset_map_seq; [lia|reflexivity]).
        rewrite <- Hset, Hnewl, Hsame, <- Hcur, Hid. reflexivity.
      - (* the level above gains the parent of the last two nodes *)
        rewrite Hn in Hev, Hgrow.
        assert (Hcond : (vsize (level (S h) leaves)
                         <? Z.shiftr (Z.shiftr N' (Z.of_nat h)) 1) = true).
        { rewrite <- Hnew, Hgrow, vsize_app. apply Z.ltb_lt.
          unfold vsize at 3. cbn [length]. lia. }
        rewrite Hcond, Hev. cbn [Z.eqb andb]. cbv zeta.
        assert (Hbelow :
          (if Z.of_nat h =? 0 then layer_of (leaves ++ [x])
           else vat CChunkedLayer.empty
                  (map (layer_at h) (seq 0 (Nat.max T (S h)))) (Z.of_nat h - 1))
          = layer_of (level h (leaves ++ [x]))).
        { destruct h as [|h']; [reflexivity|].
          destruct (Z.eqb_spec (Z.of_nat (S h')) 0); [lia|].
          replace (Z.of_nat (S h') - 1) with (Z.of_nat h') by lia.
          rewrite vat_map_seq by lia. unfold layer_at.
          destruct (Nat.ltb_spec h' (S h')); [reflexivity|lia]. }
        rewrite Hbelow.
        pose proof (level_small' h) as Hsm'. rewrite Hn in Hsm'.
        assert (Hmod : Z.shiftr N' (Z.of_nat h) mod 2 = 0)
          by (now rewrite <- land1_mod).
        rewrite (uint32_small (Z.shiftr N' (Z.of_nat h) - 2)) by lia.
        rewrite uint32_small by lia.
        rewrite !(chunked_get _ (level h (leaves ++ [x])))
          by (try (apply chunked_layer_of); rewrite ?Hn; lia).
        cbn [bind].
        pose proof (pairs_ok_vat _ (Hok h) ((Z.shiftr N' (Z.of_nat h) - 2) / 2)) as Hpar.
        assert (Hdiv : 2 * ((Z.shiftr N' (Z.of_nat h) - 2) / 2)
                       = Z.shiftr N' (Z.of_nat h) - 2).
        { pose proof (Z.div_mod (Z.shiftr N' (Z.of_nat h) - 2) 2 ltac:(lia)) as Hdm.
          replace ((Z.shiftr N' (Z.of_nat h) - 2) mod 2) with 0 in Hdm; [lia|].
          replace (Z.shiftr N' (Z.of_nat h) - 2)
            with (Z.shiftr N' (Z.of_nat h) + (-1) * 2) by lia.
          now rewrite Z.mod_add by lia. }
        rewrite Hdiv in Hpar.
        replace (Z.shiftr N' (Z.of_nat h) - 2 + 1)
          with (Z.shiftr N' (Z.of_nat h) - 1) in * by lia.
        rewrite Hpar; [| apply Z.div_pos; lia | rewrite Hn; lia].
        cbn [bind].
        rewrite <- layer_of_snoc, <- Hgrow, <- Hnewl, Hset. reflexivity. }
    cbv zeta in Hnext. rewrite Hnext.
    assert (Hlog : Z.log2 N' < 32) by (apply Z.log2_lt_pow2; [lia|exact Hbound]).
    rewrite uint32_small by lia.
    assert (Hf' : Z.shiftr (Z.shiftr N' (Z.of_nat h)) 1 < 2 ^ Z.of_nat fuel).
    { rewrite (shiftr_div _ 1) by lia. change (2 ^ 1) with 2.
      apply Z.div_lt_upper_bound; [lia|].
      replace (Z.of_nat (S fuel)) with (Z.succ (Z.of_nat fuel)) in Hfuel by lia.
      rewrite Z.pow_succ_r in Hfuel by lia. exact Hfuel. }
    rewrite Z.shiftr_shiftr in * by lia.
    replace (Z.of_nat h + 1) with (Z.of_nat (S h)) in * by lia.
    apply IH; [exact Hf'|lia].
Qed.

Lemma Add_range_of :
  CMerkleMountainRange.Add (range_of leaves) x
  = Ok (range_of (leaves ++ [x]), vsize leaves).
Proof.
  pose proof (vsize_nonneg leaves) as HN.
  pose proof N'_eq as HN'. unfold N', N in HN'.
  unfold CMerkleMountainRange.Add. cbn [range_of CMerkleMountainRange.layer0
    CMerkleMountainRange.upperNodes].
  rewrite <- layer_of_snoc.
  rewrite (chunked_size _ (leaves ++ [x])) by (apply chunked_layer_of; lia).
  rewrite uint32_small by lia.
  pose proof (Add_loop_levels 32 0) as H.
  change (Z.of_nat 0) with 0 in H. rewrite Z.shiftr_0_r in H.
  assert (HU0 : U 0 = map (fun h => layer_of (level (S h) leaves))
                          (seq 0 (Z.to_nat (Z.log2 (vsize leaves))))).
  { unfold U, T, N. rewrite Nat.max_0_r. apply map_ext. intros j.
    unfold layer_at. reflexivity. }
  rewrite HU0 in H. unfold N' in H. rewrite H.
  - cbn [bind]. unfold range_of. f_equal. f_equal; [|rewrite uint64_small; lia].
    f_equal. unfold U, T, N.
    assert (Hmono : Z.log2 (vsize leaves) <= Z.log2 (vsize (leaves ++ [x])))
      by (apply Z.log2_le_mono; lia).
    pose proof (Z.log2_nonneg (vsize leaves)).
    replace (Nat.max (Z.to_nat (Z.log2 (vsize leaves)))
                     (Z.to_nat (Z.log2 (vsize (leaves ++ [x])))))
      with (Z.to_nat (Z.log2 (vsize (leaves ++ [x])))) by lia.
    apply map_ext_in. intros j Hj. apply in_seq in Hj. unfold layer_at.
    destruct (Nat.ltb_spec j (Z.to_nat (Z.log2 (vsize (leaves ++ [x])))));
      [reflexivity|lia].
  - exact Hbound.
  - apply Z.log2_nonneg.
Qed.
End Step.

Lemma build_snoc (leaves : list Node) (x : Node) :
  CMerkleMountainRange.build (leaves ++ [x]) =
  (m <- CMerkleMountainRange.build leaves ;;
   r <- CMerkleMountainRange.Add m x ;; Ok (fst r)).
Proof. unfold CMerkleMountainRange.build. now rewrite fold_left_app. Qed.

Lemma range_of_nil : range_of [] = CMerkleMountainRange.empty.
Proof. reflexivity. Qed.

(** Appending [leaves] to an empty range gives every level over them. *)
Lemma build_range_of (leaves : list Node) :
  levels_ok leaves -> vsize leaves < 2 ^ 32 ->
  CMerkleMountainRange.build leaves = Ok (range_of leaves).
Proof.
  induction leaves as [|x leaves IH] using rev_ind; intros Hok Hb.
  - reflexivity.
  - rewrite build_snoc, IH.
    + cbn [bind]. rewrite Add_range_of by assumption. reflexivity.
    + eapply levels_ok_snoc; eassumption.
    + rewrite vsize_app in Hb. unfold vsize in *. cbn [length] in Hb. lia.
Qed.

Lemma size_range_of (leaves : list Node) :
  vsize leaves < 2 ^ 64 -> CMerkleMountainRange.size (range_of leaves) = vsize leaves.
Proof.
  intros. unfold CMerkleMountainRange.size. cbn [range_of CMerkleMountainRange.layer0].
  apply chunked_size, chunked_layer_of. assumption.
Qed.

Lemma height_range_of (leaves : list Node) :
  vsize leaves < 2 ^ 32 ->
  CMerkleMountainRange.height (range_of leaves) =
    if vsize leaves =? 0 then 0 else Z.log2 (vsize leaves) + 1.
Proof.
  intros Hb. pose proof (vsize_nonneg leaves).
  unfold CMerkleMountainRange.height.
  cbn [range_of CMerkleMountainRange.layer0 CMerkleMountainRange.upperNodes].
  rewrite (chunked_size _ leaves) by (apply chunked_layer_of; lia).
  destruct (Z.eqb_spec (vsize leaves) 0); [reflexivity|].
  rewrite vsize_map_seq.
  pose proof (Z.log2_nonneg (vsize leaves)).
  assert (Z.log2 (vsize leaves) < 32) by (apply Z.log2_lt_pow2; lia).
  rewrite uint32_small by lia. lia.
Qed.
End AddFacts.

Section TreeOk.
Context {NT : NODE_TYPE}.

Lemma level_beyond (leaves : list Node) (h : nat) :
  (length leaves <= h)%nat -> level h leaves = [].
Proof.
  intros Hh. pose proof (vsize_level h leaves) as Hs.
  pose proof (vsize_nonneg leaves) as Hn.
  assert (Hz : Z.shiftr (vsize leaves) (Z.of_nat h) = 0).
  { rewrite shiftr_div by lia. apply Z.div_small. split; [lia|].
    apply Z.lt_le_trans with (2 ^ vsize leaves).
    - apply Z.pow_gt_lin_r; lia.
    - apply Z.pow_le_mono_r; unfold vsize; lia. }
  rewrite Hz in Hs. unfold vsize in Hs.
  destruct (level h leaves); [reflexivity|cbn [length] in Hs; lia].
Qed.

Lemma tree_ok_levels (leaves : list Node) :
  tree_ok leaves = true -> levels_ok leaves.
Proof.
  intros Hok h. unfold tree_ok in Hok. rewrite forallb_forall in Hok.
  destruct (Nat.lt_ge_cases h (length leaves)) as [Hlt|Hge].
  - apply Hok, in_seq. lia.
  - now rewrite level_beyond.
Qed.

Lemma levels_tree_ok (leaves : list Node) :
  levels_ok leaves -> tree_ok leaves = true.
Proof. intros Hok. apply forallb_forall. intros h _. apply Hok. Qed.

Lemma levels_ok_app (leaves rest : list Node) :
  levels_ok (leaves ++ rest) -> levels_ok leaves.
Proof.
  induction rest as [|x rest IH] using rev_ind; intros Hok.
  - now rewrite app_nil_r in Hok.
  - rewrite app_assoc in Hok. apply levels_ok_snoc in Hok. auto.
Qed.

(** C6 (amended): appending [N] leaves to an empty range, when [N] fits
    the 32-bit counters of [Add] and no [CreateParentNode] fails, gives a
    range whose [size()] is [N] and whose [height()] is 0 for [N = 0] and
    the number of halvings of [N] down to 1, plus one, otherwise: the
    floor of the binary logarithm, not its ceiling. *)
Theorem append_size_height (leaves : list Node) :
  tree_ok leaves = true ->
  vsize leaves < 2 ^ 32 ->
  exists m,
    CMerkleMountainRange.build leaves = Ok m /\
    CMerkleMountainRange.size m = vsize leaves /\
    CMerkleMountainRange.height m =
      if vsize leaves =? 0 then 0 else Z.log2 (vsize leaves) + 1.
Proof.
  intros Hok Hb. exists (range_of leaves). split; [|split].
  - apply build_range_of; [now apply tree_ok_levels|assumption].
  - apply size_range_of. lia.
  - now apply height_range_of.
Qed.
End TreeOk.

Lemma tree_ok_plain {HW : HASHALGOWRITER} (leaves : list (@Node CMMRNode_type)) :
  tree_ok leaves = true.
Proof.
  apply forallb_forall. intros h _.
  induction (level h leaves) as [| a | a b l IH] using list_pair_ind; auto.
Qed.

Lemma append_size_height_witness :
  @tree_ok plain_nodes (plain_leaves [1; 2; 3; 4; 5]) = true /\
  vsize (plain_leaves [1; 2; 3; 4; 5]) < 2 ^ 32 /\
  exists m,
    CMerkleMountainRange.build (plain_leaves [1; 2; 3; 4; 5]) = Ok m /\
    CMerkleMountainRange.size m = 5 /\
    CMerkleMountainRange.height m = 3.
Proof.
  split; [vm_compute; reflexivity|].
  split; [vm_compute; reflexivity|].
  apply (@append_size_height plain_nodes (plain_leaves [1; 2; 3; 4; 5]));
    vm_compute; reflexivity.
Defined.

(** Three appends give a range of height 2, where the ceiling of the binary
    logarithm plus one is 3. *)
Lemma height_three_leaves :
  exists m,
    CMerkleMountainRange.build (plain_leaves [1; 2; 3]) = Ok m /\
    CMerkleMountainRange.size m = 3 /\
    CMerkleMountainRange.height m = 2 /\
    CMerkleMountainRange.height m <> Z.log2_up 3 + 1.
Proof.
  eexists. split; [vm_compute; reflexivity|].
  split; [reflexivity|]. split; [reflexivity|].
  vm_compute. discriminate.
Qed.

Lemma zrange_empty (lo hi : Z) : hi < lo -> zrange lo hi = [].
Proof. intros. unfold zrange. replace (Z.to_nat (hi + 1 - lo)) with 0%nat by lia. reflexivity. Qed.

Lemma zrange_single (lo : Z) : zrange lo lo = [lo].
Proof.
  unfold zrange. replace (Z.to_nat (lo + 1 - lo)) with 1%nat by lia.
  cbn. now rewrite Z.add_0_r.
Qed.

Lemma zrange_from_zero (n : nat) : zrange 0 (Z.of_nat n - 1) = map Z.of_nat (seq 0 n).
Proof.
  unfold zrange. replace (Z.to_nat (Z.of_nat n - 1 + 1 - 0)) with n by lia.
  apply map_ext. intros; lia.
Qed.

Lemma vresize_shrink {A} (d : A) (l : list A) (n : Z) :
  n <= vsize l -> vresize d l n = firstn (Z.to_nat n) l.
Proof.
  intros. unfold vresize, vsize in *.
  replace (Z.to_nat n - length l)%nat with 0%nat by lia.
  cbn. apply app_nil_r.
Qed.

Section ResizeFacts.
Context {NT : NODE_TYPE}.

(** Shrinking a layer keeps the elements below the new size in place. *)
Lemma resize_shrink (l : CChunkedLayer.t) (xs : list Node) (n : Z) :
  chunked l xs -> vsize xs < 2 ^ 64 -> 0 < n <= vsize xs ->
  CChunkedLayer.size (CChunkedLayer.resize l n) = n /\
  forall i, 0 <= i < n ->
    CChunkedLayer.slot (CChunkedLayer.resize l n) i = CChunkedLayer.slot l i.
Proof.
  intros [Hsz Hch] Hb Hn.
  destruct Hch as [[Hnodes Hxs]|(full & lastc & Hnodes & Hfull & Hlast & Hxs)].
  { subst xs. unfold vsize in Hn; cbn [length] in Hn; lia. }
  pose proof (length_concat_full full 512 Hfull) as Hlen.
  assert (Hv : vsize xs = 512 * vsize full + vsize lastc).
  { unfold vsize. rewrite Hxs, length_app, Hlen. lia. }
  assert (HLc : 0 < vsize lastc <= 512) by (unfold vsize; lia).
  pose proof (vsize_nonneg full) as HF.
  assert (Hq : (vsize xs - 1) / 512 = vsize full).
  { symmetry. apply (Z.div_unique _ 512 _ (vsize lastc - 1)); lia. }
  assert (Hq' : 0 <= (n - 1) / 512 <= vsize full).
  { split; [apply Z.div_pos; lia|]. rewrite <- Hq. apply Z.div_le_mono; lia. }
  pose proof (Z.div_mod (n - 1) 512 ltac:(lia)) as Hdm.
  pose proof (Z.mod_pos_bound (n - 1) 512 ltac:(lia)) as Hmb.
  unfold CChunkedLayer.resize.
  destruct (Z.eqb_spec n 0) as [|_]; [lia|].
  unfold CChunkedLayer.size. rewrite Hsz.
  destruct (Z.eqb_spec (vsize xs) 0) as [|_]; [lia|].
  change CChunkedLayer.CHUNK_SHIFT with 9.
  change CChunkedLayer.chunkMask with 511.
  change CChunkedLayer.chunkSize with 512.
  rewrite !shiftr_div, !land_mask by lia. change (2 ^ 9) with 512.
  rewrite Hq, Hnodes.
  assert (Hvn : vsize (full ++ [lastc]) = vsize full + 1)
    by (rewrite vsize_app; reflexivity).
  rewrite vresize_shrink by lia.
  destruct (Z.eq_dec ((n - 1) / 512) (vsize full)) as [Heq|Hne].
  - (* the last chunk stays the last one and is cut *)
    rewrite Heq, zrange_single, firstn_all2 by (unfold vsize in *; lia).
    cbn [fold_left]. rewrite Z.ltb_irrefl.
    unfold vback_apply. rewrite removelast_last, last_last.
    assert (Hr : (n - 1) mod 512 + 1 <= vsize lastc) by lia.
    rewrite vresize_shrink by lia.
    cbn [CChunkedLayer.vSize CChunkedLayer.nodes].
    split.
    + rewrite vsize_app. change (vsize [firstn _ lastc]) with 1.
      rewrite Z.shiftl_mul_pow2 by lia. change (2 ^ 9) with 512.
      rewrite uint64_small; lia.
    + intros i Hi. unfold CChunkedLayer.slot.
      cbn [CChunkedLayer.nodes].
      change CChunkedLayer.CHUNK_SHIFT with 9.
      change CChunkedLayer.chunkMask with 511.
      rewrite !shiftr_div, !land_mask by lia. change (2 ^ 9) with 512.
      rewrite Hnodes.
      assert (Hiq : 0 <= i / 512 <= vsize full).
      { split; [apply Z.div_pos; lia|]. rewrite <- Heq. apply Z.div_le_mono; lia. }
      destruct (Z.eq_dec (i / 512) (vsize full)) as [Hi1|Hi1].
      * rewrite Hi1, !vat_last.
        unfold vat. rewrite nth_firstn.
        pose proof (Z.div_mod i 512 ltac:(lia)) as Hdi.
        pose proof (Z.mod_pos_bound i 512 ltac:(lia)) as Hmi.
        destruct (Nat.ltb_spec (Z.to_nat (i mod 512)) (Z.to_nat ((n - 1) mod 512 + 1)));
          [reflexivity|lia].
      * rewrite !vat_app1 by lia. reflexivity.
  - (* whole chunks are dropped and the new last chunk stays full *)
    rewrite zrange_empty by lia. cbn [fold_left].
    cbn [CChunkedLayer.vSize CChunkedLayer.nodes].
    assert (Hfn : firstn (Z.to_nat ((n - 1) / 512 + 1)) (full ++ [lastc])
                  = firstn (Z.to_nat ((n - 1) / 512 + 1)) full).
    { rewrite firstn_app.
      replace (Z.to_nat ((n - 1) / 512 + 1) - length full)%nat with 0%nat
        by (unfold vsize in *; lia).
      cbn. apply app_nil_r. }
    rewrite Hfn.
    assert (Hvf : vsize (firstn (Z.to_nat ((n - 1) / 512 + 1)) full)
                  = (n - 1) / 512 + 1).
    { unfold vsize in *. rewrite length_firstn. lia. }
    split.
    + rewrite Hvf, Z.shiftl_mul_pow2 by lia. change (2 ^ 9) with 512.
      rewrite uint64_small; lia.
    + intros i Hi. unfold CChunkedLayer.slot.
      cbn [CChunkedLayer.nodes].
      change CChunkedLayer.CHUNK_SHIFT with 9.
      change CChunkedLayer.chunkMask with 511.
      rewrite !shiftr_div, !land_mask by lia. change (2 ^ 9) with 512.
      rewrite Hnodes.
      assert (Hiq : 0 <= i / 512 <= (n - 1) / 512).
      { split; [apply Z.div_pos; lia|]. apply Z.div_le_mono; lia. }
      rewrite vat_app1 by lia.
      f_equal. unfold vat. rewrite nth_firstn.
      destruct (Nat.ltb_spec (Z.to_nat (i / 512)) (Z.to_nat ((n - 1) / 512 + 1)));
        [reflexivity|lia].
Qed.
End ResizeFacts.

(** ** The halving sequence *)

Lemma log2_shiftr1 (v : Z) : 1 < v -> Z.log2 (Z.shiftr v 1) = Z.log2 v - 1.
Proof.
  intros. rewrite Z.log2_shiftr by lia.
  assert (0 < Z.log2 v) by (apply Z.log2_pos; lia). lia.
Qed.

Lemma halving_spec (fuel : nat) : forall v,
  0 <= v < 2 ^ Z.of_nat fuel ->
  halving fuel v =
    if v =? 0 then []
    else map (fun h => Z.shiftr v (Z.of_nat h)) (seq 0 (S (Z.to_nat (Z.log2 v)))).
Proof.
  induction fuel as [|fuel IH]; intros v Hv.
  - change (2 ^ Z.of_nat 0) with 1 in Hv. assert (v = 0) by lia. now subst.
  - cbn [halving]. destruct (Z.eqb_spec v 0) as [|Hne]; [reflexivity|].
    rewrite IH.
    2:{ rewrite shiftr_div by lia. change (2 ^ 1) with 2.
        replace (Z.of_nat (S fuel)) with (Z.succ (Z.of_nat fuel)) in Hv by lia.
        rewrite Z.pow_succ_r in Hv by lia.
        split; [apply Z.div_pos; lia|apply Z.div_lt_upper_bound; lia]. }
    destruct (Z.eq_dec v 1) as [->|Hv1]; [reflexivity|].
    assert (Hs : Z.shiftr v 1 <> 0).
    { rewrite shiftr_div by lia. change (2 ^ 1) with 2.
      assert (1 <= v / 2) by (apply Z.div_le_lower_bound; lia). lia. }
    apply Z.eqb_neq in Hs. rewrite Hs.
    rewrite log2_shiftr1 by lia.
    assert (0 < Z.log2 v) by (apply Z.log2_pos; lia).
    replace (S (Z.to_nat (Z.log2 v - 1))) with (Z.to_nat (Z.log2 v)) by lia.
    rewrite <- (cons_seq (Z.to_nat (Z.log2 v)) 0). cbn [map].
    rewrite Z.shiftr_0_r. f_equal.
    rewrite <- seq_shift, map_map. apply map_ext. intros h.
    rewrite Z.shiftr_shiftr by lia. f_equal. lia.
Qed.

(** The sizes of a view or of a truncation: [n], then its halves down to 1. *)
Lemma sizes_spec (n : Z) :
  0 <= n < 2 ^ 64 ->
  n :: halving 64 (Z.shiftr n 1) =
    map (fun h => Z.shiftr n (Z.of_nat h)) (seq 0 (S (Z.to_nat (Z.log2 n)))).
Proof.
  intros Hn. destruct (Z.eq_dec n 0) as [->|Hne]; [reflexivity|].
  pose proof (halving_spec 65 n) as H.
  cbn [halving] in H. apply Z.eqb_neq in Hne. rewrite Hne in H.
  apply H. change (2 ^ Z.of_nat 65) with (2 * 2 ^ 64). lia.
Qed.

Lemma fold_vset_map_seq {A} (d : A) (g : Z -> A -> A) (f : nat -> A) (m : nat) :
  fold_left (fun up i => vset up i (g i (vat d up i)))
            (map Z.of_nat (seq 0 m)) (map f (seq 0 m))
  = map (fun j => g (Z.of_nat j) (f j)) (seq 0 m).
Proof.
  assert (H : forall p, (p <= m)%nat ->
            fold_left (fun up i => vset up i (g i (vat d up i)))
                      (map Z.of_nat (seq 0 p)) (map f (seq 0 m))
            = map (fun j => if (j <? p)%nat then g (Z.of_nat j) (f j) else f j) (seq 0 m)).
  { induction p as [|p IH]; intros Hp.
    - reflexivity.
    - rewrite seq_S, map_app, fold_left_app, IH by lia. cbn [plus map fold_left].
      rewrite vat_map_seq by lia. rewrite Nat.ltb_irrefl.
      pose (F := fun j => if (j <? p)%nat then g (Z.of_nat j) (f j) else f j).
      pose (G := fun j => if (j <? S p)%nat then g (Z.of_nat j) (f j) else f j).
      transitivity (vset (map F (seq 0 m)) (Z.of_nat p) (G p)).
      + unfold G. destruct (Nat.ltb_spec p (S p)); [reflexivity|lia].
      + apply vset_map_seq; [lia|].
        intros j Hj. unfold F, G.
        destruct (Nat.ltb_spec j p), (Nat.ltb_spec j (S p)); try reflexivity; lia. }
  rewrite H by lia. apply map_ext_in. intros j Hj. apply in_seq in Hj.
  destruct (Nat.ltb_spec j m); [reflexivity|lia].
Qed.

Section TruncateFacts.
Context {NT : NODE_TYPE}.

Lemma pairs_firstn (l : list Node) : forall n,
  pairs (firstn n l) = firstn (n / 2) (pairs l).
Proof.
  induction l as [| a | a b l IH] using list_pair_ind; intros n.
  - now rewrite !firstn_nil.
  - destruct n; cbn [firstn pairs]; rewrite !firstn_nil; reflexivity.
  - destruct n as [|[|n]].
    + reflexivity.
    + reflexivity.
    + cbn [firstn pairs]. rewrite IH.
      replace (S (S n) / 2)%nat with (S (n / 2)).
      * reflexivity.
      * change (S (S n)) with (2 + n)%nat.
        replace (2 + n)%nat with (n + 1 * 2)%nat by lia.
        rewrite Nat.div_add by lia. lia.
Qed.

Lemma level_firstn (h : nat) (leaves : list Node) (k : nat) :
  level h (firstn k leaves) = firstn (k / 2 ^ h) (level h leaves).
Proof.
  induction h as [|h IH]; cbn [level].
  - now rewrite Nat.pow_0_r, Nat.div_1_r.
  - rewrite IH, pairs_firstn. f_equal.
    rewrite Nat.pow_succ_r', Nat.mul_comm. now rewrite Nat.Div0.div_div.
Qed.

Lemma vat_level_firstn (h : nat) (leaves : list Node) (k : nat) (i : Z) :
  0 <= i < vsize (level h (firstn k leaves)) ->
  vat NodeDefault (level h (firstn k leaves)) i = vat NodeDefault (level h leaves) i.
Proof.
  rewrite level_firstn. unfold vat, vsize. rewrite length_firstn. intros Hi.
  rewrite nth_firstn.
  destruct (Nat.ltb_spec (Z.to_nat i) (k / 2 ^ h)); [reflexivity|lia].
Qed.

Lemma vsize_level_le (h : nat) (leaves : list Node) :
  vsize (level h leaves) <= vsize leaves.
Proof.
  rewrite vsize_level. apply shiftr_le; [apply vsize_nonneg|lia].
Qed.

Lemma vat_beyond (l : list Node) (i : Z) :
  vsize l <= i -> vat NodeDefault l i = NodeDefault.
Proof. unfold vat, vsize; intros; apply nth_overflow; lia. Qed.

Lemma level_top_empty (leaves : list Node) (h : nat) :
  Z.log2 (vsize leaves) < Z.of_nat h -> level h leaves = [].
Proof.
  intros Hh. pose proof (vsize_level h leaves) as Hs.
  rewrite shiftr_above_log2 in Hs by (try apply vsize_nonneg; lia).
  unfold vsize in Hs. destruct (level h leaves); [reflexivity|cbn [length] in Hs; lia].
Qed.

(** [GetNode] on a built range reads the level lists; outside them it
    gives the default node, as reading a list outside its bounds does. *)
Lemma GetNode_range_of (leaves : list Node) (h i : Z) :
  vsize leaves < 2 ^ 32 -> 0 <= h -> 0 <= i ->
  CMerkleMountainRange.GetNode (range_of leaves) h i
  = vat NodeDefault (level (Z.to_nat h) leaves) i.
Proof.
  intros Hb Hh Hi. pose proof (vsize_nonneg leaves) as HN.
  unfold CMerkleMountainRange.GetNode. rewrite height_range_of by assumption.
  cbn [range_of CMerkleMountainRange.layer0 CMerkleMountainRange.upperNodes].
  pose proof (Z.log2_nonneg (vsize leaves)) as Hlg.
  destruct (Z.eqb_spec (vsize leaves) 0) as [HN0|HN0].
  { destruct (Z.ltb_spec h 0); [lia|].
    symmetry. apply vat_beyond. rewrite vsize_level, HN0. rewrite Z.shiftr_0_l. lia. }
  destruct (Z.ltb_spec h (Z.log2 (vsize leaves) + 1)) as [Hlt|Hge].
  2:{ symmetry. rewrite level_top_empty by lia. apply vat_beyond.
      unfold vsize; cbn [length]; lia. }
  destruct (Z.eqb_spec h 0) as [->|Hh0]; cbn [negb].
  - rewrite (chunked_size _ leaves) by (apply chunked_layer_of; lia).
    cbn [Z.to_nat level].
    destruct (Z.ltb_spec i (vsize leaves)).
    + apply chunked_slot; [apply chunked_layer_of; lia|lia].
    + symmetry. now apply vat_beyond.
  - replace (h - 1) with (Z.of_nat (Z.to_nat h - 1)) by lia.
    rewrite vat_map_seq by lia.
    replace (S (Z.to_nat h - 1)) with (Z.to_nat h) by lia.
    pose proof (vsize_level_le (Z.to_nat h) leaves) as Hsm.
    rewrite (chunked_size _ (level (Z.to_nat h) leaves))
      by (apply chunked_layer_of; lia).
    destruct (Z.ltb_spec i (vsize (level (Z.to_nat h) leaves))).
    + apply chunked_slot; [apply chunked_layer_of; lia|lia].
    + symmetry. now apply vat_beyond.
Qed.
End TruncateFacts.

Lemma firstn_map_seq {A} (f : nat -> A) (n m : nat) :
  (n <= m)%nat -> firstn n (map f (seq 0 m)) = map f (seq 0 n).
Proof.
  intros. replace m with (n + (m - n))%nat by lia.
  rewrite seq_app, map_app, firstn_app, length_map, length_seq, Nat.sub_diag.
  cbn [firstn]. rewrite app_nil_r.
  apply firstn_all2. rewrite length_map, length_seq. lia.
Qed.

Section TruncateTheorem.
Context {NT : NODE_TYPE}.

Lemma Truncate_noop (m : CMerkleMountainRange.t) (n : Z) :
  CMerkleMountainRange.size m <= n -> CMerkleMountainRange.Truncate m n = m.
Proof.
  intros H. unfold CMerkleMountainRange.Truncate.
  destruct (Z.ltb_spec n (CMerkleMountainRange.size m)); [lia|reflexivity].
Qed.

Lemma vsize_firstn (leaves : list Node) (k : Z) :
  0 <= k <= vsize leaves -> vsize (firstn (Z.to_nat k) leaves) = k.
Proof. unfold vsize. intros. rewrite length_firstn. lia. Qed.

(** The range left by a truncation of a built range to [k] leaves. *)
Lemma Truncate_range_of (leaves : list Node) (k : Z) :
  vsize leaves < 2 ^ 32 -> 0 <= k < vsize leaves ->
  CMerkleMountainRange.Truncate (range_of leaves) k =
  CMerkleMountainRange.mk
    (map (fun j => CChunkedLayer.resize (layer_of (level (S j) leaves))
                     (Z.shiftr k (Z.of_nat (S j))))
         (seq 0 (Z.to_nat (Z.log2 k))))
    (CChunkedLayer.resize (layer_of leaves) k).
Proof.
  intros Hb Hk. unfold CMerkleMountainRange.Truncate.
  rewrite size_range_of by lia.
  destruct (Z.ltb_spec k (vsize leaves)) as [_|]; [|lia].
  destruct (Z.ltb_spec (vsize leaves) k) as [|_]; [lia|].
  rewrite sizes_spec by lia.
  cbn [range_of CMerkleMountainRange.upperNodes CMerkleMountainRange.layer0].
  pose proof (Z.log2_nonneg k) as Hlk.
  assert (Hmono : Z.log2 k <= Z.log2 (vsize leaves)) by (apply Z.log2_le_mono; lia).
  rewrite vsize_map_seq.
  replace (Z.of_nat (S (Z.to_nat (Z.log2 k))) - 1) with (Z.log2 k) by lia.
  rewrite vresize_shrink by (rewrite vsize_map_seq; lia).
  rewrite firstn_map_seq by lia.
  rewrite vsize_map_seq, zrange_from_zero.
  f_equal.
  rewrite (fold_vset_map_seq CChunkedLayer.empty
             (fun i l => CChunkedLayer.resize l
                (vat 0 (map (fun h => Z.shiftr k (Z.of_nat h))
                            (seq 0 (S (Z.to_nat (Z.log2 k))))) (i + 1)))).
  apply map_ext_in. intros j Hj. apply in_seq in Hj. f_equal.
  replace (Z.of_nat j + 1) with (Z.of_nat (S j)) by lia.
  now rewrite vat_map_seq by lia.
Qed.

Lemma GetNode_Truncate (leaves : list Node) (k : Z) :
  vsize leaves < 2 ^ 32 -> 0 <= k < vsize leaves ->
  let m' := CMerkleMountainRange.Truncate (range_of leaves) k in
  CMerkleMountainRange.size m' = k /\
  CMerkleMountainRange.height m' = (if k =? 0 then 0 else Z.log2 k + 1) /\
  forall h i, 0 <= h -> 0 <= i ->
    CMerkleMountainRange.GetNode m' h i
    = vat NodeDefault (level (Z.to_nat h) (firstn (Z.to_nat k) leaves)) i.
Proof.
  intros Hb Hk. cbv zeta. rewrite Truncate_range_of by assumption.
  pose proof (Z.log2_nonneg k) as Hlk.
  assert (Hkf : vsize (firstn (Z.to_nat k) leaves) = k) by (apply vsize_firstn; lia).
  assert (Hsize0 : CChunkedLayer.size (CChunkedLayer.resize (layer_of leaves) k) = k).
  { destruct (Z.eq_dec k 0) as [->|Hk0]; [reflexivity|].
    apply (resize_shrink _ leaves); [apply chunked_layer_of|..]; lia. }
  assert (Hheight : CMerkleMountainRange.height
            (CMerkleMountainRange.mk
               (map (fun j => CChunkedLayer.resize (layer_of (level (S j) leaves))
                                (Z.shiftr k (Z.of_nat (S j))))
                    (seq 0 (Z.to_nat (Z.log2 k))))
               (CChunkedLayer.resize (layer_of leaves) k))
          = if k =? 0 then 0 else Z.log2 k + 1).
  { unfold CMerkleMountainRange.height.
    cbn [CMerkleMountainRange.layer0 CMerkleMountainRange.upperNodes].
    rewrite Hsize0. destruct (Z.eqb_spec k 0); [reflexivity|].
    rewrite vsize_map_seq.
    assert (Z.log2 k < 32) by (apply Z.log2_lt_pow2; lia).
    rewrite uint32_small; lia. }
  split; [exact Hsize0|]. split; [exact Hheight|].
  intros h i Hh Hi. unfold CMerkleMountainRange.GetNode. rewrite Hheight.
  cbn [CMerkleMountainRange.layer0 CMerkleMountainRange.upperNodes].
  destruct (Z.eqb_spec k 0) as [Hk0|Hk0].
  { destruct (Z.ltb_spec h 0); [lia|]. symmetry. apply vat_beyond.
    pose proof (vsize_level_le (Z.to_nat h) (firstn (Z.to_nat k) leaves)). lia. }
  destruct (Z.ltb_spec h (Z.log2 k + 1)) as [Hlt|Hge].
  2:{ symmetry. rewrite level_top_empty by (rewrite Hkf; lia).
      apply vat_beyond. unfold vsize; cbn [length]; lia. }
  assert (Hlv : vsize (level (Z.to_nat h) (firstn (Z.to_nat k) leaves))
                = Z.shiftr k h).
  { rewrite vsize_level, Hkf. f_equal. lia. }
  destruct (Z.eqb_spec h 0) as [->|Hh0]; cbn [negb].
  - rewrite Hsize0. rewrite Z.shiftr_0_r in Hlv.
    destruct (Z.ltb_spec i k).
    + rewrite vat_level_firstn by lia. cbn [Z.to_nat level].
      destruct (resize_shrink (layer_of leaves) leaves k) as [_ Hslot];
        [apply chunked_layer_of; lia|lia|lia|].
      rewrite Hslot by lia.
      apply chunked_slot; [apply chunked_layer_of; lia|lia].
    + symmetry. apply vat_beyond. lia.
  - replace (h - 1) with (Z.of_nat (Z.to_nat h - 1)) by lia.
    rewrite vat_map_seq by lia.
    replace (S (Z.to_nat h - 1)) with (Z.to_nat h) by lia.
    rewrite Z2Nat.id by lia.
    pose proof (vsize_level_le (Z.to_nat h) leaves) as Hle.
    assert (Hkh : 0 < Z.shiftr k h <= vsize (level (Z.to_nat h) leaves)).
    { split.
      - assert (1 <= Z.shiftr k h); [|lia]. apply shiftr_log2_ge; lia.
      - rewrite vsize_level, Z2Nat.id, !shiftr_div by lia.
        apply Z.div_le_mono; [apply Z.pow_pos_nonneg|]; lia. }
    destruct (resize_shrink (layer_of (level (Z.to_nat h) leaves))
                (level (Z.to_nat h) leaves) (Z.shiftr k h)) as [Hsz Hslot];
      [apply chunked_layer_of; lia|lia|lia|].
    rewrite Hsz.
    destruct (Z.ltb_spec i (Z.shiftr k h)).
    + rewrite Hslot by lia. rewrite vat_level_firstn by lia.
      apply chunked_slot; [apply chunked_layer_of; lia|lia].
    + symmetry. apply vat_beyond. lia.
Qed.

(** C7: truncating a built range twice to [k] leaves gives the size, the
    height and the node at every height and index of the range built from
    the first [k] leaves alone, and a truncation to the current size or
    more changes nothing. *)
Theorem truncate_twice (leaves : list Node) (k : Z) :
  tree_ok leaves = true ->
  vsize leaves < 2 ^ 32 ->
  0 <= k <= vsize leaves ->
  exists m f,
    CMerkleMountainRange.build leaves = Ok m /\
    CMerkleMountainRange.build (firstn (Z.to_nat k) leaves) = Ok f /\
    let m' := CMerkleMountainRange.Truncate (CMerkleMountainRange.Truncate m k) k in
    CMerkleMountainRange.size m' = CMerkleMountainRange.size f /\
    CMerkleMountainRange.height m' = CMerkleMountainRange.height f /\
    (forall h i, 0 <= h -> 0 <= i ->
       CMerkleMountainRange.GetNode m' h i = CMerkleMountainRange.GetNode f h i) /\
    (forall n, CMerkleMountainRange.size m <= n ->
       CMerkleMountainRange.Truncate m n = m).
Proof.
  intros Hok Hb Hk. apply tree_ok_levels in Hok.
  assert (Hkf : vsize (firstn (Z.to_nat k) leaves) = k) by (apply vsize_firstn; lia).
  exists (range_of leaves), (range_of (firstn (Z.to_nat k) leaves)).
  split; [apply build_range_of; assumption|].
  split.
  { apply build_range_of; [|lia].
    apply (levels_ok_app _ (skipn (Z.to_nat k) leaves)).
    now rewrite firstn_skipn. }
  cbv zeta.
  destruct (Z.eq_dec k (vsize leaves)) as [Heq|Hne].
  - rewrite !(Truncate_noop (range_of leaves) k) by (rewrite size_range_of; lia).
    replace (firstn (Z.to_nat k) leaves) with leaves
      by (symmetry; apply firstn_all2; unfold vsize in *; lia).
    repeat split; auto. intros; now apply Truncate_noop.
  - destruct (GetNode_Truncate leaves k Hb ltac:(lia)) as (Hs & Hh & Hg).
    rewrite (Truncate_noop (CMerkleMountainRange.Truncate (range_of leaves) k))
      by lia.
    rewrite Hs, Hh, size_range_of, height_range_of, Hkf by lia.
    repeat split; auto.
    + intros h i Hh0 Hi0. rewrite Hg, GetNode_range_of by lia. reflexivity.
    + intros; now apply Truncate_noop.
Qed.
End TruncateTheorem.

Lemma truncate_twice_witness :
  @tree_ok plain_nodes (plain_leaves [1; 2; 3; 4; 5; 6; 7]) = true /\
  vsize (plain_leaves [1; 2; 3; 4; 5; 6; 7]) < 2 ^ 32 /\
  0 <= 5 <= vsize (plain_leaves [1; 2; 3; 4; 5; 6; 7]) /\
  exists m f,
    CMerkleMountainRange.build (plain_leaves [1; 2; 3; 4; 5; 6; 7]) = Ok m /\
    CMerkleMountainRange.build (firstn (Z.to_nat 5) (plain_leaves [1; 2; 3; 4; 5; 6; 7]))
      = Ok f /\
    let m' := CMerkleMountainRange.Truncate (CMerkleMountainRange.Truncate m 5) 5 in
    CMerkleMountainRange.size m' = CMerkleMountainRange.size f /\
    CMerkleMountainRange.height m' = CMerkleMountainRange.height f /\
    (forall h i, 0 <= h -> 0 <= i ->
       CMerkleMountainRange.GetNode m' h i = CMerkleMountainRange.GetNode f h i) /\
    (forall n, CMerkleMountainRange.size m <= n ->
       CMerkleMountainRange.Truncate m n = m).
Proof.
  split; [vm_compute; reflexivity|].
  split; [vm_compute; reflexivity|].
  split; [vm_compute; split; discriminate|].
  apply (@truncate_twice plain_nodes (plain_leaves [1; 2; 3; 4; 5; 6; 7]) 5).
  - vm_compute; reflexivity.
  - vm_compute; reflexivity.
  - vm_compute; split; discriminate.
Defined.

(** ** Views *)

Lemma fold_left_cons_if {A B} (t : A -> bool) (g : A -> B) (l : list A) : forall acc,
  fold_left (fun pk x => if t x then g x :: pk else pk) l acc
  = rev (map g (filter t l)) ++ acc.
Proof.
  induction l as [|x l IH]; intros acc; cbn [fold_left filter]; [reflexivity|].
  rewrite IH. destruct (t x); [|reflexivity].
  cbn [map rev]. now rewrite <- app_assoc.
Qed.

Lemma in_zrange (lo hi x : Z) : In x (zrange lo hi) <-> lo <= x <= hi.
Proof.
  unfold zrange. rewrite in_map_iff. split.
  - intros (k & <- & Hk). apply in_seq in Hk. lia.
  - intros H. exists (Z.to_nat (x - lo)). split; [lia|]. apply in_seq. lia.
Qed.

Lemma zrange_snoc (lo hi : Z) : lo <= hi + 1 -> zrange lo (hi + 1) = zrange lo hi ++ [hi + 1].
Proof.
  intros. unfold zrange.
  replace (Z.to_nat (hi + 1 + 1 - lo)) with (S (Z.to_nat (hi + 1 - lo))) by lia.
  rewrite seq_S, map_app. cbn [map plus]. f_equal. f_equal. lia.
Qed.

Lemma zrange_cons (lo hi : Z) : lo <= hi -> zrange lo hi = lo :: map (fun x => x + 1) (zrange lo (hi - 1)).
Proof.
  intros. unfold zrange.
  replace (Z.to_nat (hi + 1 - lo)) with (S (Z.to_nat (hi - 1 + 1 - lo))) by lia.
  cbn [seq map]. f_equal; [lia|].
  rewrite <- seq_shift, !map_map. apply map_ext. intros; lia.
Qed.

Lemma rev_filter_zrange_desc (p : Z -> bool) (lo : Z) (n : nat) :
  StronglySorted Z.gt (rev (filter p (zrange lo (lo + Z.of_nat n - 1)))).
Proof.
  induction n as [|n IH].
  - rewrite zrange_empty by lia. constructor.
  - replace (lo + Z.of_nat (S n) - 1) with ((lo + Z.of_nat n - 1) + 1) by lia.
    rewrite zrange_snoc by lia. rewrite filter_app, rev_app_distr.
    cbn [filter]. destruct (p _); cbn [rev app]; [|exact IH].
    constructor; [exact IH|].
    apply Forall_forall. intros y Hy. apply in_rev, filter_In in Hy.
    destruct Hy as [Hy _]. apply in_zrange in Hy. lia.
Qed.

Lemma length_halving (fuel : nat) : forall v, (length (halving fuel v) <= fuel)%nat.
Proof.
  induction fuel as [|fuel IH]; intros v; cbn [halving]; [cbn; lia|].
  destruct (v =? 0); cbn [length]; [lia|]. specialize (IH (Z.shiftr v 1)). lia.
Qed.

Lemma popcount_filter (p : positive) :
  vsize (filter (Z.testbit (Zpos p)) (zrange 0 (Z.log2 (Zpos p)))) = popcount_pos p.
Proof.
  assert (Hstep : forall (q : positive) (b : bool) (n : Z),
            n = 2 * Zpos q + Z.b2z b ->
            vsize (filter (Z.testbit n) (zrange 0 (Z.log2 n)))
            = Z.b2z b + vsize (filter (Z.testbit (Zpos q)) (zrange 0 (Z.log2 (Zpos q))))).
  { intros q b n ->.
    assert (Hl : Z.log2 (2 * Zpos q + Z.b2z b) = Z.log2 (Zpos q) + 1).
    { destruct b; cbn [Z.b2z].
      - rewrite Z.log2_succ_double by lia. lia.
      - rewrite Z.add_0_r, Z.log2_double by lia. lia. }
    rewrite Hl. pose proof (Z.log2_nonneg (Zpos q)).
    rewrite zrange_cons by lia. cbn [filter].
    replace (Z.log2 (Zpos q) + 1 - 1) with (Z.log2 (Zpos q)) by lia.
    rewrite Z.testbit_0_r.
    assert (Hf : forall l, Forall (fun x => 0 <= x) l ->
              filter (Z.testbit (2 * Zpos q + Z.b2z b)) (map (fun x => x + 1) l)
              = map (fun x => x + 1) (filter (Z.testbit (Zpos q)) l)).
    { induction 1 as [|x l Hx _ IHl]; cbn [map filter]; [reflexivity|].
      replace (x + 1) with (Z.succ x) by lia. rewrite Z.testbit_succ_r by lia.
      rewrite IHl. destruct (Z.testbit (Zpos q) x); reflexivity. }
    rewrite Hf by (apply Forall_forall; intros x Hx; apply in_zrange in Hx; lia).
    destruct b; cbn [Z.b2z]; unfold vsize; cbn [length]; rewrite length_map; lia. }
  induction p as [q IH|q IH|].
  - rewrite (Hstep q true) by (cbn [Z.b2z]; lia). rewrite IH. reflexivity.
  - rewrite (Hstep q false) by (cbn [Z.b2z]; lia). rewrite IH. reflexivity.
  - reflexivity.
Qed.

Section ViewFacts.
Context {NT : NODE_TYPE}.

Lemma view_size_new (m : CMerkleMountainRange.t) (viewSize : Z) :
  CMerkleMountainView.size (CMerkleMountainView.new m viewSize)
  = if (CMerkleMountainRange.size m <? viewSize) || (viewSize =? 0)
    then CMerkleMountainRange.size m else viewSize.
Proof.
  unfold CMerkleMountainView.size, CMerkleMountainView.new.
  cbn [CMerkleMountainView.sizes]. rewrite vsize_cons.
  pose proof (vsize_nonneg (halving 64 (Z.shiftr
    (if (CMerkleMountainRange.size m <? viewSize) || (viewSize =? 0)
     then CMerkleMountainRange.size m else viewSize) 1))).
  destruct (Z.eqb_spec (vsize (halving 64 (Z.shiftr
    (if (CMerkleMountainRange.size m <? viewSize) || (viewSize =? 0)
     then CMerkleMountainRange.size m else viewSize) 1)) + 1) 0); [lia|].
  reflexivity.
Qed.

Lemma view_size_pos (m : CMerkleMountainRange.t) (viewSize : Z) :
  0 <= viewSize -> 0 < CMerkleMountainRange.size m ->
  0 < CMerkleMountainView.size (CMerkleMountainView.new m viewSize).
Proof.
  intros Hv Hm. rewrite view_size_new.
  destruct (Z.ltb_spec (CMerkleMountainRange.size m) viewSize); cbn [orb]; [lia|].
  destruct (Z.eqb_spec viewSize 0); lia.
Qed.

(** C10: a view size of 0 gives the view the full size of the range, as a
    view size above the range does, so a view over a non-empty range is
    never empty. *)
Theorem view_size_zero_is_full (m : CMerkleMountainRange.t) (viewSize : Z) :
  0 <= viewSize ->
  0 < CMerkleMountainRange.size m ->
  CMerkleMountainView.size (CMerkleMountainView.new m 0)
    = CMerkleMountainRange.size m /\
  CMerkleMountainView.size
    (CMerkleMountainView.new m (CMerkleMountainRange.size m + 1 + viewSize))
    = CMerkleMountainRange.size m /\
  0 < CMerkleMountainView.size (CMerkleMountainView.new m viewSize).
Proof.
  intros Hv Hm. rewrite !view_size_new. repeat split.
  - now rewrite orb_true_r.
  - destruct (Z.ltb_spec (CMerkleMountainRange.size m)
                (CMerkleMountainRange.size m + 1 + viewSize)); [reflexivity|lia].
  - destruct (Z.ltb_spec (CMerkleMountainRange.size m) viewSize); cbn [orb]; [lia|].
    destruct (Z.eqb_spec viewSize 0); lia.
Qed.

(** The sizes of a view are its size and the halves of it down to 1. *)
Lemma sizes_new (m : CMerkleMountainRange.t) (viewSize : Z) :
  0 <= viewSize -> 0 <= CMerkleMountainRange.size m < 2 ^ 64 ->
  let n := CMerkleMountainView.size (CMerkleMountainView.new m viewSize) in
  0 <= n <= CMerkleMountainRange.size m /\
  CMerkleMountainView.sizes (CMerkleMountainView.new m viewSize)
  = map (fun h => Z.shiftr n (Z.of_nat h)) (seq 0 (S (Z.to_nat (Z.log2 n)))).
Proof.
  intros Hv Hm. cbv zeta. rewrite view_size_new.
  unfold CMerkleMountainView.new. cbn [CMerkleMountainView.sizes].
  set (n := if (CMerkleMountainRange.size m <? viewSize) || (viewSize =? 0)
            then CMerkleMountainRange.size m else viewSize).
  assert (Hn : 0 <= n <= CMerkleMountainRange.size m).
  { unfold n. destruct (Z.ltb_spec (CMerkleMountainRange.size m) viewSize); cbn [orb]; [lia|].
    destruct (Z.eqb_spec viewSize 0); lia. }
  split; [exact Hn|]. apply sizes_spec. lia.
Qed.

Lemma vat_sizes (n : Z) (h : Z) :
  0 <= h <= Z.log2 n ->
  vat 0 (map (fun h => Z.shiftr n (Z.of_nat h)) (seq 0 (S (Z.to_nat (Z.log2 n))))) h
  = Z.shiftr n h.
Proof.
  intros Hh. replace h with (Z.of_nat (Z.to_nat h)) at 1 by lia.
  rewrite vat_map_seq by lia. f_equal. lia.
Qed.

Lemma shiftr_succ (n h : Z) : 0 <= h -> Z.shiftr n (h + 1) = Z.shiftr n h / 2.
Proof.
  intros. rewrite <- Z.shiftr_shiftr by lia. now rewrite (shiftr_div _ 1) by lia.
Qed.

Lemma half_up_lt (s : Z) : (s / 2 <? (s + 1) / 2) = Z.odd s.
Proof.
  pose proof (Z.div_mod s 2 ltac:(lia)) as Hd.
  pose proof (Zmod_odd s) as Ho.
  destruct (Z.odd s).
  - replace (s + 1) with ((s / 2 + 1) * 2) by lia.
    rewrite Z.div_mul by lia. apply Z.ltb_lt. lia.
  - replace (s + 1) with (1 + (s / 2) * 2) by lia.
    rewrite Z.div_add by lia. change (1 / 2) with 0. apply Z.ltb_ge. lia.
Qed.

(** On a halving sequence both peak tests are the test of a bit of the size. *)
Lemma peak_tests (n ht : Z) :
  0 < n < 2 ^ 64 - 1 -> 0 <= ht <= Z.log2 n ->
  let szs := map (fun h => Z.shiftr n (Z.of_nat h)) (seq 0 (S (Z.to_nat (Z.log2 n)))) in
  CMerkleMountainView.peak_test szs ht = Z.testbit n ht /\
  spec_is_peak szs ht = Z.testbit n ht.
Proof.
  intros Hn Hht. cbv zeta.
  unfold CMerkleMountainView.peak_test, spec_is_peak.
  rewrite vsize_map_seq.
  pose proof (Z.log2_nonneg n) as Hl.
  replace (Z.of_nat (S (Z.to_nat (Z.log2 n))) - 1) with (Z.log2 n) by lia.
  destruct (Z.eqb_spec ht (Z.log2 n)) as [->|Hne]; cbn [orb].
  - rewrite Z.bit_log2 by lia. split; reflexivity.
  - rewrite !vat_sizes by lia.
    assert (Hs : 0 <= Z.shiftr n ht <= n)
      by (split; [apply shiftr_nonneg|apply shiftr_le]; lia).
    rewrite uint64_small by lia. rewrite (shiftr_div _ 1) by lia.
    change (2 ^ 1) with 2. rewrite shiftr_succ by lia.
    rewrite half_up_lt, Z.testbit_odd. split; reflexivity.
Qed.

(** The peaks computed by [CalcPeaks] on a view fresh from its constructor. *)
Lemma CalcPeaks_new (m : CMerkleMountainRange.t) (viewSize : Z) (force : bool) :
  0 <= viewSize -> 0 < CMerkleMountainRange.size m < 2 ^ 64 - 1 ->
  let v := CMerkleMountainView.new m viewSize in
  let n := CMerkleMountainView.size v in
  CMerkleMountainView.peaks (CMerkleMountainView.CalcPeaks v force)
  = map (fun ht => CMerkleMountainRange.GetNode m ht (Z.shiftr n ht - 1))
        (rev (filter (Z.testbit n) (zrange 0 (Z.log2 n)))) /\
  spec_peak_heights (CMerkleMountainView.sizes v)
  = rev (filter (Z.testbit n) (zrange 0 (Z.log2 n))) /\
  CMerkleMountainView.sizes (CMerkleMountainView.CalcPeaks v force)
  = CMerkleMountainView.sizes v /\
  CMerkleMountainView.mmr (CMerkleMountainView.CalcPeaks v force) = m /\
  CMerkleMountainView.peakMerkle (CMerkleMountainView.CalcPeaks v force) = [].
Proof.
  intros Hv Hm. cbv zeta.
  pose proof (view_size_pos m viewSize Hv ltac:(lia)) as Hpos.
  destruct (sizes_new m viewSize Hv ltac:(lia)) as [Hn Hsz].
  set (v := CMerkleMountainView.new m viewSize) in *.
  set (n := CMerkleMountainView.size v) in *.
  pose proof (Z.log2_nonneg n) as Hl.
  assert (Hcond : force || ((vsize (CMerkleMountainView.peaks v) =? 0)
                            && negb (n =? 0)) = true).
  { destruct (Z.eqb_spec n 0); [lia|]. cbn. apply orb_true_r. }
  unfold CMerkleMountainView.CalcPeaks. fold n. rewrite Hcond.
  cbn [CMerkleMountainView.peaks CMerkleMountainView.sizes
       CMerkleMountainView.mmr CMerkleMountainView.peakMerkle].
  assert (Hrange : zrange 0 (vsize (CMerkleMountainView.sizes v) - 1)
                   = zrange 0 (Z.log2 n)).
  { rewrite Hsz, vsize_map_seq. f_equal. lia. }
  assert (Hfilter : forall t,
            (forall ht, 0 <= ht <= Z.log2 n -> t ht = Z.testbit n ht) ->
            filter t (zrange 0 (Z.log2 n)) = filter (Z.testbit n) (zrange 0 (Z.log2 n))).
  { intros t Ht. apply filter_ext_in. intros ht Hin. apply in_zrange in Hin. auto. }
  repeat split; try reflexivity.
  - rewrite fold_left_cons_if, app_nil_r, Hrange, <- map_rev.
    rewrite (Hfilter (CMerkleMountainView.peak_test (CMerkleMountainView.sizes v))).
    2:{ intros ht Hht. rewrite Hsz. apply peak_tests; lia. }
    apply map_ext_in. intros ht Hin. apply in_rev, filter_In in Hin.
    destruct Hin as [Hin _]. apply in_zrange in Hin.
    rewrite Hsz, vat_sizes by lia.
    assert (1 <= Z.shiftr n ht) by (apply shiftr_log2_ge; lia).
    assert (Z.shiftr n ht <= n) by (apply shiftr_le; lia).
    rewrite uint64_small by lia. reflexivity.
  - unfold spec_peak_heights. rewrite Hrange. f_equal.
    apply Hfilter. intros ht Hht. rewrite Hsz. apply peak_tests; lia.
Qed.
End ViewFacts.

Section PeaksTheorems.
Context {NT : NODE_TYPE}.

(** C3: on a non-empty view, [CalcPeaks] takes as peaks the heights that
    are the last one or whose size above is below half the size there,
    rounded up; each peak is the node [GetNode(ht, sizes[ht] - 1)], and the
    list runs from the highest peak height down to the lowest. *)
Theorem CalcPeaks_spec (m : CMerkleMountainRange.t) (viewSize : Z) (force : bool) :
  0 <= viewSize ->
  0 < CMerkleMountainRange.size m < 2 ^ 64 - 1 ->
  let v := CMerkleMountainView.new m viewSize in
  CMerkleMountainView.peaks (CMerkleMountainView.CalcPeaks v force)
  = map (fun ht => CMerkleMountainRange.GetNode (CMerkleMountainView.mmr v) ht
                     (vat 0 (CMerkleMountainView.sizes v) ht - 1))
        (spec_peak_heights (CMerkleMountainView.sizes v)) /\
  StronglySorted Z.gt (spec_peak_heights (CMerkleMountainView.sizes v)).
Proof.
  intros Hv Hm. cbv zeta.
  destruct (CalcPeaks_new m viewSize force Hv Hm) as (Hp & Hh & _).
  destruct (sizes_new m viewSize Hv ltac:(lia)) as [Hn Hsz].
  rewrite Hp, Hh. split.
  - apply map_ext_in. intros ht Hin. apply in_rev, filter_In in Hin.
    destruct Hin as [Hin _]. apply in_zrange in Hin.
    rewrite Hsz, vat_sizes by lia. reflexivity.
  - pose proof (Z.log2_nonneg
      (CMerkleMountainView.size (CMerkleMountainView.new m viewSize))) as Hl.
    pose proof (rev_filter_zrange_desc
      (Z.testbit (CMerkleMountainView.size (CMerkleMountainView.new m viewSize))) 0
      (S (Z.to_nat (Z.log2 (CMerkleMountainView.size
                              (CMerkleMountainView.new m viewSize)))))) as H.
    replace (0 + Z.of_nat (S (Z.to_nat (Z.log2 (CMerkleMountainView.size
               (CMerkleMountainView.new m viewSize))))) - 1)
      with (Z.log2 (CMerkleMountainView.size (CMerkleMountainView.new m viewSize)))
      in H by lia.
    exact H.
Qed.

(** C4: the number of peaks of a non-empty view is the number of set bits
    of its size. *)
Theorem peak_count (m : CMerkleMountainRange.t) (viewSize : Z) (force : bool) :
  0 <= viewSize ->
  0 < CMerkleMountainRange.size m < 2 ^ 64 - 1 ->
  let v := CMerkleMountainView.new m viewSize in
  vsize (CMerkleMountainView.peaks (CMerkleMountainView.CalcPeaks v force))
  = popcount (CMerkleMountainView.size v).
Proof.
  intros Hv Hm. cbv zeta.
  destruct (CalcPeaks_new m viewSize force Hv Hm) as (Hp & _).
  pose proof (view_size_pos m viewSize Hv ltac:(lia)) as Hpos.
  rewrite Hp. unfold vsize at 1. rewrite length_map, length_rev.
  destruct (CMerkleMountainView.size (CMerkleMountainView.new m viewSize))
    as [|p|p] eqn:E; try lia.
  apply popcount_filter.
Qed.
End PeaksTheorems.

Lemma CalcPeaks_spec_witness :
  0 <= 5 /\
  0 < CMerkleMountainRange.size five_leaves < 2 ^ 64 - 1 /\
  let v := CMerkleMountainView.new five_leaves 5 in
  CMerkleMountainView.peaks (CMerkleMountainView.CalcPeaks v false)
  = map (fun ht => CMerkleMountainRange.GetNode (CMerkleMountainView.mmr v) ht
                     (vat 0 (CMerkleMountainView.sizes v) ht - 1))
        (spec_peak_heights (CMerkleMountainView.sizes v)) /\
  StronglySorted Z.gt (spec_peak_heights (CMerkleMountainView.sizes v)).
Proof.
  split; [lia|]. split; [vm_compute; split; reflexivity|].
  apply (@CalcPeaks_spec plain_nodes five_leaves 5 false).
  - lia.
  - vm_compute; split; reflexivity.
Defined.

Lemma peak_count_witness :
  0 <= 5 /\
  0 < CMerkleMountainRange.size five_leaves < 2 ^ 64 - 1 /\
  vsize (CMerkleMountainView.peaks
           (CMerkleMountainView.CalcPeaks (CMerkleMountainView.new five_leaves 5) false))
  = popcount (CMerkleMountainView.size (CMerkleMountainView.new five_leaves 5)).
Proof.
  split; [lia|]. split; [vm_compute; split; reflexivity|].
  apply (@peak_count plain_nodes five_leaves 5 false).
  - lia.
  - vm_compute; split; reflexivity.
Defined.

Lemma view_size_zero_is_full_witness :
  0 <= 3 /\
  0 < CMerkleMountainRange.size five_leaves /\
  CMerkleMountainView.size (CMerkleMountainView.new five_leaves 0)
    = CMerkleMountainRange.size five_leaves /\
  CMerkleMountainView.size
    (CMerkleMountainView.new five_leaves (CMerkleMountainRange.size five_leaves + 1 + 3))
    = CMerkleMountainRange.size five_leaves /\
  0 < CMerkleMountainView.size (CMerkleMountainView.new five_leaves 3).
Proof.
  split; [lia|]. split; [vm_compute; reflexivity|].
  apply (@view_size_zero_is_full plain_nodes five_leaves 3).
  - lia.
  - vm_compute; reflexivity.
Defined.

(** ** The root of a view *)

Lemma vat_zero_hd {A} (d : A) (l : list A) : vat d l 0 = hd d l.
Proof. destruct l; reflexivity. Qed.

Section RootFacts.
Context {NT : NODE_TYPE}.

Lemma fold_merkle_step_throw (src : list Node) (e : fault) (l : list Z) :
  fold_left (merkle_step src) l (Throw e) = Throw e.
Proof. induction l; cbn; auto. Qed.

Lemma fold_merkle_step_shift (a b : Node) (r : list Node) (l : list Z) :
  Forall (fun i => 0 <= i) l -> forall acc,
  fold_left (merkle_step (a :: b :: r)) (map (fun x => x + 1) l) acc
  = fold_left (merkle_step r) l acc.
Proof.
  induction 1 as [|i l Hi _ IH]; intros acc; cbn [map fold_left]; [reflexivity|].
  rewrite IH. f_equal. unfold merkle_step.
  rewrite !Z.shiftl_mul_pow2 by lia. change (2 ^ 1) with 2.
  rewrite !vat_tail2 by lia.
  replace ((i + 1) * 2 - 2) with (i * 2) by lia.
  replace ((i + 1) * 2 + 1 - 2) with (i * 2 + 1) by lia.
  reflexivity.
Qed.

Lemma merkle_layer_acc (src : list Node) : forall acc,
  (combined <- fold_left (merkle_step src)
                 (zrange 0 (Z.shiftr (vsize src) 1 - 1)) (Ok acc) ;;
   Ok (if negb (Z.land (vsize src) 1 =? 0)
       then combined ++ [last src NodeDefault] else combined))
  = (above <- layer_up src ;; Ok (acc ++ above)).
Proof.
  induction src as [| a | a b r IH] using list_pair_ind; intros acc.
  - cbn. now rewrite app_nil_r.
  - reflexivity.
  - assert (Hsz : vsize (a :: b :: r) = vsize r + 1 * 2)
      by (rewrite !vsize_cons; lia).
    pose proof (vsize_nonneg r) as Hr.
    assert (Hhalf : Z.shiftr (vsize (a :: b :: r)) 1 = Z.shiftr (vsize r) 1 + 1).
    { rewrite Hsz, !(shiftr_div _ 1) by lia. change (2 ^ 1) with 2.
      now rewrite Z.div_add by lia. }
    assert (Hq : 0 <= Z.shiftr (vsize r) 1) by (apply shiftr_nonneg; lia).
    assert (Hodd : negb (Z.land (vsize (a :: b :: r)) 1 =? 0)
                   = negb (Z.land (vsize r) 1 =? 0)).
    { rewrite !odd_test, Hsz. replace (1 * 2) with (2 * 1) by lia.
      now rewrite Z.odd_add_mul_2. }
    rewrite Hhalf, Hodd.
    rewrite zrange_cons by lia. cbn [fold_left layer_up].
    replace (Z.shiftr (vsize r) 1 + 1 - 1 - 1) with (Z.shiftr (vsize r) 1 - 1) by lia.
    rewrite fold_merkle_step_shift
      by (apply Forall_forall; intros x Hx; apply in_zrange in Hx; lia).
    unfold merkle_step at 2. cbn [bind].
    change (vat NodeDefault (a :: b :: r) (Z.shiftl 0 1)) with a.
    change (vat NodeDefault (a :: b :: r) (Z.shiftl 0 1 + 1)) with b.
    destruct (CreateParentNode a b) as [p|e]; cbn [bind].
    2:{ now rewrite fold_merkle_step_throw. }
    specialize (IH (acc ++ [p])).
    assert (Hlast : negb (Z.land (vsize r) 1 =? 0) = true ->
                    last (a :: b :: r) NodeDefault = last r NodeDefault).
    { destruct r; [discriminate|reflexivity]. }
    destruct (negb (Z.land (vsize r) 1 =? 0)) eqn:Ho.
    + rewrite Hlast by reflexivity. rewrite IH.
      destruct (layer_up r); cbn [bind]; [|reflexivity].
      now rewrite <- app_assoc.
    + rewrite IH.
      destruct (layer_up r); cbn [bind]; [|reflexivity].
      now rewrite <- app_assoc.
Qed.

Lemma merkle_layer_spec (src : list Node) :
  CMerkleMountainView.merkle_layer src (vsize src) = layer_up src.
Proof.
  unfold CMerkleMountainView.merkle_layer. cbv zeta.
  pose proof (merkle_layer_acc src []) as H. unfold merkle_step in H.
  rewrite H. destruct (layer_up src); reflexivity.
Qed.

Lemma vsize_layer_up (l l' : list Node) :
  layer_up l = Ok l' -> vsize l' = (vsize l + 1) / 2.
Proof.
  revert l'. induction l as [| a | a b r IH] using list_pair_ind; intros l' H.
  - inversion H. reflexivity.
  - inversion H. reflexivity.
  - cbn [layer_up] in H. destruct (CreateParentNode a b); [|discriminate].
    cbn [bind] in H. destruct (layer_up r) as [above|]; [|discriminate].
    inversion H. rewrite !vsize_cons, (IH above eq_refl).
    replace (vsize r + 1 + 1 + 1) with (vsize r + 1 + 1 * 2) by lia.
    now rewrite Z.div_add by lia.
Qed.

Lemma GetRoot_loop_unfold (fuel : nat) pks pm layerNum layerSize :
  CMerkleMountainView.GetRoot_loop (S fuel) pks pm layerNum layerSize =
  if (layerNum =? 0) || (1 <? layerSize) then
    let layerIndex := if layerNum =? 0 then 0 else uint32_t (layerNum - 1) in
    let src := if layerNum =? 0 then pks else vat [] pm layerIndex in
    layer <- CMerkleMountainView.merkle_layer src layerSize ;;
    CMerkleMountainView.GetRoot_loop fuel pks (pm ++ [layer]) (uint32_t (layerNum + 1))
      (uint32_t (vsize layer))
  else Ok pm.
Proof. reflexivity. Qed.

Lemma reduce_small (fuel : nat) (l : list Node) :
  vsize l <= 1 -> reduce fuel l = Ok l.
Proof.
  destruct fuel, l as [|a [|b r]]; intros H; try reflexivity;
    rewrite !vsize_cons in H; pose proof (vsize_nonneg r); lia.
Qed.

Lemma reduce_step (fuel : nat) (l : list Node) :
  1 < vsize l -> reduce (S fuel) l = (above <- layer_up l ;; reduce fuel above).
Proof.
  destruct l as [|a [|b r]]; intros H; try reflexivity;
    unfold vsize in H; cbn [length] in H; lia.
Qed.

(** The loop of [GetRoot] above the first layer ends on the layer that
    [reduce] ends on. *)
Lemma GetRoot_loop_above (pks : list Node) (fuel : nat) :
  forall (fuel' : nat) (pm : list (list Node)) (src : list Node),
  last pm [] = src -> 1 <= vsize pm ->
  vsize pm + vsize src < 2 ^ 31 ->
  vsize src <= Z.of_nat fuel -> vsize src <= Z.of_nat fuel' + 1 ->
  result_map (fun pm' => hash (vat NodeDefault (last pm' []) 0))
    (CMerkleMountainView.GetRoot_loop fuel pks pm (vsize pm) (vsize src))
  = result_map (fun top => hash (hd NodeDefault top)) (reduce fuel' src).
Proof.
  induction fuel as [|fuel IH]; intros fuel' pm src Hlast Hpm Hb Hf Hf'.
  - pose proof (vsize_nonneg src).
    assert (Hs : vsize src = 0) by lia.
    rewrite reduce_small by lia.
    cbn [CMerkleMountainView.GetRoot_loop].
    destruct (Z.eqb_spec (vsize pm) 0); [lia|]. rewrite Hs. cbn [orb Z.ltb Z.compare].
    cbn [result_map]. now rewrite Hlast, vat_zero_hd.
  - rewrite GetRoot_loop_unfold.
    destruct (Z.eqb_spec (vsize pm) 0); [lia|]. cbn [orb].
    destruct (Z.ltb_spec 1 (vsize src)) as [Hgt|Hle].
    + cbv zeta. rewrite uint32_small by lia.
      assert (Hsrc : vat [] pm (vsize pm - 1) = src).
      { rewrite <- Hlast. unfold vat, vsize.
        replace (Z.to_nat (Z.of_nat (length pm) - 1)) with (length pm - 1)%nat by lia.
        destruct pm as [|x pm'] using rev_ind; [unfold vsize in Hpm; cbn in Hpm; lia|].
        rewrite length_app, last_last. cbn [length].
        rewrite app_nth2 by lia.
        replace (length pm' + 1 - 1 - length pm')%nat with 0%nat by lia. reflexivity. }
      rewrite Hsrc, merkle_layer_spec.
      destruct fuel' as [|fuel']; [lia|].
      rewrite reduce_step by lia.
      destruct (layer_up src) as [layer|e] eqn:Hup; cbn [bind]; [|reflexivity].
      pose proof (vsize_layer_up _ _ Hup) as Hl.
      assert (Hl2 : vsize layer <= vsize src - 1).
      { rewrite Hl. apply Z.lt_succ_r. apply Z.div_lt_upper_bound; lia. }
      pose proof (vsize_nonneg layer).
      rewrite !uint32_small by lia.
      replace (vsize pm + 1) with (vsize (pm ++ [layer]))
        by (rewrite vsize_app; reflexivity).
      apply IH.
      * apply last_last.
      * rewrite vsize_app. unfold vsize at 2. cbn [length]. lia.
      * rewrite vsize_app. unfold vsize at 2. cbn [length]. lia.
      * lia.
      * lia.
    + rewrite reduce_small by lia. cbn [result_map].
      now rewrite Hlast, vat_zero_hd.
Qed.

(** The root computed by the first call of [GetRoot] on non-empty peaks. *)
Lemma GetRoot_loop_root (pks : list Node) :
  1 <= vsize pks < 2 ^ 30 ->
  result_map (fun pm' => hash (vat NodeDefault (last pm' []) 0))
    (CMerkleMountainView.GetRoot_loop (S (S (length pks))) pks [] 0
       (uint32_t (vsize pks)))
  = spec_root pks.
Proof.
  intros Hp. rewrite GetRoot_loop_unfold. cbn [Z.eqb orb]. cbv zeta.
  rewrite (uint32_small (vsize pks)) by lia.
  rewrite merkle_layer_spec. unfold spec_root.
  destruct (Z.eq_dec (vsize pks) 1) as [H1|H1].
  - destruct pks as [|a [|b r]]; unfold vsize in H1; cbn [length] in H1; try lia.
    reflexivity.
  - destruct (length pks) as [|n] eqn:Hn; [unfold vsize in Hp; lia|].
    rewrite reduce_step by lia.
    destruct (layer_up pks) as [layer|e] eqn:Hup; cbn [bind]; [|reflexivity].
    pose proof (vsize_layer_up _ _ Hup) as Hl.
    assert (Hl2 : vsize layer <= vsize pks - 1).
    { rewrite Hl. apply Z.lt_succ_r. apply Z.div_lt_upper_bound; lia. }
    pose proof (vsize_nonneg layer).
    change (uint32_t (0 + 1)) with (vsize [layer]). cbn [app].
    rewrite uint32_small by lia.
    rewrite (GetRoot_loop_above pks (S (S n)) n [layer] layer);
      try reflexivity; unfold vsize in *; cbn [length]; try lia.
Qed.
End RootFacts.

Section RootTheorem.
Context {NT : NODE_TYPE}.

Lemma peaks_new_bounds (m : CMerkleMountainRange.t) (viewSize : Z) (force : bool) :
  0 <= viewSize -> 0 < CMerkleMountainRange.size m < 2 ^ 64 - 1 ->
  1 <= vsize (CMerkleMountainView.peaks
                (CMerkleMountainView.CalcPeaks (CMerkleMountainView.new m viewSize) force))
    <= 64.
Proof.
  intros Hv Hm.
  destruct (CalcPeaks_new m viewSize force Hv Hm) as (Hp & _).
  destruct (sizes_new m viewSize Hv ltac:(lia)) as [Hn _].
  pose proof (view_size_pos m viewSize Hv ltac:(lia)) as Hpos.
  rewrite Hp. set (n := CMerkleMountainView.size (CMerkleMountainView.new m viewSize)) in *.
  unfold vsize. rewrite length_map, length_rev.
  pose proof (Z.log2_nonneg n) as Hl.
  assert (Hlog : Z.log2 n < 64) by (apply Z.log2_lt_pow2; lia).
  split.
  - assert (Hin : In (Z.log2 n) (filter (Z.testbit n) (zrange 0 (Z.log2 n)))).
    { apply filter_In. split; [apply in_zrange; lia|apply Z.bit_log2; lia]. }
    destruct (filter (Z.testbit n) (zrange 0 (Z.log2 n))); [contradiction|].
    cbn [length]. lia.
  - pose proof (filter_length_le (Z.testbit n) (zrange 0 (Z.log2 n))) as Hle.
    unfold zrange in Hle at 2. rewrite length_map, length_seq in Hle. lia.
Qed.

(** C5: the root of a view is the null hash when the view is empty, and
    otherwise the hash of the node left when the peaks have been reduced
    layer by layer, each layer combining [peaks[2i]] with [peaks[2i+1]]
    and carrying an unpaired last element unchanged. *)
Theorem GetRoot_spec (m : CMerkleMountainRange.t) (viewSize : Z) :
  0 <= viewSize ->
  0 <= CMerkleMountainRange.size m < 2 ^ 64 - 1 ->
  let v := CMerkleMountainView.new m viewSize in
  result_map fst (CMerkleMountainView.GetRoot v)
  = if CMerkleMountainView.size v =? 0 then Ok uint256_null
    else spec_root (CMerkleMountainView.peaks (CMerkleMountainView.CalcPeaks v false)).
Proof.
  intros Hv Hm. cbv zeta.
  destruct (sizes_new m viewSize Hv ltac:(lia)) as [Hn _].
  unfold CMerkleMountainView.GetRoot.
  set (v := CMerkleMountainView.new m viewSize) in *.
  destruct (Z.eqb_spec (CMerkleMountainView.size v) 0) as [H0|H0].
  - rewrite H0. reflexivity.
  - destruct (Z.ltb_spec 0 (CMerkleMountainView.size v)); [|lia].
    change (vsize (CMerkleMountainView.peakMerkle v) =? 0) with true. cbn [andb].
    assert (Hm' : 0 < CMerkleMountainRange.size m < 2 ^ 64 - 1) by lia.
    destruct (CalcPeaks_new m viewSize false Hv Hm') as (_ & _ & _ & _ & Hpm).
    pose proof (peaks_new_bounds m viewSize false Hv Hm') as Hb.
    fold v in Hpm, Hb. rewrite Hpm.
    rewrite <- GetRoot_loop_root by lia.
    destruct (CMerkleMountainView.GetRoot_loop _ _ _ _ _); reflexivity.
Qed.
End RootTheorem.

Lemma GetRoot_spec_witness :
  0 <= 5 /\
  0 <= CMerkleMountainRange.size five_leaves < 2 ^ 64 - 1 /\
  let v := CMerkleMountainView.new five_leaves 5 in
  result_map fst (CMerkleMountainView.GetRoot v)
  = if CMerkleMountainView.size v =? 0 then Ok uint256_null
    else spec_root (CMerkleMountainView.peaks (CMerkleMountainView.CalcPeaks v false)).
Proof.
  split; [lia|]. split; [vm_compute; split; [discriminate|reflexivity]|].
  apply (@GetRoot_spec plain_nodes five_leaves 5).
  - lia.
  - vm_compute; split; [discriminate|reflexivity].
Defined.

Lemma deserialise_fail_closed_witness :
  bytes_read [2; 2; 2; 0; 3; 9; 1; 1; 0; 7] = Some (2, [2; 2; 0; 3; 9; 1; 1; 0; 7]) /\
  bytes_SerializationOp_read [2; 2; 2; 0; 3; 9; 1; 1; 0; 7]
    [CMMRProof.pMultiProofBranch unit [5]]
  = Some (match bytes_read_entries (Z.to_nat 2) [2; 2; 0; 3; 9; 1; 1; 0; 7] with
          | Some es => es
          | None => []
          end).
Proof.
  split; [reflexivity|].
  apply (deserialise_fail_closed (list Z) unit bytes_read bytes_read
           bytes_read_btc bytes_read_mmr bytes_read_mmr bytes_read_eth
           bytes_read_multipart [2; 2; 2; 0; 3; 9; 1; 1; 0; 7]
           [2; 2; 0; 3; 9; 1; 1; 0; 7] 2).
  reflexivity.
Defined.

(** An unknown tag after one good branch leaves nothing, and so does a
    stream that ends early. *)
Example deserialise_unknown_tag :
  bytes_SerializationOp_read [2; 2; 2; 0; 3; 9; 6; 1; 0; 7] [] = Some [] /\
  bytes_SerializationOp_read [2; 2; 2; 0; 3; 9; 1; 1] [] = Some [] /\
  bytes_SerializationOp_read [2; 2; 2; 0; 3; 9; 1; 1; 0; 7] []
  = Some [CMMRProof.pNodeBranch unit (mkCMMRBranch 2 0 3 [9]);
          CMMRProof.pBranch unit (mkCMerkleBranch 0 [7])].
Proof. repeat split; reflexivity. Qed.

(** ** Checking a branch *)

Section SafeCheckFacts.
Context {HW : HASHALGOWRITER}.

Lemma SafeCheck_loop_walk (br : list uint256) : forall (index i : Z) (h : uint256),
  0 <= i ->
  SafeCheck_loop br (Z.shiftr index i) h = spec_walk index i br h.
Proof.
  induction br as [|it rest IH]; intros index i h Hi; cbn [SafeCheck_loop spec_walk].
  - reflexivity.
  - rewrite odd_test, <- Z.testbit_odd, Z.shiftr_shiftr by lia.
    destruct (Z.testbit index i).
    + destruct (it =? h); [reflexivity|]. apply IH. lia.
    + apply IH. lia.
Qed.

Lemma int64_small (x : Z) : 0 <= x < 2 ^ 63 -> int64_t x = x.
Proof.
  intros. unfold int64_t. rewrite Z.mod_small; lia.
Qed.

(** C2: past the test of the sentinel index, both [SafeCheck] functions
    walk the bits of the index from the lowest: a set bit with a sibling
    equal to the running hash gives the null hash, a set bit otherwise
    combines (sibling, running), a clear bit combines (running, sibling),
    and the hash left after the last sibling is returned. *)
Theorem SafeCheck_spec {NT : NODE_TYPE} (b : CMMRBranch) (mb : CMerkleBranch)
    (h : uint256) :
  int64_t (GetMMRProofIndex (nIndex b) (nSize b) GetExtraHashCount) <> -1 ->
  0 <= btc_nIndex mb < 2 ^ 32 ->
  CMMRBranch_SafeCheck b h
  = spec_walk (int64_t (GetMMRProofIndex (nIndex b) (nSize b) GetExtraHashCount))
              0 (branch b) h /\
  CMerkleBranch_SafeCheck mb h = spec_walk (btc_nIndex mb) 0 (btc_branch mb) h.
Proof.
  intros Hs Hi. unfold CMMRBranch_SafeCheck, CMerkleBranch_SafeCheck, SafeCheck_from.
  split.
  - apply Z.eqb_neq in Hs. rewrite Hs.
    rewrite <- SafeCheck_loop_walk by lia. now rewrite Z.shiftr_0_r.
  - rewrite int64_small by lia.
    destruct (Z.eqb_spec (btc_nIndex mb) (-1)); [lia|].
    rewrite <- SafeCheck_loop_walk by lia. now rewrite Z.shiftr_0_r.
Qed.
End SafeCheckFacts.

Lemma SafeCheck_spec_witness :
  int64_t (@GetMMRProofIndex plain_nodes 2 5 (@GetExtraHashCount plain_nodes)) <> -1 /\
  0 <= 1 < 2 ^ 32 /\
  @CMMRBranch_SafeCheck pair_writer plain_nodes (mkCMMRBranch 2 2 5 [4; 9; 5]) 3
  = @spec_walk pair_writer
      (int64_t (@GetMMRProofIndex plain_nodes 2 5 (@GetExtraHashCount plain_nodes)))
      0 [4; 9; 5] 3 /\
  @CMerkleBranch_SafeCheck pair_writer (mkCMerkleBranch 1 [7]) 3
  = @spec_walk pair_writer 1 0 [7] 3.
Proof.
  split; [vm_compute; discriminate|]. split; [lia|].
  apply (@SafeCheck_spec pair_writer plain_nodes (mkCMMRBranch 2 2 5 [4; 9; 5])
           (mkCMerkleBranch 1 [7]) 3).
  - vm_compute; discriminate.
  - cbn; lia.
Defined.

(** ** The layers of the peak merkle tree *)

Section TowerFacts.
Context {NT : NODE_TYPE}.

Lemma layer_up_vat (l : list Node) : forall l' i,
  layer_up l = Ok l' -> 0 <= i -> 2 * i + 1 < vsize l ->
  CreateParentNode (vat NodeDefault l (2 * i)) (vat NodeDefault l (2 * i + 1))
  = Ok (vat NodeDefault l' i).
Proof.
  induction l as [| a | a b r IH] using list_pair_ind; intros l' i Hup Hi Hlt.
  - unfold vsize in Hlt; cbn [length] in Hlt; lia.
  - unfold vsize in Hlt; cbn [length] in Hlt; lia.
  - cbn [layer_up] in Hup.
    destruct (CreateParentNode a b) as [p|] eqn:Hp; [|discriminate].
    cbn [bind] in Hup. destruct (layer_up r) as [above|] eqn:Hr; [|discriminate].
    inversion Hup; subst l'. rewrite !vsize_cons in Hlt.
    destruct (Z.eq_dec i 0) as [->|Hne]; [exact Hp|].
    rewrite !vat_tail2, vat_tail by lia.
    replace (2 * i - 2) with (2 * (i - 1)) by lia.
    replace (2 * i + 1 - 2) with (2 * (i - 1) + 1) by lia.
    apply IH; [reflexivity|lia|lia].
Qed.

Lemma layer_up_carry (l : list Node) : forall l',
  layer_up l = Ok l' -> Z.odd (vsize l) = true ->
  vat NodeDefault l' ((vsize l - 1) / 2) = vat NodeDefault l (vsize l - 1).
Proof.
  induction l as [| a | a b r IH] using list_pair_ind; intros l' Hup Hodd.
  - discriminate.
  - inversion Hup. reflexivity.
  - cbn [layer_up] in Hup.
    destruct (CreateParentNode a b) as [p|] eqn:Hp; [|discriminate].
    cbn [bind] in Hup. destruct (layer_up r) as [above|] eqn:Hr; [|discriminate].
    inversion Hup; subst l'. rewrite !vsize_cons in *.
    replace (vsize r + 1 + 1) with (vsize r + 2 * 1) in Hodd by lia.
    rewrite Z.odd_add_mul_2 in Hodd.
    pose proof (vsize_nonneg r) as Hr0.
    assert (Hr1 : 1 <= vsize r).
    { destruct (Z.eq_dec (vsize r) 0) as [E|E]; [rewrite E in Hodd; discriminate|lia]. }
    replace (vsize r + 1 + 1 - 1) with (vsize r - 1 + 1 * 2) by lia.
    rewrite Z.div_add by lia.
    assert (0 <= (vsize r - 1) / 2) by (apply Z.div_pos; lia).
    rewrite vat_tail2, vat_tail by lia.
    replace ((vsize r - 1) / 2 + 1 - 1) with ((vsize r - 1) / 2) by lia.
    replace (vsize r - 1 + 1 * 2 - 2) with (vsize r - 1) by lia.
    apply IH; [reflexivity|exact Hodd].
Qed.

Lemma tower_tower_of (fuel : nat) : forall l t,
  tower fuel l = Ok t -> tower_of l t.
Proof.
  induction fuel as [|fuel IH]; intros l t H; cbn [tower] in H.
  - destruct (Z.ltb_spec 1 (vsize l)); [discriminate|].
    inversion H. now constructor.
  - destruct (Z.ltb_spec 1 (vsize l)).
    + destruct (layer_up l) as [above|] eqn:Hup; [|discriminate]. cbn [bind] in H.
      destruct (tower fuel above) as [rest|] eqn:Ht; [|discriminate].
      inversion H. apply tower_step; auto.
    + inversion H. now constructor.
Qed.

Lemma GetRoot_loop_tower (pks : list Node) (fuel : nat) :
  forall (pm : list (list Node)) (src : list Node),
  last pm [] = src -> 1 <= vsize pm ->
  vsize pm + vsize src < 2 ^ 31 ->
  CMerkleMountainView.GetRoot_loop fuel pks pm (vsize pm) (vsize src)
  = (t <- tower fuel src ;; Ok (pm ++ t)).
Proof.
  induction fuel as [|fuel IH]; intros pm src Hlast Hpm Hb.
  - cbn [CMerkleMountainView.GetRoot_loop tower].
    destruct (Z.eqb_spec (vsize pm) 0); [lia|]. cbn [orb].
    destruct (1 <? vsize src); [reflexivity|]. cbn [bind]. now rewrite app_nil_r.
  - rewrite GetRoot_loop_unfold. cbn [tower].
    destruct (Z.eqb_spec (vsize pm) 0); [lia|]. cbn [orb].
    destruct (Z.ltb_spec 1 (vsize src)) as [Hgt|Hle].
    2:{ cbn [bind]. now rewrite app_nil_r. }
    cbv zeta. rewrite uint32_small by lia.
    assert (Hsrc : vat [] pm (vsize pm - 1) = src).
    { rewrite <- Hlast. unfold vat, vsize.
      replace (Z.to_nat (Z.of_nat (length pm) - 1)) with (length pm - 1)%nat by lia.
      destruct pm as [|x pm'] using rev_ind; [unfold vsize in Hpm; cbn in Hpm; lia|].
      rewrite length_app, last_last. cbn [length].
      rewrite app_nth2 by lia.
      replace (length pm' + 1 - 1 - length pm')%nat with 0%nat by lia. reflexivity. }
    rewrite Hsrc, merkle_layer_spec.
    destruct (layer_up src) as [layer|e] eqn:Hup; cbn [bind]; [|reflexivity].
    pose proof (vsize_layer_up _ _ Hup) as Hl.
    assert (Hl2 : vsize layer <= vsize src - 1).
    { rewrite Hl. apply Z.lt_succ_r. apply Z.div_lt_upper_bound; lia. }
    pose proof (vsize_nonneg layer).
    rewrite !uint32_small by lia.
    replace (vsize pm + 1) with (vsize (pm ++ [layer]))
      by (rewrite vsize_app; reflexivity).
    rewrite IH.
    + destruct (tower fuel layer); cbn [bind]; [|reflexivity].
      now rewrite <- app_assoc.
    + apply last_last.
    + rewrite vsize_app. unfold vsize at 2. cbn [length]. lia.
    + rewrite vsize_app. unfold vsize at 2. cbn [length]. lia.
Qed.

(** The layers cached by the first [GetRoot] on non-empty peaks. *)
Lemma GetRoot_loop_layers (pks : list Node) (pm : list (list Node)) :
  1 <= vsize pks < 2 ^ 30 ->
  CMerkleMountainView.GetRoot_loop (S (S (length pks))) pks [] 0
    (uint32_t (vsize pks)) = Ok pm ->
  exists first rest,
    pm = first :: rest /\ layer_up pks = Ok first /\ tower_of first rest.
Proof.
  intros Hp H. rewrite GetRoot_loop_unfold in H. cbn [Z.eqb orb] in H.
  cbv zeta in H. rewrite (uint32_small (vsize pks)) in H by lia.
  rewrite merkle_layer_spec in H.
  destruct (layer_up pks) as [layer|e] eqn:Hup; cbn [bind] in H; [|discriminate].
  pose proof (vsize_layer_up _ _ Hup) as Hl.
  assert (Hl2 : vsize layer <= vsize pks).
  { rewrite Hl. assert ((vsize pks + 1) / 2 < vsize pks + 1); [|lia].
    apply Z.div_lt_upper_bound; lia. }
  pose proof (vsize_nonneg layer).
  change (uint32_t (0 + 1)) with (vsize [layer]) in H. cbn [app] in H.
  rewrite uint32_small in H by lia.
  rewrite (GetRoot_loop_tower pks _ [layer] layer) in H;
    [|reflexivity|unfold vsize; cbn [length]; lia|unfold vsize in *; cbn [length]; lia].
  destruct (tower (S (length pks)) layer) as [t|] eqn:Ht; [|discriminate].
  cbn [bind app] in H. inversion H.
  exists layer, t. repeat split. eapply tower_tower_of; eassumption.
Qed.

(** A tower seen through indexes: every layer but the last has more than
    one node and is followed by its reduction. *)
Lemma tower_of_index (l : list Node) (t : list (list Node)) :
  tower_of l t ->
  (forall j, (j < length t)%nat ->
     1 < vsize (nth j (l :: t) []) /\
     layer_up (nth j (l :: t) []) = Ok (nth (S j) (l :: t) [])) /\
  vsize (last (l :: t) []) <= 1.
Proof.
  induction 1 as [l Hl|l above rest Hl Hup _ [IH1 IH2]].
  - split; [intros j Hj; cbn in Hj; lia|exact Hl].
  - split.
    + intros [|j] Hj; [split; assumption|].
      cbn [length] in Hj. apply (IH1 j). lia.
    + exact IH2.
Qed.

Lemma tower_of_small (l : list Node) (t : list (list Node)) :
  tower_of l t -> vsize t <= vsize l.
Proof.
  induction 1 as [l Hl|l above rest Hl Hup _ IH].
  - apply vsize_nonneg.
  - rewrite vsize_cons. pose proof (vsize_layer_up _ _ Hup) as Hs.
    assert ((vsize l + 1) / 2 < vsize l) by (apply Z.div_lt_upper_bound; lia). lia.
Qed.
End TowerFacts.

(** ** Scans, proof bits and packed indexes *)

Lemma find_index_nth (l : list Z) :
  NoDup l -> forall (i : nat) (base : Z), (i < length l)%nat ->
  CMerkleMountainView.find_index (nth i l 0) l base = base + Z.of_nat i.
Proof.
  induction 1 as [|x l Hx Hnd IH]; intros i base Hi; cbn [length] in Hi; [lia|].
  cbn [CMerkleMountainView.find_index]. destruct i as [|i]; cbn [nth].
  - rewrite Z.eqb_refl. lia.
  - destruct (Z.eqb_spec x (nth i l 0)) as [E|E].
    + exfalso. apply Hx. rewrite E. apply nth_In. lia.
    + rewrite IH by lia. lia.
Qed.

Lemma find_peak_index {NT : NODE_TYPE} (h : uint256) (pks : list Node) : forall base,
  CMerkleMountainView.find_peak h pks base
  = CMerkleMountainView.find_index h (map hash pks) base.
Proof.
  induction pks as [|n pks IH]; intros base; cbn; [reflexivity|].
  now rewrite IH.
Qed.

Lemma distinct_NoDup (l : list uint256) : distinct l = true -> NoDup l.
Proof.
  induction l as [|x l IH]; cbn [distinct]; intros H; constructor.
  - apply andb_prop in H as [H _]. apply negb_true_iff in H.
    intros Hin. assert (existsb (Z.eqb x) l = true); [|congruence].
    apply existsb_exists. exists x. split; [assumption|apply Z.eqb_refl].
  - apply andb_prop in H as [_ H]. auto.
Qed.

Lemma StronglySorted_gt_NoDup (l : list Z) : StronglySorted Z.gt l -> NoDup l.
Proof.
  induction 1 as [|x l _ IH Hall]; constructor; [|assumption].
  intros Hin. rewrite Forall_forall in Hall. specialize (Hall x Hin). lia.
Qed.

(** The peak indexes of [GetProofBits] are the set bits of the size, from
    the highest. *)
Lemma PeakIndexes_spec (n : Z) :
  0 < n < 2 ^ 64 ->
  let Sizes := map (fun h => Z.shiftr n (Z.of_nat h)) (seq 0 (S (Z.to_nat (Z.log2 n)))) in
  fold_left
    (fun pk ht =>
       if (ht =? uint32_t (uint32_t (vsize Sizes) - 1))
          || negb (Z.land (vat 0 Sizes ht) 1 =? 0)
       then (ht mod 256) :: pk else pk)
    (zrange 0 (vsize Sizes - 1)) []
  = rev (filter (Z.testbit n) (zrange 0 (Z.log2 n))).
Proof.
  intros Hn. cbv zeta.
  pose proof (Z.log2_nonneg n) as Hl.
  assert (Hlog : Z.log2 n < 64) by (apply Z.log2_lt_pow2; lia).
  rewrite vsize_map_seq.
  replace (Z.of_nat (S (Z.to_nat (Z.log2 n))) - 1) with (Z.log2 n) by lia.
  rewrite (uint32_small (Z.of_nat _)) by lia.
  replace (Z.of_nat (S (Z.to_nat (Z.log2 n))) - 1) with (Z.log2 n) by lia.
  rewrite uint32_small by lia.
  rewrite fold_left_cons_if, app_nil_r. f_equal.
  rewrite (filter_ext_in _ (Z.testbit n)).
  - rewrite <- (map_id (filter (Z.testbit n) (zrange 0 (Z.log2 n)))) at 2.
    apply map_ext_in. intros ht Hin. apply filter_In in Hin as [Hin _].
    apply in_zrange in Hin. apply Z.mod_small. lia.
  - intros ht Hin. apply in_zrange in Hin.
    destruct (Z.eqb_spec ht (Z.log2 n)) as [->|Hne]; cbn [orb].
    + symmetry. apply Z.bit_log2. lia.
    + rewrite vat_sizes by lia. rewrite odd_test. symmetry. apply Z.testbit_odd.
Qed.

Lemma half_sum (s : Z) : 0 <= s -> Z.shiftr s 1 + Z.land s 1 = (s + 1) / 2.
Proof.
  intros. rewrite (shiftr_div _ 1), land1_mod by lia. change (2 ^ 1) with 2.
  pose proof (Z.div_mod s 2 ltac:(lia)).
  pose proof (Z.mod_pos_bound s 2 ltac:(lia)).
  apply (Z.div_unique (s + 1) 2 _ (1 - s mod 2)); lia.
Qed.

Section MerkleSizes.
Context {NT : NODE_TYPE}.

Lemma MerkleSizes_tower (src : list Node) (t : list (list Node)) :
  tower_of src t -> forall (fuel : nat) (k : Z) (ms : list Z),
  1 <= k -> k + vsize src < 2 ^ 32 -> vsize src <= Z.of_nat fuel ->
  CMerkleMountainView.MerkleSizes_loop fuel k (vsize src) ms = ms ++ map vsize t.
Proof.
  induction 1 as [l Hl|l above rest Hl Hup _ IH]; intros fuel k ms Hk Hb Hf.
  - destruct fuel; cbn [CMerkleMountainView.MerkleSizes_loop];
      destruct (Z.eqb_spec k 0); try lia; cbn [orb];
      destruct (Z.ltb_spec 1 (vsize l)); try lia; cbn [map]; now rewrite app_nil_r.
  - destruct fuel as [|fuel]; [lia|].
    cbn [CMerkleMountainView.MerkleSizes_loop].
    destruct (Z.eqb_spec k 0); [lia|]. cbn [orb].
    destruct (Z.ltb_spec 1 (vsize l)); [|lia].
    rewrite half_sum by lia.
    pose proof (vsize_layer_up _ _ Hup) as Hs. rewrite <- Hs.
    assert (Hlt : vsize above < vsize l)
      by (rewrite Hs; apply Z.div_lt_upper_bound; lia).
    assert (Hpos : 1 <= vsize above)
      by (rewrite Hs; apply Z.div_le_lower_bound; lia).
    rewrite !uint64_small by lia.
    destruct (Z.eqb_spec (vsize above) 0); [lia|].
    rewrite IH by lia. cbn [map]. now rewrite <- app_assoc.
Qed.

Lemma MerkleSizes_loop_unfold (fuel : nat) (layerNum layerSize : Z) (ms : list Z) :
  CMerkleMountainView.MerkleSizes_loop (S fuel) layerNum layerSize ms =
  if (layerNum =? 0) || (1 <? layerSize) then
    let passThrough := Z.land layerSize 1 in
    let layerSize := uint64_t (Z.shiftr layerSize 1 + passThrough) in
    let ms := if layerSize =? 0 then ms else ms ++ [layerSize] in
    CMerkleMountainView.MerkleSizes_loop fuel (uint64_t (layerNum + 1)) layerSize ms
  else ms.
Proof. reflexivity. Qed.

Lemma MerkleSizes_spec (pks first : list Node) (rest : list (list Node)) :
  1 <= vsize pks < 2 ^ 30 ->
  layer_up pks = Ok first -> tower_of first rest ->
  CMerkleMountainView.MerkleSizes_loop (S (S (length pks))) 0 (vsize pks) []
  = map vsize (first :: rest).
Proof.
  intros Hp Hup Ht. rewrite MerkleSizes_loop_unfold. cbn [Z.eqb orb]. cbv zeta.
  rewrite half_sum by lia.
  pose proof (vsize_layer_up _ _ Hup) as Hs. rewrite <- Hs.
  assert (Hlt : vsize first <= vsize pks).
  { rewrite Hs. assert ((vsize pks + 1) / 2 < vsize pks + 1); [|lia].
    apply Z.div_lt_upper_bound; lia. }
  assert (Hpos : 1 <= vsize first)
    by (rewrite Hs; apply Z.div_le_lower_bound; lia).
  rewrite !uint64_small by lia.
  destruct (Z.eqb_spec (vsize first) 0); [lia|].
  cbn [app]. change (uint64_t (0 + 1)) with 1.
  rewrite (MerkleSizes_tower first rest Ht); [reflexivity|lia|lia|].
  unfold vsize in *. lia.
Qed.
End MerkleSizes.

(** ** Packed bits *)

Lemma lor_bit_double (b : bool) (q : Z) :
  Z.lor (Z.b2z b) (Z.shiftl q 1) = 2 * q + Z.b2z b.
Proof.
  apply Z.bits_inj'. intros i Hi.
  destruct (Z.eq_dec i 0) as [->|Hne].
  - rewrite Z.lor_spec, Z.shiftl_spec_low, Z.testbit_0_r, Z.b2z_bit0 by lia.
    apply orb_false_r.
  - replace i with (Z.succ (i - 1)) by lia.
    rewrite Z.lor_spec, Z.testbit_succ_r, Z.shiftl_spec by lia.
    replace (Z.succ (i - 1) - 1) with (i - 1) by lia.
    replace (Z.b2z b) with (2 * 0 + Z.b2z b) by lia.
    rewrite Z.testbit_succ_r, Z.testbit_0_l by lia. reflexivity.
Qed.

Lemma pack_bits_bound (bits : list Z) :
  Forall (fun b => b = 0 \/ b = 1) bits ->
  0 <= pack_bits bits < 2 ^ vsize bits.
Proof.
  induction 1 as [|b bits Hb _ IH]; cbn [pack_bits]; [cbn; lia|].
  rewrite vsize_cons. pose proof (vsize_nonneg bits).
  rewrite Z.pow_add_r, Z.pow_1_r by lia.
  assert (E : Z.lor b (Z.shiftl (pack_bits bits) 1) = 2 * pack_bits bits + b).
  { destruct Hb as [-> | ->].
    - apply (lor_bit_double false).
    - apply (lor_bit_double true). }
  rewrite E. destruct Hb as [-> | ->]; lia.
Qed.

Lemma pack_bits_cons (b : Z) (bits : list Z) :
  b = 0 \/ b = 1 ->
  Z.testbit (pack_bits (b :: bits)) 0 = (b =? 1) /\
  Z.shiftr (pack_bits (b :: bits)) 1 = pack_bits bits.
Proof.
  intros Hb. cbn [pack_bits]. split.
  - rewrite Z.lor_spec, Z.shiftl_spec_low by lia. rewrite orb_false_r.
    destruct Hb as [-> | ->]; reflexivity.
  - rewrite Z.shiftr_lor, Z.shiftr_shiftl_l by lia.
    replace (1 - 1) with 0 by lia. rewrite Z.shiftl_0_r.
    destruct Hb as [-> | ->]; reflexivity.
Qed.

Section ReplayFacts.
Context {HW : HASHALGOWRITER}.

Lemma replay_app (w1 w2 : list (Z * uint256)) (h : uint256) :
  replay (w1 ++ w2) h = replay w2 (replay w1 h).
Proof. unfold replay. apply fold_left_app. Qed.

(** With the recorded sides as index bits, a canonical walk is checked
    into the hash that the replay gives. *)
Lemma SafeCheck_loop_replay (w : list (Z * uint256)) :
  sides_ok w -> forall h,
  canonical (pack_bits (map fst w)) (map snd w) h = true ->
  SafeCheck_loop (map snd w) (pack_bits (map fst w)) h = replay w h.
Proof.
  induction 1 as [|[s x] w Hs _ IH]; intros h Hc; [reflexivity|].
  cbn [map fst snd] in *. cbn [SafeCheck_loop canonical] in *.
  destruct (pack_bits_cons s (map fst w) Hs) as [Hb Hr].
  rewrite odd_test, <- Z.bit0_odd. rewrite Hb, Hr in *.
  unfold replay. cbn [fold_left fst snd]. fold (replay w).
  destruct (s =? 1).
  - apply andb_prop in Hc as [Hne Hc]. apply negb_true_iff in Hne.
    rewrite Hne. now apply IH.
  - now apply IH.
Qed.

Lemma sides_ok_app (w1 w2 : list (Z * uint256)) :
  sides_ok w1 -> sides_ok w2 -> sides_ok (w1 ++ w2).
Proof. intros; apply Forall_app; split; assumption. Qed.

Lemma sides_ok_zero (l : list uint256) : sides_ok (map (fun x => (0, x)) l).
Proof. apply Forall_forall. intros sx Hin. apply in_map_iff in Hin as (x & <- & _). now left. Qed.

Lemma sides_ok_emit (side : Z) (l : list uint256) :
  side = 0 \/ side = 1 -> sides_ok (CMerkleMountainView.emit side l).
Proof.
  intros Hs. destruct l as [|x l]; [constructor|].
  cbn [CMerkleMountainView.emit]. constructor; [exact Hs|apply sides_ok_zero].
Qed.

Lemma map_fst_zero (l : list uint256) :
  map fst (map (fun x => (0, x)) l) = repeat 0 (length l).
Proof. induction l; cbn; [reflexivity|]. now f_equal. Qed.

Lemma map_fst_emit (side e : Z) (l : list uint256) :
  0 <= e -> vsize l = 1 + e ->
  map fst (CMerkleMountainView.emit side l) = side :: repeat 0 (Z.to_nat e).
Proof.
  intros He Hl. destruct l as [|x l]; [unfold vsize in Hl; cbn [length] in Hl; lia|].
  cbn [CMerkleMountainView.emit map fst]. f_equal.
  rewrite map_fst_zero. f_equal. rewrite vsize_cons in Hl. unfold vsize in Hl. lia.
Qed.
End ReplayFacts.

(** ** The walk up the peak merkle tree *)

Lemma half_lt_half_up (p s : Z) : 0 <= p < s -> 0 <= Z.shiftr p 1 < (s + 1) / 2.
Proof.
  intros. rewrite (shiftr_div _ 1) by lia. change (2 ^ 1) with 2.
  split; [apply Z.div_pos; lia|].
  pose proof (Z.div_mod (s + 1) 2 ltac:(lia)).
  pose proof (Z.mod_pos_bound (s + 1) 2 ltac:(lia)).
  apply Z.div_lt_upper_bound; lia.
Qed.

Lemma odd_half (p : Z) : Z.odd p = true -> 2 * Z.shiftr p 1 = p - 1.
Proof.
  intros Ho. rewrite (shiftr_div _ 1) by lia. change (2 ^ 1) with 2.
  pose proof (Z.div_mod p 2 ltac:(lia)). pose proof (Zmod_odd p) as Hm.
  rewrite Ho in Hm. lia.
Qed.

Lemma even_half (p : Z) : Z.odd p = false -> 2 * Z.shiftr p 1 = p.
Proof.
  intros Ho. rewrite (shiftr_div _ 1) by lia. change (2 ^ 1) with 2.
  pose proof (Z.div_mod p 2 ltac:(lia)). pose proof (Zmod_odd p) as Hm.
  rewrite Ho in Hm. lia.
Qed.

Section PeaksWalk.
Context {HW : HASHALGOWRITER} {NT : NODE_TYPE} {NL : NodeLaws NT}.
Variable v : CMerkleMountainView.t.
Variable MS : list Z.

Let K := vsize (CMerkleMountainView.peakMerkle v).
Let Root := hash (vat NodeDefault (merkle_at v K) 0).

Hypothesis HK : 1 <= K < 2 ^ 30.
Hypothesis HP : 1 <= vsize (CMerkleMountainView.peaks v) < 2 ^ 30.
Hypothesis Hchain1 : forall j, 0 <= j < K ->
  layer_up (merkle_at v j) = Ok (merkle_at v (j + 1)).
Hypothesis Hchain2 : forall j, 1 <= j < K -> 1 < vsize (merkle_at v j).
Hypothesis Hchain3 : vsize (merkle_at v K) <= 1.
Hypothesis HMS : MS = map vsize (CMerkleMountainView.peakMerkle v).

Lemma GetProof_peaks_unfold (fuel : nat) (layerNum layerSize p : Z) br :
  CMerkleMountainView.GetProof_peaks (S fuel) v layerNum layerSize p br =
  if (layerNum =? 0) || (1 <? layerSize) then
    let layerIndex := if layerNum =? 0 then 0 else uint32_t (layerNum - 1) in
    let src := if layerNum =? 0 then CMerkleMountainView.peaks v
               else vat [] (CMerkleMountainView.peakMerkle v) layerIndex in
    let br' :=
      if (p <? uint32_t (layerSize - 1)) || negb (Z.land p 1 =? 0) then
        if negb (Z.land p 1 =? 0)
        then br ++ CMerkleMountainView.emit 1
                     (GetProofHash (vat NodeDefault src (p - 1))
                                   (vat NodeDefault src p))
        else br ++ CMerkleMountainView.emit 0
                     (GetProofHash (vat NodeDefault src (p + 1))
                                   (vat NodeDefault src p))
      else br in
    CMerkleMountainView.GetProof_peaks fuel v (uint32_t (layerNum + 1))
      (uint32_t (vsize (vat [] (CMerkleMountainView.peakMerkle v) layerNum)))
      (Z.shiftr p 1) br'
  else Ok br.
Proof. reflexivity. Qed.

Lemma GetProofBits_peaks_unfold (fuel : nat) (e layerNum layerSize p : Z) Bits :
  CMerkleMountainView.GetProofBits_peaks (S fuel) MS e layerNum layerSize p Bits =
  if (layerNum =? uint64_t (-1)) || (1 <? layerSize) then
    let Bits' :=
      if (p <? uint64_t (layerSize - 1)) || negb (Z.land p 1 =? 0) then
        if negb (Z.land p 1 =? 0)
        then CMerkleMountainView.push_bit Bits 1 e
        else CMerkleMountainView.push_bit Bits 0 e
      else Bits in
    let layerNum' := uint64_t (layerNum + 1) in
    CMerkleMountainView.GetProofBits_peaks fuel MS e layerNum'
      (vat 0 MS layerNum') (Z.shiftr p 1) Bits'
  else Ok Bits.
Proof. reflexivity. Qed.

Lemma merkle_at_src (k : Z) :
  0 <= k < 2 ^ 31 ->
  (if k =? 0 then CMerkleMountainView.peaks v
   else vat [] (CMerkleMountainView.peakMerkle v)
          (if k =? 0 then 0 else uint32_t (k - 1)))
  = merkle_at v k.
Proof.
  intros Hk. unfold merkle_at. destruct (Z.eqb_spec k 0); [reflexivity|].
  now rewrite uint32_small by lia.
Qed.

Lemma merkle_at_next (k : Z) :
  0 <= k -> vat [] (CMerkleMountainView.peakMerkle v) k = merkle_at v (k + 1).
Proof.
  intros Hk. unfold merkle_at. destruct (Z.eqb_spec (k + 1) 0); [lia|].
  f_equal. lia.
Qed.

Lemma merkle_size (d : nat) :
  Z.of_nat d <= K ->
  1 <= vsize (merkle_at v (Z.of_nat d)) <= vsize (CMerkleMountainView.peaks v).
Proof.
  induction d as [|d IH]; intros Hd.
  - change (merkle_at v (Z.of_nat 0)) with (CMerkleMountainView.peaks v). lia.
  - specialize (IH ltac:(lia)).
    replace (Z.of_nat (S d)) with (Z.of_nat d + 1) by lia.
    pose proof (vsize_layer_up _ _ (Hchain1 (Z.of_nat d) ltac:(lia))) as Hs.
    rewrite Hs. split.
    + apply Z.div_le_lower_bound; lia.
    + assert ((vsize (merkle_at v (Z.of_nat d)) + 1) / 2
              < vsize (merkle_at v (Z.of_nat d)) + 1); [|lia].
      apply Z.div_lt_upper_bound; lia.
Qed.

Lemma vat_MS (k : Z) :
  0 <= k -> vat 0 MS k = vsize (merkle_at v (k + 1)).
Proof.
  intros Hk. rewrite <- merkle_at_next by lia. rewrite HMS. unfold vat.
  destruct (Nat.lt_ge_cases (Z.to_nat k) (length (CMerkleMountainView.peakMerkle v))).
  - rewrite nth_indep with (d' := vsize (@nil Node)) by (rewrite length_map; lia).
    now rewrite (map_nth vsize).
  - rewrite !nth_overflow by (rewrite ?length_map; lia). reflexivity.
Qed.

(** From layer [k] and position [p], the walk of [GetProof] replays to the
    hash of the single node of the last layer, and the walk of
    [GetProofBits] gives its sides. *)
Lemma peaks_walk (d : nat) : forall (k p : Z) br bits,
  k = K - Z.of_nat d -> 0 <= k ->
  0 <= p < vsize (merkle_at v k) ->
  exists w,
    CMerkleMountainView.GetProof_peaks (S d) v k (vsize (merkle_at v k)) p br
      = Ok (br ++ w) /\
    replay w (hash (vat NodeDefault (merkle_at v k) p)) = Root /\
    CMerkleMountainView.GetProofBits_peaks (S d) MS GetExtraHashCount
      (uint64_t (k - 1)) (vsize (merkle_at v k)) p bits
      = Ok (bits ++ map fst w) /\
    sides_ok w.
Proof.
  pose proof extra_nonneg as He.
  induction d as [|d IH]; intros k p br bits Hk Hk0 Hp.
  - (* the last layer *)
    assert (Ek : k = K) by lia. clear Hk. subst k.
    exists []. rewrite GetProof_peaks_unfold, GetProofBits_peaks_unfold.
    destruct (Z.eqb_spec K 0); [lia|].
    destruct (Z.ltb_spec 1 (vsize (merkle_at v K))); [lia|].
    rewrite (uint64_small (K - 1)) by lia.
    destruct (Z.eqb_spec (K - 1) (uint64_t (-1))) as [E|E];
      [change (uint64_t (-1)) with (2 ^ 64 - 1) in E; lia|].
    cbn [orb]. rewrite !app_nil_r.
    repeat split; [|constructor].
    unfold Root. cbn. f_equal. f_equal. lia.
  - assert (HkK : k < K) by lia.
    pose proof (merkle_size (Z.to_nat k) ltac:(lia)) as Hsz.
    pose proof (merkle_size (Z.to_nat (k + 1)) ltac:(lia)) as Hsz'.
    rewrite Z2Nat.id in Hsz, Hsz' by lia.
    pose proof (Hchain1 k ltac:(lia)) as Hup.
    pose proof (vsize_layer_up _ _ Hup) as Hnext.
    set (s := vsize (merkle_at v k)) in *.
    assert (Hcond : (k =? 0) || (1 <? s) = true).
    { destruct (Z.eqb_spec k 0); [reflexivity|]. cbn [orb].
      apply Z.ltb_lt. apply Hchain2. lia. }
    assert (Hcond' : (uint64_t (k - 1) =? uint64_t (-1)) || (1 <? s) = true).
    { destruct (Z.eqb_spec k 0) as [->|Hne]; [reflexivity|].
      rewrite orb_comm. cbn [orb] in Hcond. now rewrite Hcond. }
    rewrite GetProof_peaks_unfold, GetProofBits_peaks_unfold, Hcond, Hcond'.
    cbv zeta. rewrite merkle_at_src by lia. rewrite merkle_at_next by lia.
    rewrite (uint32_small (k + 1)), (uint32_small (vsize _)),
      (uint32_small (s - 1)), (uint64_small (s - 1)) by lia.
    assert (Hnum : uint64_t (uint64_t (k - 1) + 1) = k).
    { destruct (Z.eq_dec k 0) as [->|Hne]; [reflexivity|].
      rewrite (uint64_small (k - 1)) by lia. rewrite uint64_small; lia. }
    assert (Hnum' : uint64_t (k + 1 - 1) = k) by (rewrite uint64_small; lia).
    rewrite Hnum. rewrite vat_MS by lia.
    assert (Hp' : 0 <= Z.shiftr p 1 < vsize (merkle_at v (k + 1))).
    { rewrite Hnext. apply half_lt_half_up. exact Hp. }
    rewrite odd_test.
    destruct (Z.odd p) eqn:Hodd; cbn [orb].
    + (* the node on the left is hashed in *)
      rewrite orb_true_r.
      pose proof (odd_half p Hodd) as Hh.
      pose proof (layer_up_vat _ _ (Z.shiftr p 1) Hup ltac:(lia) ltac:(lia)) as Hpar.
      rewrite Hh in Hpar. replace (p - 1 + 1) with p in Hpar by lia.
      destruct (IH (k + 1) (Z.shiftr p 1)
                  (br ++ CMerkleMountainView.emit 1
                     (GetProofHash (vat NodeDefault (merkle_at v k) (p - 1))
                                   (vat NodeDefault (merkle_at v k) p)))
                  (CMerkleMountainView.push_bit bits 1 GetExtraHashCount)
                  ltac:(lia) ltac:(lia) Hp') as (w & Hw & Hr & Hb & Hs).
      rewrite Hnum' in Hb.
      eexists. rewrite Hw, Hb. repeat split.
      * now rewrite <- app_assoc.
      * rewrite replay_app. rewrite (proof_right _ _ _ Hpar). exact Hr.
      * unfold CMerkleMountainView.push_bit. rewrite map_app.
        rewrite (map_fst_emit 1 GetExtraHashCount _ He (proof_hash_length _ _)).
        now rewrite <- app_assoc.
      * apply sides_ok_app; [apply sides_ok_emit; now right|exact Hs].
    + destruct (Z.ltb_spec p (s - 1)) as [Hlt|Hge]; cbn [orb].
      * (* the node on the right is hashed in *)
        pose proof (even_half p Hodd) as Hh.
        pose proof (layer_up_vat _ _ (Z.shiftr p 1) Hup ltac:(lia) ltac:(lia)) as Hpar.
        rewrite Hh in Hpar.
        destruct (IH (k + 1) (Z.shiftr p 1)
                    (br ++ CMerkleMountainView.emit 0
                       (GetProofHash (vat NodeDefault (merkle_at v k) (p + 1))
                                     (vat NodeDefault (merkle_at v k) p)))
                    (CMerkleMountainView.push_bit bits 0 GetExtraHashCount)
                    ltac:(lia) ltac:(lia) Hp') as (w & Hw & Hr & Hb & Hs).
      rewrite Hnum' in Hb.
        eexists. rewrite Hw, Hb. repeat split.
        -- now rewrite <- app_assoc.
        -- rewrite replay_app. rewrite (proof_left _ _ _ Hpar). exact Hr.
        -- unfold CMerkleMountainView.push_bit. rewrite map_app.
           rewrite (map_fst_emit 0 GetExtraHashCount _ He (proof_hash_length _ _)).
           now rewrite <- app_assoc.
        -- apply sides_ok_app; [apply sides_ok_emit; now left|exact Hs].
      * (* the last node of an odd layer is carried up *)
        assert (Hps : p = s - 1) by lia.
        assert (Hso : Z.odd s = true).
        { replace s with (p + 1) by lia. rewrite Z.odd_add, Hodd. reflexivity. }
        pose proof (layer_up_carry _ _ Hup Hso) as Hcar. fold s in Hcar.
        rewrite <- Hps in Hcar.
        pose proof (even_half p Hodd) as Hh.
        assert (Hq : p / 2 = Z.shiftr p 1)
          by (rewrite (shiftr_div _ 1) by lia; reflexivity).
        rewrite Hq in Hcar.
        destruct (IH (k + 1) (Z.shiftr p 1) br bits
                    ltac:(lia) ltac:(lia) Hp') as (w & Hw & Hr & Hb & Hs).
      rewrite Hnum' in Hb.
        exists w. rewrite Hw, Hb. repeat split; auto.
        rewrite <- Hcar. exact Hr.
Qed.
End PeaksWalk.

(** ** The walk up the mountain *)

Lemma zrange_head (lo hi : Z) : lo <= hi -> zrange lo hi = lo :: zrange (lo + 1) hi.
Proof.
  intros. unfold zrange.
  replace (Z.to_nat (hi + 1 - lo)) with (S (Z.to_nat (hi + 1 - (lo + 1)))) by lia.
  cbn [seq map]. f_equal; [lia|].
  rewrite <- seq_shift, map_map. apply map_ext. intros; lia.
Qed.

Lemma shiftr_top (n : Z) : 0 < n -> Z.shiftr n (Z.log2 n) = 1.
Proof.
  intros Hn. pose proof (Z.log2_nonneg n).
  assert (1 <= Z.shiftr n (Z.log2 n)) by (apply shiftr_log2_ge; lia).
  assert (~ 1 < Z.shiftr n (Z.log2 n)) by (rewrite shiftr_log2_gt; lia).
  lia.
Qed.

Lemma nth_map_any {A B} (f : A -> B) (l : list A) (i : nat) (d : A) (d' : B) :
  (i < length l)%nat -> nth i (map f l) d' = f (nth i l d).
Proof.
  intros. rewrite nth_indep with (d' := f d) by (rewrite length_map; lia).
  apply map_nth.
Qed.

Section MountainWalk.
Context {HW : HASHALGOWRITER} {NT : NODE_TYPE} {NL : NodeLaws NT}.
Variable leaves : list Node.
Variable v : CMerkleMountainView.t.
Variable n : Z.
Variable MS : list Z.

Let K := vsize (CMerkleMountainView.peakMerkle v).
Let Root := hash (vat NodeDefault (merkle_at v K) 0).
Let PH := rev (filter (Z.testbit n) (zrange 0 (Z.log2 n))).
Let Sizes := map (fun h => Z.shiftr n (Z.of_nat h)) (seq 0 (S (Z.to_nat (Z.log2 n)))).

Hypothesis Hok : levels_ok leaves.
Hypothesis HN : vsize leaves < 2 ^ 32.
Hypothesis Hn : 0 < n <= vsize leaves.
Hypothesis Hmmr : CMerkleMountainView.mmr v = range_of leaves.
Hypothesis Hsizes : CMerkleMountainView.sizes v = Sizes.
Hypothesis Hpeaks : CMerkleMountainView.peaks v
  = map (fun ht => CMerkleMountainRange.GetNode (range_of leaves) ht
                     (Z.shiftr n ht - 1)) PH.
Hypothesis Hnodup : NoDup (map hash (CMerkleMountainView.peaks v)).
Hypothesis HK : 1 <= K < 2 ^ 30.
Hypothesis HP : 1 <= vsize (CMerkleMountainView.peaks v) < 2 ^ 30.
Hypothesis Hchain1 : forall j, 0 <= j < K ->
  layer_up (merkle_at v j) = Ok (merkle_at v (j + 1)).
Hypothesis Hchain2 : forall j, 1 <= j < K -> 1 < vsize (merkle_at v j).
Hypothesis Hchain3 : vsize (merkle_at v K) <= 1.
Hypothesis HMS : MS = map vsize (CMerkleMountainView.peakMerkle v).

Lemma node_at (l i : Z) :
  0 <= l -> 0 <= i ->
  CMerkleMountainRange.GetNode (CMerkleMountainView.mmr v) l i
  = vat NodeDefault (level (Z.to_nat l) leaves) i.
Proof. intros. rewrite Hmmr. now apply GetNode_range_of. Qed.

Lemma size_at (l : Z) :
  0 <= l <= Z.log2 n -> vat 0 (CMerkleMountainView.sizes v) l = Z.shiftr n l.
Proof. intros. rewrite Hsizes. now apply vat_sizes. Qed.

Lemma Sizes_at (l : Z) : 0 <= l <= Z.log2 n -> vat 0 Sizes l = Z.shiftr n l.
Proof. intros. now apply vat_sizes. Qed.

Lemma parent_at (l i : Z) :
  0 <= l -> 0 <= i -> 2 * i + 1 < Z.shiftr (vsize leaves) l ->
  CreateParentNode (vat NodeDefault (level (Z.to_nat l) leaves) (2 * i))
                   (vat NodeDefault (level (Z.to_nat l) leaves) (2 * i + 1))
  = Ok (vat NodeDefault (level (Z.to_nat (l + 1)) leaves) i).
Proof.
  intros Hl Hi Hlt.
  replace (Z.to_nat (l + 1)) with (S (Z.to_nat l)) by lia. cbn [level].
  assert (Hsz : 2 * i + 1 < vsize (level (Z.to_nat l) leaves))
    by (rewrite vsize_level, Z2Nat.id by lia; exact Hlt).
  rewrite (pairs_ok_vat _ (Hok (Z.to_nat l)) i Hi Hsz).
  now rewrite vat_pairs.
Qed.

Lemma shiftr_view_le (l : Z) : 0 <= l -> Z.shiftr n l <= Z.shiftr (vsize leaves) l.
Proof.
  intros. rewrite !shiftr_div by lia.
  apply Z.div_le_mono; [apply Z.pow_pos_nonneg|]; lia.
Qed.

(** A node without a sibling in the view is a peak; the walk goes on in
    the peak merkle tree from its place among the peaks. *)
Lemma peak_case (l p : Z) (rest : list Z) br bits :
  0 <= l <= Z.log2 n -> 0 <= p -> Z.odd p = false -> p + 1 = Z.shiftr n l ->
  exists w,
    CMerkleMountainView.GetProof_loop v (l :: rest) p br = Ok (br ++ w) /\
    replay w (hash (vat NodeDefault (level (Z.to_nat l) leaves) p)) = Root /\
    CMerkleMountainView.GetProofBits_loop Sizes PH MS GetExtraHashCount
      (l :: rest) p bits = Ok (bits ++ map fst w) /\
    sides_ok w.
Proof.
  intros Hl Hp Hodd Hs.
  cbn [CMerkleMountainView.GetProof_loop CMerkleMountainView.GetProofBits_loop].
  rewrite !odd_test, Hodd. cbn [negb].
  rewrite size_at, Sizes_at by lia.
  assert (Hsl : Z.shiftr n l <= n) by (apply shiftr_le; lia).
  rewrite uint64_small by lia.
  destruct (Z.ltb_spec (p + 1) (Z.shiftr n l)) as [|_]; [lia|].
  (* the place of the peak *)
  assert (Hin : In l PH).
  { unfold PH. rewrite <- in_rev. apply filter_In. split; [apply in_zrange; lia|].
    rewrite Z.testbit_odd, <- Hs. rewrite Z.odd_add, Hodd. reflexivity. }
  destruct (In_nth _ _ 0 Hin) as (i & Hi & Hnth).
  assert (Hlen : length (CMerkleMountainView.peaks v) = length PH)
    by (rewrite Hpeaks; apply length_map).
  assert (Hpk : vat NodeDefault (CMerkleMountainView.peaks v) (Z.of_nat i)
                = vat NodeDefault (level (Z.to_nat l) leaves) p).
  { unfold vat at 1. rewrite Nat2Z.id, Hpeaks.
    rewrite (nth_map_any _ _ _ 0) by lia.
    rewrite Hnth. rewrite GetNode_range_of by lia. f_equal. lia. }
  assert (Hfp : CMerkleMountainView.find_peak
                  (hash (CMerkleMountainRange.GetNode (CMerkleMountainView.mmr v) l p))
                  (CMerkleMountainView.peaks v) 0 = Z.of_nat i).
  { rewrite find_peak_index, node_at by lia. rewrite <- Hpk.
    replace (hash (vat NodeDefault (CMerkleMountainView.peaks v) (Z.of_nat i)))
      with (nth i (map hash (CMerkleMountainView.peaks v)) 0).
    - rewrite find_index_nth; [lia|exact Hnodup|rewrite length_map; lia].
    - unfold vat. rewrite Nat2Z.id. apply nth_map_any. lia. }
  assert (Hfi : CMerkleMountainView.find_index l PH 0 = Z.of_nat i).
  { rewrite <- Hnth. rewrite find_index_nth; [lia| |exact Hi].
    apply StronglySorted_gt_NoDup.
    pose proof (rev_filter_zrange_desc (Z.testbit n) 0 (S (Z.to_nat (Z.log2 n)))) as H.
    replace (0 + Z.of_nat (S (Z.to_nat (Z.log2 n))) - 1) with (Z.log2 n) in H by lia.
    exact H. }
  rewrite Hfp, Hfi.
  assert (HvP : vsize PH = vsize (CMerkleMountainView.peaks v))
    by (unfold vsize; now rewrite Hlen).
  rewrite HvP.
  destruct (Z.ltb_spec (Z.of_nat i) (vsize (CMerkleMountainView.peaks v))) as [Hlt|Hge];
    [|unfold vsize in Hge; lia].
  cbn [assert bind].
  rewrite (uint32_small (vsize (CMerkleMountainView.peaks v))) by lia.
  assert (HlenMS : length MS = length (CMerkleMountainView.peakMerkle v))
    by (rewrite HMS; apply length_map).
  rewrite HlenMS.
  destruct (peaks_walk v MS HK HP Hchain1 Hchain2 Hchain3 HMS
              (length (CMerkleMountainView.peakMerkle v)) 0 (Z.of_nat i) br bits)
    as (w & Hw & Hr & Hb & Hso).
  - unfold vsize. lia.
  - lia.
  - change (merkle_at v 0) with (CMerkleMountainView.peaks v). lia.
  - change (merkle_at v 0) with (CMerkleMountainView.peaks v) in Hw, Hr, Hb.
    change (uint64_t (0 - 1)) with (uint64_t (-1)) in Hb.
    exists w. rewrite Hw, Hb. repeat split; auto.
    rewrite <- Hpk. exact Hr.
Qed.

(** From height [l] and position [p], the walk of [GetProof] replays to
    the root, and the walk of [GetProofBits] gives its sides. *)
Lemma mountain_walk (d : nat) : forall (l p : Z) br bits,
  l = Z.log2 n - Z.of_nat d -> 0 <= l ->
  0 <= p < Z.shiftr n l ->
  exists w,
    CMerkleMountainView.GetProof_loop v (zrange l (Z.log2 n)) p br = Ok (br ++ w) /\
    replay w (hash (vat NodeDefault (level (Z.to_nat l) leaves) p)) = Root /\
    CMerkleMountainView.GetProofBits_loop Sizes PH MS GetExtraHashCount
      (zrange l (Z.log2 n)) p bits = Ok (bits ++ map fst w) /\
    sides_ok w.
Proof.
  pose proof extra_nonneg as He.
  induction d as [|d IH]; intros l p br bits Hl Hl0 Hp.
  - assert (El : l = Z.log2 n) by lia. clear Hl. subst l.
    rewrite shiftr_top in Hp by lia. assert (p = 0) by lia. subst p.
    rewrite zrange_single. apply peak_case; try lia; [reflexivity|].
    now rewrite shiftr_top by lia.
  - rewrite zrange_head by lia.
    assert (Hsl : Z.shiftr n l <= n) by (apply shiftr_le; lia).
    assert (Hnext : Z.shiftr n (l + 1) = Z.shiftr n l / 2) by (apply shiftr_succ; lia).
    pose proof (shiftr_view_le l Hl0) as Hvl.
    destruct (Z.odd p) eqn:Hodd.
    + (* the left sibling is hashed in *)
      cbn [CMerkleMountainView.GetProof_loop CMerkleMountainView.GetProofBits_loop].
      rewrite !odd_test, Hodd. cbn [negb].
      pose proof (odd_half p Hodd) as Hh.
      assert (Hp' : 0 <= Z.shiftr p 1 < Z.shiftr n (l + 1)).
      { rewrite Hnext. rewrite (shiftr_div p 1) by lia. change (2 ^ 1) with 2.
        split; [apply Z.div_pos; lia|].
        rewrite (shiftr_div p 1) in Hh by lia. change (2 ^ 1) with 2 in Hh.
        pose proof (Z.div_mod (Z.shiftr n l) 2 ltac:(lia)).
        pose proof (Z.mod_pos_bound (Z.shiftr n l) 2 ltac:(lia)). lia. }
      rewrite uint64_small by lia. rewrite !node_at by lia.
      pose proof (parent_at l (Z.shiftr p 1) Hl0 ltac:(lia) ltac:(lia)) as Hpar.
      rewrite Hh in Hpar. replace (p - 1 + 1) with p in Hpar by lia.
      destruct (IH (l + 1) (Z.shiftr p 1)
                  (br ++ CMerkleMountainView.emit 1
                     (GetProofHash (vat NodeDefault (level (Z.to_nat l) leaves) (p - 1))
                                   (vat NodeDefault (level (Z.to_nat l) leaves) p)))
                  (CMerkleMountainView.push_bit bits 1 GetExtraHashCount)
                  ltac:(lia) ltac:(lia) Hp') as (w & Hw & Hr & Hb & Hs).
      eexists. rewrite Hw, Hb. repeat split.
      * now rewrite <- app_assoc.
      * rewrite replay_app. rewrite (proof_right _ _ _ Hpar). exact Hr.
      * unfold CMerkleMountainView.push_bit. rewrite map_app.
        rewrite (map_fst_emit 1 GetExtraHashCount _ He (proof_hash_length _ _)).
        now rewrite <- app_assoc.
      * apply sides_ok_app; [apply sides_ok_emit; now right|exact Hs].
    + destruct (Z.ltb_spec (p + 1) (Z.shiftr n l)) as [Hlt|Hge].
      * (* the right sibling is hashed in *)
        cbn [CMerkleMountainView.GetProof_loop CMerkleMountainView.GetProofBits_loop].
        rewrite !odd_test, Hodd. cbn [negb].
        rewrite size_at, Sizes_at by lia.
        rewrite !uint64_small by lia.
        destruct (Z.ltb_spec (p + 1) (Z.shiftr n l)) as [_|]; [|lia].
        pose proof (even_half p Hodd) as Hh.
        assert (Hp' : 0 <= Z.shiftr p 1 < Z.shiftr n (l + 1)).
        { rewrite Hnext. rewrite (shiftr_div p 1) by lia. change (2 ^ 1) with 2.
          split; [apply Z.div_pos; lia|].
          rewrite (shiftr_div p 1) in Hh by lia. change (2 ^ 1) with 2 in Hh.
          assert (p / 2 + 1 <= Z.shiftr n l / 2); [|lia].
          pose proof (Z.div_mod (Z.shiftr n l) 2 ltac:(lia)).
        pose proof (Z.mod_pos_bound (Z.shiftr n l) 2 ltac:(lia)). lia. }
        rewrite !node_at by lia.
        pose proof (parent_at l (Z.shiftr p 1) Hl0 ltac:(lia) ltac:(lia)) as Hpar.
        rewrite Hh in Hpar.
        destruct (IH (l + 1) (Z.shiftr p 1)
                    (br ++ CMerkleMountainView.emit 0
                       (GetProofHash (vat NodeDefault (level (Z.to_nat l) leaves) (p + 1))
                                     (vat NodeDefault (level (Z.to_nat l) leaves) p)))
                    (CMerkleMountainView.push_bit bits 0 GetExtraHashCount)
                    ltac:(lia) ltac:(lia) Hp') as (w & Hw & Hr & Hb & Hs).
        eexists. rewrite Hw, Hb. repeat split.
        -- now rewrite <- app_assoc.
        -- rewrite replay_app. rewrite (proof_left _ _ _ Hpar). exact Hr.
        -- unfold CMerkleMountainView.push_bit. rewrite map_app.
           rewrite (map_fst_emit 0 GetExtraHashCount _ He (proof_hash_length _ _)).
           now rewrite <- app_assoc.
        -- apply sides_ok_app; [apply sides_ok_emit; now left|exact Hs].
      * apply peak_case; try lia. exact Hodd.
Qed.
End MountainWalk.

(** ** The proof of a position against the root *)

Lemma nth_last {A} (l : list A) (d : A) : nth (length l - 1) l d = last l d.
Proof.
  induction l as [|a l IH]; [reflexivity|].
  destruct l as [|b l]; [reflexivity|].
  cbn [length Nat.sub] in *. rewrite Nat.sub_0_r in IH.
  change (nth (S (length l)) (a :: b :: l) d) with (nth (length l) (b :: l) d).
  rewrite IH. reflexivity.
Qed.

Section Layers.
Context {NT : NODE_TYPE}.

(** What [GetRoot] leaves in a fresh view. *)
Lemma GetRoot_layers (m : CMerkleMountainRange.t) (viewSize : Z) root v1 :
  0 <= viewSize -> 0 < CMerkleMountainRange.size m < 2 ^ 64 - 1 ->
  let v := CMerkleMountainView.new m viewSize in
  let v0 := CMerkleMountainView.CalcPeaks v false in
  CMerkleMountainView.GetRoot v = Ok (root, v1) ->
  exists first rest,
    v1 = CMerkleMountainView.mk m (CMerkleMountainView.sizes v)
           (CMerkleMountainView.peaks v0) (first :: rest) /\
    root = hash (vat NodeDefault (last (first :: rest) []) 0) /\
    layer_up (CMerkleMountainView.peaks v0) = Ok first /\
    tower_of first rest.
Proof.
  intros Hv Hm v v0 Hroot.
  pose proof (view_size_pos m viewSize Hv ltac:(lia)) as Hpos.
  destruct (CalcPeaks_new m viewSize false Hv Hm) as (_ & _ & Hsz & Hmmr & Hpm).
  pose proof (peaks_new_bounds m viewSize false Hv Hm) as Hb.
  fold v in Hpos, Hsz, Hmmr, Hpm, Hb. fold v0 in Hsz, Hmmr, Hpm, Hb.
  unfold CMerkleMountainView.GetRoot in Hroot. fold v v0 in Hroot.
  destruct (Z.ltb_spec 0 (CMerkleMountainView.size v)); [|lia].
  change (vsize (CMerkleMountainView.peakMerkle v) =? 0) with true in Hroot.
  cbn [andb] in Hroot. rewrite Hpm, Hsz, Hmmr in Hroot.
  destruct (CMerkleMountainView.GetRoot_loop _ _ _ _ _) as [pm|] eqn:Hloop;
    [|discriminate].
  cbn [bind] in Hroot.
  pose proof (f_equal (fun r => match r with Ok (a, _) => a | Throw _ => root end) Hroot) as Hr.
  pose proof (f_equal (fun r => match r with Ok (_, b) => b | Throw _ => v1 end) Hroot) as Hv1.
  cbv beta iota in Hr, Hv1. clear Hroot.
  assert (Hb' : 1 <= vsize (CMerkleMountainView.peaks v0) < 2 ^ 30) by lia.
  destruct (GetRoot_loop_layers _ _ Hb' Hloop) as (first & rest & Epm & Hup & Htw).
  subst pm. exists first, rest. repeat split; auto.
Qed.

(** The layers of the peak merkle tree, one above the other. *)
Lemma layers_chain (v : CMerkleMountainView.t) (first : list Node)
    (rest : list (list Node)) :
  CMerkleMountainView.peakMerkle v = first :: rest ->
  layer_up (CMerkleMountainView.peaks v) = Ok first ->
  tower_of first rest ->
  let K := vsize (CMerkleMountainView.peakMerkle v) in
  (forall j, 0 <= j < K -> layer_up (merkle_at v j) = Ok (merkle_at v (j + 1))) /\
  (forall j, 1 <= j < K -> 1 < vsize (merkle_at v j)) /\
  vsize (merkle_at v K) <= 1 /\
  merkle_at v K = last (first :: rest) [] /\
  K = 1 + vsize rest.
Proof.
  intros Hpm Hup Htw K.
  destruct (tower_of_index _ _ Htw) as [Hidx Hlast].
  assert (HK : K = 1 + vsize rest).
  { unfold K. rewrite Hpm. unfold vsize. cbn [length]. lia. }
  assert (Hat : forall j, 1 <= j -> merkle_at v j = nth (Z.to_nat (j - 1)) (first :: rest) []).
  { intros j Hj. unfold merkle_at. destruct (Z.eqb_spec j 0); [lia|].
    rewrite Hpm. reflexivity. }
  assert (HatK : merkle_at v K = last (first :: rest) []).
  { rewrite Hat by (unfold vsize in HK; lia).
    replace (Z.to_nat (K - 1)) with (length (first :: rest) - 1)%nat
      by (unfold vsize in HK; cbn [length]; lia).
    apply nth_last. }
  repeat split.
  - intros j Hj. destruct (Z.eq_dec j 0) as [->|Hne].
    + change (0 + 1) with 1. rewrite (Hat 1) by lia. exact Hup.
    + rewrite !Hat by lia.
      replace (Z.to_nat (j + 1 - 1)) with (S (Z.to_nat (j - 1))) by lia.
      apply Hidx. unfold vsize in HK. lia.
  - intros j Hj. rewrite Hat by lia. apply Hidx. unfold vsize in HK. lia.
  - rewrite HatK. exact Hlast.
  - exact HatK.
  - exact HK.
Qed.
End Layers.

(** ** The bits of position 0 *)

Lemma zero_peaks (MS : list Z) (e : Z) (fuel : nat) :
  forall layerNum layerSize bits out,
  Forall (fun b => b = 0) bits ->
  CMerkleMountainView.GetProofBits_peaks fuel MS e layerNum layerSize 0 bits = Ok out ->
  Forall (fun b => b = 0) out.
Proof.
  induction fuel as [|fuel IH]; intros layerNum layerSize bits out Hb Hout.
  - cbn in Hout. destruct (_ || _); [discriminate|]. now injection Hout as <-.
  - rewrite GetProofBits_peaks_unfold in Hout.
    destruct (_ || _); [|now injection Hout as <-].
    cbv zeta in Hout. change (Z.land 0 1 =? 0) with true in Hout.
    change (Z.shiftr 0 1) with 0 in Hout. cbn [negb] in Hout.
    rewrite orb_false_r in Hout.
    eapply IH; [|exact Hout].
    destruct (0 <? _); [|exact Hb].
    unfold CMerkleMountainView.push_bit. apply Forall_app. split; [exact Hb|].
    constructor; [reflexivity|]. apply Forall_forall. intros x Hx.
    now apply repeat_spec in Hx.
Qed.

Lemma zero_walk (Sizes PH MS : list Z) (e : Z) (ls : list Z) :
  forall bits out,
  (forall l, In l ls -> vat 0 Sizes l <= 1 -> CMerkleMountainView.find_index l PH 0 = 0) ->
  Forall (fun b => b = 0) bits ->
  CMerkleMountainView.GetProofBits_loop Sizes PH MS e ls 0 bits = Ok out ->
  Forall (fun b => b = 0) out.
Proof.
  induction ls as [|l ls IH]; intros bits out Hfind Hb Hout.
  - cbn in Hout. now injection Hout as <-.
  - cbn [CMerkleMountainView.GetProofBits_loop] in Hout.
    change (Z.land 0 1 =? 0) with true in Hout. cbn [negb] in Hout.
    change (Z.shiftr 0 1) with 0 in Hout. change (uint64_t (0 + 1)) with 1 in Hout.
    destruct (Z.ltb_spec 1 (vat 0 Sizes l)) as [Hlt|Hge].
    + eapply IH; [| |exact Hout].
      * intros l' Hl'. apply Hfind. now right.
      * unfold CMerkleMountainView.push_bit. apply Forall_app. split; [exact Hb|].
        constructor; [reflexivity|]. apply Forall_forall. intros x Hx.
        now apply repeat_spec in Hx.
    + rewrite (Hfind l (or_introl eq_refl) Hge) in Hout.
      destruct (0 <? vsize PH); [|discriminate]. cbn [assert bind] in Hout.
      eapply zero_peaks; eassumption.
Qed.

Lemma peak_heights_head (n : Z) :
  0 < n ->
  exists tl, rev (filter (Z.testbit n) (zrange 0 (Z.log2 n))) = Z.log2 n :: tl.
Proof.
  intros Hn. pose proof (Z.log2_nonneg n).
  assert (E : zrange 0 (Z.log2 n) = zrange 0 (Z.log2 n - 1) ++ [Z.log2 n]).
  { pose proof (zrange_snoc 0 (Z.log2 n - 1) ltac:(lia)) as Hs.
    replace (Z.log2 n - 1 + 1) with (Z.log2 n) in Hs by lia. exact Hs. }
  rewrite E, filter_app, rev_app_distr. cbn [filter].
  rewrite Z.bit_log2 by lia. cbn [rev app]. eexists. reflexivity.
Qed.

Lemma pack_bits_zero (bits : list Z) :
  Forall (fun b => b = 0) bits -> pack_bits bits = 0.
Proof.
  induction 1 as [|b bits Hb _ IH]; [reflexivity|].
  cbn [pack_bits]. rewrite IH, Hb. reflexivity.
Qed.

Section RoundTrip.
Context {HW : HASHALGOWRITER} {NT : NODE_TYPE} {NL : NodeLaws NT}.

Lemma sizes_new_head (m : CMerkleMountainRange.t) (viewSize : Z) :
  let v := CMerkleMountainView.new m viewSize in
  CMerkleMountainView.sizes v
  = CMerkleMountainView.size v :: halving 64 (Z.shiftr (CMerkleMountainView.size v) 1).
Proof. cbv zeta. rewrite view_size_new. reflexivity. Qed.

(** The walk of [GetProof] on a fresh view of a built range: what it
    records replays from the hash of the leaf to the root, and
    [GetProofBits] gives the sides it records. *)
Lemma walk_spec (leaves : list Node) (viewSize pos : Z) root v1 :
  levels_ok leaves -> 0 < vsize leaves < 2 ^ 32 -> 0 <= viewSize ->
  let v := CMerkleMountainView.new (range_of leaves) viewSize in
  let n := CMerkleMountainView.size v in
  let leaf := vat NodeDefault leaves pos in
  let e := GetExtraHashCount in
  0 <= pos < n ->
  CMerkleMountainView.GetRoot v = Ok (root, v1) ->
  NoDup (map hash (CMerkleMountainView.peaks (CMerkleMountainView.CalcPeaks v false))) ->
  exists W,
    CMerkleMountainView.GetProof_walk v pos
      = Ok (map (fun x => (0, x)) (GetLeafHash leaf) ++ W, v1) /\
    replay W (hash leaf) = root /\
    sides_ok W /\
    CMerkleMountainView.size v1 = n /\
    (0 < pos -> CMerkleMountainView.ProofBits e pos n
                = Ok (repeat 0 (Z.to_nat e) ++ map fst W)) /\
    (pos = 0 -> Forall (fun b => b = 0) (map fst W)).
Proof.
  intros Hok HN Hvs v n leaf e Hpos Hroot Hnd.
  pose proof extra_nonneg as He. fold e in He.
  assert (Hsm : CMerkleMountainRange.size (range_of leaves) = vsize leaves)
    by (apply size_range_of; lia).
  assert (Hm : 0 < CMerkleMountainRange.size (range_of leaves) < 2 ^ 64 - 1) by lia.
  destruct (sizes_new (range_of leaves) viewSize Hvs ltac:(lia)) as [Hn Hsizes].
  fold v in Hn, Hsizes. fold n in Hn, Hsizes.
  destruct (CalcPeaks_new (range_of leaves) viewSize false Hvs Hm) as (Hpeaks & _).
  fold v in Hpeaks. fold n in Hpeaks.
  pose proof (peaks_new_bounds (range_of leaves) viewSize false Hvs Hm) as Hpb.
  fold v in Hpb.
  destruct (GetRoot_layers (range_of leaves) viewSize root v1 Hvs Hm Hroot)
    as (first & rest & Ev1 & Eroot & Hup & Htw).
  fold v in Ev1, Hup.
  set (v0 := CMerkleMountainView.CalcPeaks v false) in *.
  assert (Epm : CMerkleMountainView.peakMerkle v1 = first :: rest) by (now subst v1).
  assert (Epk : CMerkleMountainView.peaks v1 = CMerkleMountainView.peaks v0) by (now subst v1).
  assert (Esz : CMerkleMountainView.sizes v1 = CMerkleMountainView.sizes v) by (now subst v1).
  assert (Emm : CMerkleMountainView.mmr v1 = range_of leaves) by (now subst v1).
  destruct (layers_chain v1 first rest Epm ltac:(now rewrite Epk) Htw)
    as (Hc1 & Hc2 & Hc3 & HcK & HK).
  pose proof (tower_of_small _ _ Htw) as Hsmall.
  pose proof (vsize_layer_up _ _ Hup) as Hfirst.
  pose proof (vsize_nonneg rest) as Hrest.
  assert (Hfb : vsize first <= 64).
  { rewrite Hfirst. apply Z.div_le_upper_bound; lia. }
  pose proof (Z.log2_nonneg n) as Hlog.
  destruct (mountain_walk leaves v1 n (map vsize (CMerkleMountainView.peakMerkle v1))
              Hok ltac:(lia) ltac:(lia) Emm ltac:(now rewrite Esz)
              ltac:(now rewrite Epk) ltac:(now rewrite Epk) ltac:(lia)
              ltac:(rewrite Epk; lia) Hc1 Hc2 Hc3 eq_refl
              (Z.to_nat (Z.log2 n)) 0 pos
              (map (fun x => (0, x)) (GetLeafHash leaf)) (repeat 0 (Z.to_nat e))
              ltac:(lia) ltac:(lia) ltac:(now rewrite Z.shiftr_0_r))
    as (W & Hw & Hr & Hbits & Hso).
  change (level (Z.to_nat 0) leaves) with leaves in Hr. fold leaf in Hr.
  rewrite HcK in Hr. rewrite <- Eroot in Hr.
  exists W.
  assert (Hlen : vsize (CMerkleMountainView.sizes v) - 1 = Z.log2 n).
  { rewrite Hsizes. unfold vsize. rewrite length_map, length_seq. lia. }
  assert (Hsize1 : CMerkleMountainView.size v1 = n).
  { unfold CMerkleMountainView.size at 1. rewrite Esz. reflexivity. }
  split; [|split; [exact Hr|split; [exact Hso|split; [exact Hsize1|split]]]].
  - unfold CMerkleMountainView.GetProof_walk. rewrite Hroot. cbn [bind snd].
    rewrite Emm. cbn [range_of CMerkleMountainRange.layer0].
    rewrite (chunked_get _ leaves) by (try apply chunked_layer_of; lia).
    cbn [bind]. fold leaf. rewrite Esz, Hlen, Hw. reflexivity.
  - intros Hp0. unfold CMerkleMountainView.ProofBits.
    destruct (Z.ltb_spec 0 pos); [|lia]. destruct (Z.ltb_spec pos n); [|lia].
    cbn [andb]. cbv zeta.
    pose proof (sizes_new_head (range_of leaves) viewSize) as Hhead.
    cbv zeta in Hhead. fold v in Hhead. fold n in Hhead.
    rewrite <- Hhead, Hsizes.
    pose proof (PeakIndexes_spec n ltac:(lia)) as HPI. cbv zeta in HPI.
    rewrite HPI. clear HPI.
    rewrite <- Hsizes, Hlen, Hsizes.
    assert (HlenP : length (rev (filter (Z.testbit n) (zrange 0 (Z.log2 n))))
                    = length (CMerkleMountainView.peaks v0))
      by (rewrite Hpeaks; symmetry; apply length_map).
    assert (HvP : vsize (rev (filter (Z.testbit n) (zrange 0 (Z.log2 n))))
                  = vsize (CMerkleMountainView.peaks v0))
      by (unfold vsize; now rewrite HlenP).
    rewrite HlenP, HvP.
    assert (Hpb' : 1 <= vsize (CMerkleMountainView.peaks v0) < 2 ^ 30) by lia.
    rewrite (MerkleSizes_spec _ first rest Hpb' Hup Htw).
    rewrite Epm in Hbits. exact Hbits.
  - intros ->.
    assert (Hz : Forall (fun b => b = 0) (repeat 0 (Z.to_nat e) ++ map fst W)).
    { eapply zero_walk; [| |exact Hbits].
      - intros l Hl Hle. apply in_zrange in Hl. rewrite vat_sizes in Hle by lia.
        assert (l = Z.log2 n).
        { destruct (Z.eq_dec l (Z.log2 n)); [assumption|].
          assert (1 < Z.shiftr n l) by (apply shiftr_log2_gt; lia). lia. }
        subst l. destruct (peak_heights_head n ltac:(lia)) as [tl ->].
        cbn [CMerkleMountainView.find_index]. now rewrite Z.eqb_refl.
      - apply Forall_forall. intros x Hx. now apply repeat_spec in Hx. }
    apply Forall_app in Hz. apply Hz.
Qed.
End RoundTrip.

(** ** The node types keep the laws of the walks *)

Lemma plain_node_laws {HW : HASHALGOWRITER} : NodeLaws CMMRNode_type.
Proof.
  constructor.
  - cbn. lia.
  - reflexivity.
  - reflexivity.
  - intros l r p Hp. cbn in Hp. injection Hp as <-. reflexivity.
  - intros l r p Hp. cbn in Hp. injection Hp as <-. reflexivity.
Qed.

Lemma power_node_laws {HW : HASHALGOWRITER} : NodeLaws CMMRPowerNode_type.
Proof.
  constructor.
  - cbn. lia.
  - reflexivity.
  - reflexivity.
  - intros l r p Hp. cbn [CreateParentNode CMMRPowerNode_type] in Hp.
    unfold CMMRPowerNode_CreateParentNode in Hp. cbv zeta in Hp.
    destruct (_ && _); [|discriminate]. cbn [assert bind] in Hp.
    pose proof (f_equal (fun x => match x with Ok y => y | Throw _ => p end) Hp) as E.
    cbv beta iota in E. rewrite <- E. clear E Hp.
    cbn [GetProofHash CMMRPowerNode_type CMMRPowerNode_GetProofHash
         CMerkleMountainView.emit map replay fold_left fst snd hash CMMRPowerNode_hash].
    change (0 =? 1) with false. cbv iota.
    now rewrite (Z.add_comm (Stake r)), (Z.add_comm (Work r)).
  - intros l r p Hp. cbn [CreateParentNode CMMRPowerNode_type] in Hp.
    unfold CMMRPowerNode_CreateParentNode in Hp. cbv zeta in Hp.
    destruct (_ && _); [|discriminate]. cbn [assert bind] in Hp.
    pose proof (f_equal (fun x => match x with Ok y => y | Throw _ => p end) Hp) as E.
    cbv beta iota in E. rewrite <- E. clear E Hp.
    cbn [GetProofHash CMMRPowerNode_type CMMRPowerNode_GetProofHash
         CMerkleMountainView.emit map replay fold_left fst snd hash CMMRPowerNode_hash].
    change (0 =? 1) with false. change (1 =? 1) with true. cbv iota.
    reflexivity.
Qed.

Section ProofTheorems.
Context {HW : HASHALGOWRITER} {NT : NODE_TYPE} {NL : NodeLaws NT}.

(** [GetProof] on a fresh view of a built range. *)
Lemma proof_walk (leaves : list Node) (m : CMerkleMountainRange.t)
    (viewSize pos : Z) :
  tree_ok leaves = true -> 0 < vsize leaves < 2 ^ 32 ->
  CMerkleMountainRange.build leaves = Ok m ->
  0 <= viewSize ->
  let v := CMerkleMountainView.new m viewSize in
  let leaf := vat NodeDefault leaves pos in
  0 <= pos < CMerkleMountainView.size v ->
  is_ok (CMerkleMountainView.GetRoot v) = true ->
  distinct (map hash (CMerkleMountainView.peaks
                        (CMerkleMountainView.CalcPeaks v false))) = true ->
  exists w root v',
    CMerkleMountainView.GetRoot v = Ok (root, v') /\
    CMerkleMountainView.GetProof_walk v pos = Ok (w, v') /\
    CMerkleMountainView.GetProof v pos
      = Ok (Some (mkCMMRBranch GetBranchType pos (CMerkleMountainView.size v)
                               (map snd w)), v') /\
    sides_ok w /\
    (forall start,
       replay (map (fun x => (0, x)) (GetLeafHash leaf)) start = hash leaf ->
       replay w start = root) /\
    (0 < pos -> CMerkleMountainView.GetProofBits pos (CMerkleMountainView.size v)
                = Ok (map fst w)) /\
    (pos = 0 -> Forall (fun b => b = 0) (map fst w)).
Proof.
  intros Hok HN Hb Hvs v leaf Hpos Hroot Hd.
  apply tree_ok_levels in Hok.
  assert (Em : m = range_of leaves).
  { rewrite build_range_of in Hb by (assumption || lia).
    exact (f_equal (fun r => match r with Ok x => x | Throw _ => m end) (eq_sym Hb)). }
  subst m.
  destruct (CMerkleMountainView.GetRoot v) as [[root v1]|] eqn:Hr; [|discriminate].
  apply distinct_NoDup in Hd.
  destruct (walk_spec leaves viewSize pos root v1 Hok HN Hvs Hpos Hr Hd)
    as (W & Hw & Hrep & Hso & Hsz & Hbits & Hzero).
  fold v leaf in Hw, Hrep, Hsz, Hbits.
  assert (Hsm : CMerkleMountainRange.size (range_of leaves) = vsize leaves)
    by (apply size_range_of; lia).
  destruct (sizes_new (range_of leaves) viewSize Hvs ltac:(lia)) as [Hn _].
  fold v in Hn.
  pose proof (leaf_hash_length leaf) as Hll.
  pose proof extra_nonneg as He.
  assert (Hfst : map fst (map (fun x => (0, x)) (GetLeafHash leaf) ++ W)
                 = repeat 0 (Z.to_nat GetExtraHashCount) ++ map fst W).
  { rewrite map_app, map_fst_zero. unfold vsize in Hll.
    now rewrite <- Hll, Nat2Z.id. }
  exists (map (fun x => (0, x)) (GetLeafHash leaf) ++ W), root, v1.
  split; [reflexivity|]. split; [exact Hw|]. split; [|split; [|split; [|split]]].
  - unfold CMerkleMountainView.GetProof.
    destruct (Z.ltb_spec pos (CMerkleMountainView.size v)); [|lia].
    rewrite Hw. cbn [bind snd fst]. rewrite Hsz.
    rewrite !uint32_small by lia. reflexivity.
  - apply sides_ok_app; [apply sides_ok_zero|exact Hso].
  - intros start Hs. rewrite replay_app, Hs. exact Hrep.
  - intros Hp. unfold CMerkleMountainView.GetProofBits.
    rewrite Hfst. now apply Hbits.
  - intros Hp. rewrite Hfst. apply Forall_app. split; [|now apply Hzero].
    apply Forall_forall. intros x Hx. now apply repeat_spec in Hx.
Qed.

(** C8 (amended): for a position [pos] with [0 < pos] inside a view of a
    built range, when [GetRoot] returns and the peaks of the view have
    pairwise distinct hashes, [GetProofBits pos size] is, hash by hash, the
    list of the sides on which [GetProof pos] emits the hashes of its
    branch: 1 where the sibling is hashed on the left, 0 where it is hashed
    on the right, and 0 for every extra hash, along the mountain and along
    the peak merkle tree. *)
Theorem proof_bits_mirror (leaves : list Node) (m : CMerkleMountainRange.t)
    (viewSize pos : Z) :
  tree_ok leaves = true -> 0 < vsize leaves < 2 ^ 32 ->
  CMerkleMountainRange.build leaves = Ok m ->
  0 <= viewSize ->
  let v := CMerkleMountainView.new m viewSize in
  0 < pos < CMerkleMountainView.size v ->
  is_ok (CMerkleMountainView.GetRoot v) = true ->
  distinct (map hash (CMerkleMountainView.peaks
                        (CMerkleMountainView.CalcPeaks v false))) = true ->
  exists w v',
    CMerkleMountainView.GetProof_walk v pos = Ok (w, v') /\
    CMerkleMountainView.GetProof v pos
      = Ok (Some (mkCMMRBranch GetBranchType pos (CMerkleMountainView.size v)
                               (map snd w)), v') /\
    CMerkleMountainView.GetProofBits pos (CMerkleMountainView.size v)
      = Ok (map fst w) /\
    sides_ok w.
Proof.
  intros Hok HN Hb Hvs v Hpos Hroot Hd.
  destruct (proof_walk leaves m viewSize pos Hok HN Hb Hvs ltac:(fold v; lia) Hroot Hd)
    as (w & root & v' & _ & Hw & Hp & Hso & _ & Hbits & _).
  exists w, v'. repeat split; try assumption. apply Hbits. lia.
Qed.

(** C1 (amended): for a position inside a view of a built range, when
    [GetRoot] returns, the peaks of the view have pairwise distinct hashes,
    the branch that [GetProof] gives has fewer than 64 hashes and is
    canonical from the starting hash (no sibling at a step whose index bit
    is set equals the running hash), [SafeCheck] of that branch gives the
    root of the view.  The starting hash is the one the extra hashes of the
    leaf combine to the hash of the leaf: the hash of the leaf itself for a
    node type without extra hashes. *)
Theorem proof_round_trip (leaves : list Node) (m : CMerkleMountainRange.t)
    (viewSize pos : Z) (start : uint256) :
  tree_ok leaves = true -> 0 < vsize leaves < 2 ^ 32 ->
  CMerkleMountainRange.build leaves = Ok m ->
  0 <= viewSize ->
  let v := CMerkleMountainView.new m viewSize in
  let leaf := vat NodeDefault leaves pos in
  0 <= pos < CMerkleMountainView.size v ->
  is_ok (CMerkleMountainView.GetRoot v) = true ->
  distinct (map hash (CMerkleMountainView.peaks
                        (CMerkleMountainView.CalcPeaks v false))) = true ->
  replay (map (fun x => (0, x)) (GetLeafHash leaf)) start = hash leaf ->
  vsize (proof_branch v pos) < 64 ->
  canonical (GetMMRProofIndex pos (CMerkleMountainView.size v) GetExtraHashCount)
            (proof_branch v pos) start = true ->
  exists b root v',
    CMerkleMountainView.GetProof v pos = Ok (Some b, v') /\
    CMerkleMountainView.GetRoot v = Ok (root, v') /\
    CMMRBranch_SafeCheck b start = root.
Proof.
  intros Hok HN Hb Hvs v leaf Hpos Hroot Hd Hstart Hlen Hcan.
  destruct (proof_walk leaves m viewSize pos Hok HN Hb Hvs Hpos Hroot Hd)
    as (w & root & v' & Hr & Hw & Hp & Hso & Hrep & Hbits & Hzero).
  fold v in Hr, Hw, Hp, Hbits. fold leaf in Hrep.
  assert (Hbr : proof_branch v pos = map snd w).
  { unfold proof_branch. rewrite Hp. reflexivity. }
  rewrite Hbr in Hlen, Hcan.
  assert (Hsides : Forall (fun b => b = 0 \/ b = 1) (map fst w)).
  { apply Forall_map. exact Hso. }
  pose proof (pack_bits_bound _ Hsides) as Hpk.
  assert (Hvl : vsize (map fst w) = vsize (map snd w))
    by (unfold vsize; now rewrite !length_map).
  assert (Hpow : 2 ^ vsize (map fst w) <= 2 ^ 63).
  { apply Z.pow_le_mono_r; [lia|]. rewrite Hvl. lia. }
  assert (Hidx : GetMMRProofIndex pos (CMerkleMountainView.size v) GetExtraHashCount
                 = pack_bits (map fst w)).
  { unfold GetMMRProofIndex. destruct (Z.eq_dec pos 0) as [->|Hne].
    - unfold CMerkleMountainView.ProofBits. change (0 <? 0) with false.
      cbn [andb pack_bits]. now rewrite pack_bits_zero by auto.
    - unfold CMerkleMountainView.GetProofBits in Hbits. rewrite Hbits by lia.
      apply uint64_small. lia. }
  rewrite Hidx in Hcan.
  exists (mkCMMRBranch GetBranchType pos (CMerkleMountainView.size v) (map snd w)),
         root, v'.
  split; [exact Hp|]. split; [exact Hr|].
  unfold CMMRBranch_SafeCheck, SafeCheck_from. cbn [nIndex nSize branch].
  rewrite Hidx. rewrite int64_small by lia.
  destruct (Z.eqb_spec (pack_bits (map fst w)) (-1)); [lia|].
  rewrite SafeCheck_loop_replay by assumption.
  now apply Hrep.
Qed.
End ProofTheorems.

Lemma proof_bits_mirror_witness :
  @tree_ok plain_nodes (plain_leaves [1; 2; 3; 4; 5]) = true /\
  0 < vsize (plain_leaves [1; 2; 3; 4; 5]) < 2 ^ 32 /\
  @CMerkleMountainRange.build plain_nodes (plain_leaves [1; 2; 3; 4; 5]) = Ok five_leaves /\
  0 <= 5 /\
  0 < 2 < @CMerkleMountainView.size plain_nodes (CMerkleMountainView.new five_leaves 5) /\
  exists w v',
    @CMerkleMountainView.GetProof_walk plain_nodes
      (CMerkleMountainView.new five_leaves 5) 2 = Ok (w, v') /\
    @CMerkleMountainView.GetProof plain_nodes (CMerkleMountainView.new five_leaves 5) 2
      = Ok (Some (mkCMMRBranch (@GetBranchType plain_nodes) 2
                   (@CMerkleMountainView.size plain_nodes
                      (CMerkleMountainView.new five_leaves 5))
                   (map snd w)), v') /\
    @CMerkleMountainView.GetProofBits plain_nodes 2
      (@CMerkleMountainView.size plain_nodes (CMerkleMountainView.new five_leaves 5))
      = Ok (map fst w) /\
    sides_ok w.
Proof.
  split; [vm_compute; reflexivity|].
  split; [vm_compute; split; reflexivity|].
  split; [reflexivity|].
  split; [lia|].
  split; [vm_compute; split; reflexivity|].
  apply (@proof_bits_mirror pair_writer plain_nodes plain_node_laws
           (plain_leaves [1; 2; 3; 4; 5]) five_leaves 5 2).
  - vm_compute; reflexivity.
  - vm_compute; split; reflexivity.
  - reflexivity.
  - lia.
  - vm_compute; split; reflexivity.
  - vm_compute; reflexivity.
  - vm_compute; reflexivity.
Defined.

(** At position 0 of a view of two leaves [GetProof] gives one hash and
    [GetProofBits] no bit; at position 2 of a view of three leaves whose
    third hash is the hash of the parent of the first two, [GetProof] takes
    the first peak of that hash and hashes its sibling on the right, where
    [GetProofBits] says the left. *)
Lemma proof_bits_differ :
  (@CMerkleMountainRange.build plain_nodes (plain_leaves [1; 2])
   = Ok (range_of (plain_leaves [1; 2])) /\
   result_map fst
     (@CMerkleMountainView.GetProof plain_nodes
        (CMerkleMountainView.new (range_of (plain_leaves [1; 2])) 2) 0)
   = Ok (Some (mkCMMRBranch 2 0 2 [2])) /\
   @CMerkleMountainView.GetProofBits plain_nodes 0 2 = Ok []) /\
  (@CMerkleMountainRange.build plain_nodes (plain_leaves [1; 2; pair_hash 1 2])
   = Ok (range_of (plain_leaves [1; 2; pair_hash 1 2])) /\
   result_map fst
     (@CMerkleMountainView.GetProof_walk plain_nodes
        (CMerkleMountainView.new (range_of (plain_leaves [1; 2; pair_hash 1 2])) 3) 2)
   = Ok [(0, pair_hash 1 2)] /\
   @CMerkleMountainView.GetProofBits plain_nodes 2 3 = Ok [1]).
Proof. repeat split; reflexivity. Qed.

Lemma proof_round_trip_witness :
  @tree_ok power_nodes three_power_leaves = true /\
  0 < vsize three_power_leaves < 2 ^ 32 /\
  @CMerkleMountainRange.build power_nodes three_power_leaves
    = Ok (range_of three_power_leaves) /\
  0 <= 3 /\
  0 <= 1 < @CMerkleMountainView.size power_nodes
             (CMerkleMountainView.new (range_of three_power_leaves) 3) /\
  exists b root v',
    @CMerkleMountainView.GetProof power_nodes
      (CMerkleMountainView.new (range_of three_power_leaves) 3) 1 = Ok (Some b, v') /\
    @CMerkleMountainView.GetRoot power_nodes
      (CMerkleMountainView.new (range_of three_power_leaves) 3) = Ok (root, v') /\
    @CMMRBranch_SafeCheck pair_writer power_nodes b 12 = root.
Proof.
  split; [vm_compute; reflexivity|].
  split; [vm_compute; split; reflexivity|].
  split; [reflexivity|].
  split; [lia|].
  split; [vm_compute; split; [discriminate|reflexivity]|].
  apply (@proof_round_trip pair_writer power_nodes power_node_laws
           three_power_leaves (range_of three_power_leaves) 3 1 12).
  - vm_compute; reflexivity.
  - vm_compute; split; reflexivity.
  - reflexivity.
  - lia.
  - vm_compute; split; [discriminate|reflexivity].
  - vm_compute; reflexivity.
  - vm_compute; reflexivity.
  - vm_compute; reflexivity.
  - vm_compute; reflexivity.
  - vm_compute; reflexivity.
Defined.

(** In a range of two leaves of the same hash, the branch of position 1 is
    the hash of position 0, equal to the starting hash at a step whose index
    bit is set: [SafeCheck] gives the null hash, not the root. *)
Lemma round_trip_equal_leaves :
  @CMerkleMountainRange.build plain_nodes (plain_leaves [7; 7])
    = Ok (range_of (plain_leaves [7; 7])) /\
  result_map fst
    (@CMerkleMountainView.GetProof plain_nodes
       (CMerkleMountainView.new (range_of (plain_leaves [7; 7])) 2) 1)
    = Ok (Some (mkCMMRBranch 2 1 2 [7])) /\
  result_map fst
    (@CMerkleMountainView.GetRoot plain_nodes
       (CMerkleMountainView.new (range_of (plain_leaves [7; 7])) 2))
    = Ok 113 /\
  @hash plain_nodes (vat NodeDefault (plain_leaves [7; 7]) 1) = 7 /\
  @CMMRBranch_SafeCheck pair_writer plain_nodes (mkCMMRBranch 2 1 2 [7]) 7
    = uint256_null /\
  uint256_null <> 113.
Proof.
  repeat split; try reflexivity. vm_compute. discriminate.
Qed.

(** * Part III: further properties of the code *)

(** ** CChunkedLayer *)

Lemma app_same_length {A} (a a' b b' : list A) :
  length a = length a' -> a ++ b = a' ++ b' -> a = a' /\ b = b'.
Proof.
  revert a'. induction a as [|x a IH]; intros [|x' a'] Hl He; try discriminate.
  - now split.
  - cbn in He, Hl. injection He as -> He. injection Hl as Hl.
    destruct (IH a' Hl He) as [-> ->]. now split.
Qed.

Section LayerFacts.
Context {NT : NODE_TYPE}.

Lemma chunks_unique (full : list (list Node)) : forall full' lastc lastc',
  Forall (fun c => length c = 512%nat) full ->
  Forall (fun c => length c = 512%nat) full' ->
  (0 < length lastc <= 512)%nat -> (0 < length lastc' <= 512)%nat ->
  concat full ++ lastc = concat full' ++ lastc' ->
  full = full' /\ lastc = lastc'.
Proof.
  induction full as [|c full IH]; intros full' lastc lastc' Hf Hf' Hl Hl' He.
  - destruct full' as [|c' full'].
    + cbn in He. now split.
    + exfalso. inversion Hf' as [|? ? Hc' _]; subst.
      apply (f_equal (@length Node)) in He.
      cbn in He. rewrite !length_app in He. lia.
  - inversion Hf as [|? ? Hc Hfull]; subst.
    destruct full' as [|c' full'].
    + exfalso. apply (f_equal (@length Node)) in He.
      cbn in He. rewrite !length_app in He. lia.
    + inversion Hf' as [|? ? Hc' Hfull']; subst.
      cbn [concat] in He. rewrite <- !app_assoc in He.
      assert (Hcc : length c = length c') by lia.
      destruct (app_same_length _ _ _ _ Hcc He) as [-> He'].
      destruct (IH full' lastc lastc' Hfull Hfull' Hl Hl' He') as [-> ->].
      now split.
Qed.

(** A list has one chunked layout. *)
Lemma chunked_unique (l l' : CChunkedLayer.t) (xs : list Node) :
  chunked l xs -> chunked l' xs -> l = l'.
Proof.
  intros [Hs Hc] [Hs' Hc']. destruct l as [s ns], l' as [s' ns'].
  cbn [CChunkedLayer.vSize CChunkedLayer.nodes] in *.
  assert (ns = ns'); [|subst; reflexivity].
  destruct Hc as [[Hn Hx]|(full & lastc & Hn & Hfull & Hlast & Hx)];
    destruct Hc' as [[Hn' Hx']|(full' & lastc' & Hn' & Hfull' & Hlast' & Hx')].
  - congruence.
  - exfalso. subst xs. apply (f_equal (@length Node)) in Hx'.
    rewrite length_app in Hx'. cbn in Hx'. lia.
  - exfalso. subst xs. apply (f_equal (@length Node)) in Hx'.
    rewrite length_app in Hx'. cbn in Hx'. lia.
  - rewrite Hx in Hx'.
    destruct (chunks_unique _ _ _ _ Hfull Hfull' Hlast Hlast' Hx') as [-> ->].
    congruence.
Qed.

(** X1: a layer filled by [push_back] has the size of what was pushed,
    [operator[]] gives each element back at its index and throws a length
    error from the size on. *)
Theorem layer_push_get (xs : list Node) (i : Z) :
  vsize xs < 2 ^ 64 -> 0 <= i ->
  CChunkedLayer.size (layer_of xs) = vsize xs /\
  CChunkedLayer.get (layer_of xs) i
  = if i <? vsize xs then Ok (vat NodeDefault xs i) else Throw length_error.
Proof.
  intros Hb Hi. pose proof (chunked_layer_of xs Hb) as Hc.
  split; [now apply chunked_size|].
  destruct (Z.ltb_spec i (vsize xs)).
  - apply chunked_get; [assumption|lia].
  - unfold CChunkedLayer.get. destruct Hc as [-> _].
    destruct (Z.ltb_spec i (vsize xs)); [lia|reflexivity].
Qed.
End LayerFacts.

Lemma layer_push_get_witness :
  vsize (plain_leaves [4; 5; 6]) < 2 ^ 64 /\ 0 <= 1 /\
  CChunkedLayer.size (layer_of (plain_leaves [4; 5; 6])) = vsize (plain_leaves [4; 5; 6]) /\
  CChunkedLayer.get (layer_of (plain_leaves [4; 5; 6])) 1
  = if 1 <? vsize (plain_leaves [4; 5; 6])
    then Ok (vat NodeDefault (plain_leaves [4; 5; 6]) 1) else Throw length_error.
Proof.
  split; [vm_compute; reflexivity|]. split; [lia|].
  apply (@layer_push_get plain_nodes (plain_leaves [4; 5; 6]) 1).
  - vm_compute; reflexivity.
  - lia.
Defined.

Lemma firstn_snoc_nth {A} (d : A) (l : list A) : forall i,
  (i < length l)%nat -> firstn (S i) l = firstn i l ++ [nth i l d].
Proof.
  induction l as [|x l IH]; intros i Hi; [cbn in Hi; lia|].
  destruct i as [|i]; [reflexivity|].
  cbn [firstn nth app]. f_equal. apply IH. cbn in Hi. lia.
Qed.

Lemma Forall_firstn_keep {A} (P : A -> Prop) (l : list A) (n : nat) :
  Forall P l -> Forall P (firstn n l).
Proof.
  intros H. revert n. induction H as [|x l Hx _ IH]; intros n.
  - rewrite firstn_nil. constructor.
  - destruct n as [|n]; cbn [firstn]; constructor; auto.
Qed.

Section ResizeLayer.
Context {NT : NODE_TYPE}.

Lemma firstn_concat_full (full : list (list Node)) : forall c : nat,
  Forall (fun ch => length ch = 512%nat) full ->
  firstn (512 * c) (concat full) = concat (firstn c full).
Proof.
  induction full as [|ch full IH]; intros c Hf.
  - now rewrite !firstn_nil.
  - inversion Hf as [|? ? Hc Hfull]; subst.
    destruct c as [|c]; [reflexivity|].
    cbn [concat firstn]. rewrite firstn_app, Hc.
    replace (512 * S c - 512)%nat with (512 * c)%nat by lia.
    rewrite firstn_all2 by lia. f_equal. now apply IH.
Qed.

(** X2: after [resize] to a size not above the current one, the layer has
    the new size, [operator[]] still gives the elements below it and
    throws from it on; [resize(0)] empties the layer. *)
Theorem layer_resize_prefix (xs : list Node) (k i : Z) :
  vsize xs < 2 ^ 64 -> 0 <= k <= vsize xs -> 0 <= i ->
  CChunkedLayer.size (CChunkedLayer.resize (layer_of xs) k) = k /\
  CChunkedLayer.get (CChunkedLayer.resize (layer_of xs) k) i
  = (if i <? k then Ok (vat NodeDefault xs i) else Throw length_error) /\
  CChunkedLayer.resize (layer_of xs) 0 = CChunkedLayer.empty.
Proof.
  intros Hb Hk Hi. pose proof (chunked_layer_of xs Hb) as Hc.
  split; [|split; [|reflexivity]].
  - destruct (Z.eq_dec k 0) as [->|Hk0]; [reflexivity|].
    apply (resize_shrink _ xs k Hc Hb). lia.
  - destruct (Z.eq_dec k 0) as [->|Hk0].
    + cbn. destruct (Z.ltb_spec i 0); [lia|].
      unfold CChunkedLayer.get. cbn. destruct (Z.ltb_spec i 0); [lia|reflexivity].
    + destruct (resize_shrink _ xs k Hc Hb ltac:(lia)) as [Hs Hslot].
      unfold CChunkedLayer.get. unfold CChunkedLayer.size in Hs. rewrite Hs.
      destruct (Z.ltb_spec i k); [|reflexivity].
      rewrite Hslot by lia. f_equal. apply chunked_slot; [assumption|lia].
Qed.

Lemma resize_chunked (l : CChunkedLayer.t) (xs : list Node) (k : Z) :
  chunked l xs -> vsize xs < 2 ^ 64 -> 0 < k <= vsize xs ->
  (k - 1) / 512 = (vsize xs - 1) / 512 \/ k mod 512 = 0 ->
  chunked (CChunkedLayer.resize l k) (firstn (Z.to_nat k) xs).
Proof.
  intros [Hsz Hch] Hb Hn Hgood.
  destruct Hch as [[Hnodes Hxs]|(full & lastc & Hnodes & Hfull & Hlast & Hxs)].
  { subst xs. unfold vsize in Hn; cbn [length] in Hn; lia. }
  pose proof (length_concat_full full 512 Hfull) as Hlen.
  assert (Hv : vsize xs = 512 * vsize full + vsize lastc).
  { unfold vsize. rewrite Hxs, length_app, Hlen. lia. }
  assert (HLc : 0 < vsize lastc <= 512) by (unfold vsize; lia).
  pose proof (vsize_nonneg full) as HF.
  assert (Hq : (vsize xs - 1) / 512 = vsize full).
  { symmetry. apply (Z.div_unique _ 512 _ (vsize lastc - 1)); lia. }
  assert (Hq' : 0 <= (k - 1) / 512 <= vsize full).
  { split; [apply Z.div_pos; lia|]. rewrite <- Hq. apply Z.div_le_mono; lia. }
  pose proof (Z.div_mod (k - 1) 512 ltac:(lia)) as Hdm.
  pose proof (Z.mod_pos_bound (k - 1) 512 ltac:(lia)) as Hmb.
  assert (Hvk : vsize (firstn (Z.to_nat k) xs) = k) by (apply vsize_firstn; lia).
  unfold CChunkedLayer.resize.
  destruct (Z.eqb_spec k 0) as [|_]; [lia|].
  unfold CChunkedLayer.size. rewrite Hsz.
  destruct (Z.eqb_spec (vsize xs) 0) as [|_]; [lia|].
  change CChunkedLayer.CHUNK_SHIFT with 9.
  change CChunkedLayer.chunkMask with 511.
  change CChunkedLayer.chunkSize with 512.
  rewrite !shiftr_div, !land_mask by lia. change (2 ^ 9) with 512.
  rewrite Hq, Hnodes.
  assert (Hvn : vsize (full ++ [lastc]) = vsize full + 1)
    by (rewrite vsize_app; reflexivity).
  rewrite vresize_shrink by lia.
  destruct (Z.eq_dec ((k - 1) / 512) (vsize full)) as [Heq|Hne].
  - rewrite Heq, zrange_single, firstn_all2 by (unfold vsize in *; lia).
    cbn [fold_left]. rewrite Z.ltb_irrefl.
    unfold vback_apply. rewrite removelast_last, last_last.
    assert (Hr : (k - 1) mod 512 + 1 <= vsize lastc) by lia.
    rewrite vresize_shrink by lia.
    split; cbn [CChunkedLayer.vSize CChunkedLayer.nodes].
    + rewrite vsize_app. change (vsize [firstn _ lastc]) with 1.
      rewrite Z.shiftl_mul_pow2 by lia. change (2 ^ 9) with 512.
      rewrite uint64_small; lia.
    + right. exists full, (firstn (Z.to_nat ((k - 1) mod 512 + 1)) lastc).
      split; [reflexivity|]. split; [assumption|].
      rewrite length_firstn. split; [unfold vsize in *; lia|].
      rewrite Hxs, firstn_app, Hlen.
      rewrite firstn_all2 by (rewrite Hlen; unfold vsize in *; lia).
      f_equal. f_equal. unfold vsize in *. lia.
  - assert (Hm : k mod 512 = 0) by (destruct Hgood; [lia|assumption]).
    pose proof (Z.div_mod k 512 ltac:(lia)) as Hdk.
    assert (Hc : (k - 1) / 512 + 1 = k / 512).
    { apply (Z.div_unique _ 512 _ 0); lia. }
    rewrite zrange_empty by lia. cbn [fold_left].
    assert (Hfn : firstn (Z.to_nat ((k - 1) / 512 + 1)) (full ++ [lastc])
                  = firstn (Z.to_nat ((k - 1) / 512 + 1)) full).
    { rewrite firstn_app.
      replace (Z.to_nat ((k - 1) / 512 + 1) - length full)%nat with 0%nat
        by (unfold vsize in *; lia).
      cbn. apply app_nil_r. }
    rewrite Hfn.
    assert (Hvf : vsize (firstn (Z.to_nat ((k - 1) / 512 + 1)) full)
                  = (k - 1) / 512 + 1).
    { unfold vsize in *. rewrite length_firstn. lia. }
    split; cbn [CChunkedLayer.vSize CChunkedLayer.nodes].
    + rewrite Hvf, Z.shiftl_mul_pow2 by lia. change (2 ^ 9) with 512.
      rewrite uint64_small; lia.
    + right.
      set (c := Z.to_nat ((k - 1) / 512)).
      replace (Z.to_nat ((k - 1) / 512 + 1)) with (S c) by (unfold c; lia).
      assert (Hcl : (c < length full)%nat) by (unfold c, vsize in *; lia).
      exists (firstn c full), (nth c full []).
      split; [apply firstn_snoc_nth; assumption|].
      split; [apply Forall_firstn_keep; assumption|].
      assert (Hnl : length (nth c full []) = 512%nat).
      { rewrite Forall_forall in Hfull. apply Hfull, nth_In. assumption. }
      split; [lia|].
      rewrite Hxs, firstn_app, Hlen.
      replace (Z.to_nat k - 512 * length full)%nat with 0%nat
        by (unfold c, vsize in *; lia).
      cbn [firstn]. rewrite app_nil_r.
      replace (Z.to_nat k) with (512 * S c)%nat by (unfold c; lia).
      rewrite firstn_concat_full by assumption.
      rewrite (firstn_snoc_nth [] full c Hcl), concat_app. cbn [concat].
      now rewrite app_nil_r.
Qed.

Lemma resize_layer_of (xs : list Node) (k : Z) :
  vsize xs < 2 ^ 64 - 1 -> 0 < k <= vsize xs ->
  (k - 1) / 512 = (vsize xs - 1) / 512 \/ k mod 512 = 0 ->
  CChunkedLayer.resize (layer_of xs) k = layer_of (firstn (Z.to_nat k) xs).
Proof.
  intros Hb Hk Hgood.
  assert (Hvk : vsize (firstn (Z.to_nat k) xs) = k) by (apply vsize_firstn; lia).
  apply (chunked_unique _ _ (firstn (Z.to_nat k) xs)).
  - apply resize_chunked; try assumption; try lia. apply chunked_layer_of. lia.
  - apply chunked_layer_of. lia.
Qed.

(** X3: a [resize] that keeps the last chunk, or that ends on a chunk
    boundary, leaves exactly the layer built from the prefix; elements
    pushed afterwards are read back at their indexes. *)
Theorem layer_resize_rebuild (xs : list Node) (k : Z) (y : Node) :
  vsize xs < 2 ^ 64 - 1 -> 0 < k <= vsize xs ->
  (k - 1) / 512 = (vsize xs - 1) / 512 \/ k mod 512 = 0 ->
  CChunkedLayer.resize (layer_of xs) k = layer_of (firstn (Z.to_nat k) xs) /\
  CChunkedLayer.get (CChunkedLayer.push_back (CChunkedLayer.resize (layer_of xs) k) y) k
  = Ok y.
Proof.
  intros Hb Hk Hgood.
  assert (Hvk : vsize (firstn (Z.to_nat k) xs) = k) by (apply vsize_firstn; lia).
  assert (E : CChunkedLayer.resize (layer_of xs) k = layer_of (firstn (Z.to_nat k) xs))
    by (apply resize_layer_of; assumption).
  split; [exact E|].
  rewrite E, <- layer_of_snoc.
  set (p := firstn (Z.to_nat k) xs) in *.
  rewrite (chunked_get _ (p ++ [y])).
  - f_equal. rewrite <- Hvk. apply vat_last.
  - apply chunked_layer_of. rewrite vsize_app. change (vsize [y]) with 1. lia.
  - rewrite vsize_app. change (vsize [y]) with 1. lia.
Qed.

End ResizeLayer.

Lemma layer_resize_prefix_witness :
  vsize (counted_leaves 600) < 2 ^ 64 /\ 0 <= 300 <= vsize (counted_leaves 600) /\
  0 <= 7 /\
  CChunkedLayer.size (CChunkedLayer.resize (layer_of (counted_leaves 600)) 300) = 300 /\
  CChunkedLayer.get (CChunkedLayer.resize (layer_of (counted_leaves 600)) 300) 7
  = (if 7 <? 300 then Ok (vat NodeDefault (counted_leaves 600) 7)
     else Throw length_error) /\
  CChunkedLayer.resize (layer_of (counted_leaves 600)) 0 = CChunkedLayer.empty.
Proof.
  split; [vm_compute; reflexivity|]. split; [vm_compute; split; discriminate|].
  split; [lia|].
  apply (@layer_resize_prefix plain_nodes (counted_leaves 600) 300 7).
  - vm_compute; reflexivity.
  - vm_compute; split; discriminate.
  - lia.
Defined.

Lemma layer_resize_rebuild_witness :
  vsize (counted_leaves 600) < 2 ^ 64 - 1 /\ 0 < 520 <= vsize (counted_leaves 600) /\
  ((520 - 1) / 512 = (vsize (counted_leaves 600) - 1) / 512 \/ 520 mod 512 = 0) /\
  CChunkedLayer.resize (layer_of (counted_leaves 600)) 520
  = layer_of (firstn (Z.to_nat 520) (counted_leaves 600)) /\
  CChunkedLayer.get
    (CChunkedLayer.push_back (CChunkedLayer.resize (layer_of (counted_leaves 600)) 520)
       (mkCMMRNode 9999)) 520
  = Ok (mkCMMRNode 9999).
Proof.
  split; [vm_compute; reflexivity|].
  split; [vm_compute; split; [reflexivity|discriminate]|].
  split; [left; vm_compute; reflexivity|].
  apply (@layer_resize_rebuild plain_nodes (counted_leaves 600) 520 (mkCMMRNode 9999)).
  - vm_compute; reflexivity.
  - vm_compute; split; [reflexivity|discriminate].
  - left; vm_compute; reflexivity.
Defined.


(** ** CMerkleMountainRange *)

Section RangeFacts.
Context {NT : NODE_TYPE}.

Lemma level_parent (leaves : list Node) (h i : Z) :
  levels_ok leaves -> 0 <= h -> 0 <= i ->
  2 * i + 1 < Z.shiftr (vsize leaves) h ->
  CreateParentNode (vat NodeDefault (level (Z.to_nat h) leaves) (2 * i))
                   (vat NodeDefault (level (Z.to_nat h) leaves) (2 * i + 1))
  = Ok (vat NodeDefault (level (Z.to_nat (h + 1)) leaves) i).
Proof.
  intros Hok Hh Hi Hlt.
  replace (Z.to_nat (h + 1)) with (S (Z.to_nat h)) by lia. cbn [level].
  assert (Hsz : 2 * i + 1 < vsize (level (Z.to_nat h) leaves))
    by (rewrite vsize_level, Z2Nat.id by lia; exact Hlt).
  rewrite (pairs_ok_vat _ (Hok (Z.to_nat h)) i Hi Hsz).
  now rewrite vat_pairs.
Qed.


(** X6: [Add] on a built range returns the index of the new leaf, the
    size before the call, and leaves the range built from the leaves
    with the new one appended. *)
Theorem add_returns_index (leaves : list Node) (x : Node) :
  tree_ok (leaves ++ [x]) = true -> vsize leaves + 1 < 2 ^ 32 ->
  exists m m',
    CMerkleMountainRange.build leaves = Ok m /\
    CMerkleMountainRange.build (leaves ++ [x]) = Ok m' /\
    CMerkleMountainRange.Add m x = Ok (m', CMerkleMountainRange.size m) /\
    CMerkleMountainRange.size m' = CMerkleMountainRange.size m + 1.
Proof.
  intros Hok Hb. apply tree_ok_levels in Hok.
  pose proof (levels_ok_snoc _ _ Hok) as Hok0.
  pose proof (vsize_nonneg leaves) as Hnn.
  assert (Hv : vsize (leaves ++ [x]) = vsize leaves + 1)
    by (rewrite vsize_app; reflexivity).
  exists (range_of leaves), (range_of (leaves ++ [x])).
  split; [apply build_range_of; [assumption|lia]|].
  split; [apply build_range_of; [assumption|lia]|].
  rewrite !size_range_of by lia. split; [|lia].
  apply Add_range_of; [assumption|lia].
Qed.

Lemma Truncate_prefix (leaves : list Node) (k : Z) :
  vsize leaves <= 512 -> 0 <= k <= vsize leaves ->
  CMerkleMountainRange.Truncate (range_of leaves) k
  = range_of (firstn (Z.to_nat k) leaves).
Proof.
  intros Hn Hk.
  destruct (Z.eq_dec k (vsize leaves)) as [->|Hne].
  { rewrite Truncate_noop by (rewrite size_range_of; lia).
    unfold vsize. now rewrite Nat2Z.id, firstn_all. }
  destruct (Z.eq_dec k 0) as [->|Hk0].
  { rewrite Truncate_range_of by lia. reflexivity. }
  rewrite Truncate_range_of by lia.
  assert (Hvk : vsize (firstn (Z.to_nat k) leaves) = k) by (apply vsize_firstn; lia).
  unfold range_of at 1. rewrite Hvk. f_equal.
  - apply map_ext_in. intros j Hj. apply in_seq in Hj.
    pose proof (Z.log2_nonneg k).
    assert (Hjl : Z.of_nat (S j) <= Z.log2 k) by lia.
    assert (Hkj : 1 <= Z.shiftr k (Z.of_nat (S j)))
      by (apply shiftr_log2_ge; lia).
    assert (Hle : Z.shiftr k (Z.of_nat (S j)) <= Z.shiftr (vsize leaves) (Z.of_nat (S j))).
    { rewrite !shiftr_div by lia. apply Z.div_le_mono; [|lia].
      apply Z.pow_pos_nonneg; lia. }
    assert (Hls : Z.shiftr (vsize leaves) (Z.of_nat (S j)) <= vsize leaves)
      by (apply shiftr_le; lia).
    pose proof (vsize_level (S j) leaves) as Hvl.
    unshelve epose proof (resize_layer_of (level (S j) leaves)
                            (Z.shiftr k (Z.of_nat (S j))) _ _ _) as E.
    + rewrite Hvl. lia.
    + rewrite Hvl. lia.
    + left. rewrite Hvl. rewrite !Z.div_small by lia. reflexivity.
    + rewrite E. f_equal. rewrite level_firstn. f_equal.
      rewrite shiftr_div by lia.
      rewrite Z2Nat.inj_div by (try apply Z.pow_nonneg; lia).
      f_equal. rewrite Z2Nat.inj_pow by lia. now rewrite Nat2Z.id.
  - unshelve epose proof (resize_layer_of leaves k _ _ _) as E; try lia.
    + left. rewrite !Z.div_small by lia. reflexivity.
    + exact E.
Qed.

(** X7: on a range of at most 512 leaves, where every layer is one chunk,
    [Truncate(k)] leaves exactly the range built from the first [k]
    leaves, and appending after it gives the range built from those
    leaves and the new one. *)
Theorem truncate_then_add (leaves : list Node) (k : Z) (x : Node) :
  tree_ok leaves = true -> vsize leaves <= 512 -> 0 <= k <= vsize leaves ->
  tree_ok (firstn (Z.to_nat k) leaves ++ [x]) = true ->
  exists m f g,
    CMerkleMountainRange.build leaves = Ok m /\
    CMerkleMountainRange.build (firstn (Z.to_nat k) leaves) = Ok f /\
    CMerkleMountainRange.build (firstn (Z.to_nat k) leaves ++ [x]) = Ok g /\
    CMerkleMountainRange.Truncate m k = f /\
    CMerkleMountainRange.Add (CMerkleMountainRange.Truncate m k) x = Ok (g, k).
Proof.
  intros Hok Hn Hk Hokx. apply tree_ok_levels in Hok, Hokx.
  assert (Hvk : vsize (firstn (Z.to_nat k) leaves) = k) by (apply vsize_firstn; lia).
  assert (Hvx : vsize (firstn (Z.to_nat k) leaves ++ [x]) = k + 1)
    by (rewrite vsize_app, Hvk; reflexivity).
  exists (range_of leaves), (range_of (firstn (Z.to_nat k) leaves)),
         (range_of (firstn (Z.to_nat k) leaves ++ [x])).
  split; [apply build_range_of; [assumption|lia]|].
  split; [apply build_range_of; [eapply levels_ok_snoc; eassumption|lia]|].
  split; [apply build_range_of; [assumption|lia]|].
  split; [now apply Truncate_prefix|].
  rewrite Truncate_prefix by assumption.
  rewrite Add_range_of by (assumption || lia). now rewrite Hvk.
Qed.
End RangeFacts.


Lemma add_returns_index_witness :
  @tree_ok power_nodes (three_power_leaves ++ [mkCMMRPowerNode 77 9]) = true /\
  vsize three_power_leaves + 1 < 2 ^ 32 /\
  exists m m',
    @CMerkleMountainRange.build power_nodes three_power_leaves = Ok m /\
    @CMerkleMountainRange.build power_nodes (three_power_leaves ++ [mkCMMRPowerNode 77 9])
      = Ok m' /\
    CMerkleMountainRange.Add m (mkCMMRPowerNode 77 9)
      = Ok (m', CMerkleMountainRange.size m) /\
    CMerkleMountainRange.size m' = CMerkleMountainRange.size m + 1.
Proof.
  split; [vm_compute; reflexivity|]. split; [vm_compute; reflexivity|].
  apply (@add_returns_index power_nodes three_power_leaves (mkCMMRPowerNode 77 9)).
  - vm_compute; reflexivity.
  - vm_compute; reflexivity.
Defined.

Lemma truncate_then_add_witness :
  @tree_ok plain_nodes (plain_leaves [1; 2; 3; 4; 5; 6; 7]) = true /\
  vsize (plain_leaves [1; 2; 3; 4; 5; 6; 7]) <= 512 /\
  0 <= 5 <= vsize (plain_leaves [1; 2; 3; 4; 5; 6; 7]) /\
  @tree_ok plain_nodes
    (firstn (Z.to_nat 5) (plain_leaves [1; 2; 3; 4; 5; 6; 7]) ++ [mkCMMRNode 9]) = true /\
  exists m f g,
    @CMerkleMountainRange.build plain_nodes (plain_leaves [1; 2; 3; 4; 5; 6; 7]) = Ok m /\
    @CMerkleMountainRange.build plain_nodes
      (firstn (Z.to_nat 5) (plain_leaves [1; 2; 3; 4; 5; 6; 7])) = Ok f /\
    @CMerkleMountainRange.build plain_nodes
      (firstn (Z.to_nat 5) (plain_leaves [1; 2; 3; 4; 5; 6; 7]) ++ [mkCMMRNode 9]) = Ok g /\
    CMerkleMountainRange.Truncate m 5 = f /\
    CMerkleMountainRange.Add (CMerkleMountainRange.Truncate m 5) (mkCMMRNode 9) = Ok (g, 5).
Proof.
  split; [vm_compute; reflexivity|]. split; [vm_compute; discriminate|].
  split; [vm_compute; split; discriminate|]. split; [vm_compute; reflexivity|].
  apply (@truncate_then_add plain_nodes (plain_leaves [1; 2; 3; 4; 5; 6; 7]) 5
           (mkCMMRNode 9)).
  - vm_compute; reflexivity.
  - vm_compute; discriminate.
  - vm_compute; split; discriminate.
  - vm_compute; reflexivity.
Defined.

(** ** CMerkleMountainView: the cache, resizing, single peaks *)

Section ViewCache.
Context {NT : NODE_TYPE}.

Lemma GetRoot_loop_grows (pks : list Node) (fuel : nat) :
  forall pm layerNum layerSize pm',
  CMerkleMountainView.GetRoot_loop fuel pks pm layerNum layerSize = Ok pm' ->
  (length pm <= length pm')%nat.
Proof.
  induction fuel as [|fuel IH]; intros pm layerNum layerSize pm' H.
  - cbn in H. destruct (_ || _); [discriminate|].
    pose proof (f_equal (fun r => match r with Ok x => x | Throw _ => pm end) H) as E.
    cbn in E. subst pm'. lia.
  - rewrite GetRoot_loop_unfold in H. destruct (_ || _).
    + cbv zeta in H.
      destruct (CMerkleMountainView.merkle_layer _ _) as [layer|]; [|discriminate].
      cbn [bind] in H. apply IH in H. rewrite length_app in H. cbn in H. lia.
    + pose proof (f_equal (fun r => match r with Ok x => x | Throw _ => pm end) H) as E.
      cbn in E. subst pm'. lia.
Qed.

Lemma GetRoot_loop_unfold_first (pks : list Node) (fuel : nat) pm layerSize pm' :
  CMerkleMountainView.GetRoot_loop (S fuel) pks pm 0 layerSize = Ok pm' ->
  (0 < length pm')%nat.
Proof.
  intros H. rewrite GetRoot_loop_unfold in H. cbn [Z.eqb orb] in H. cbv zeta in H.
  destruct (CMerkleMountainView.merkle_layer _ _) as [layer|]; [|discriminate].
  cbn [bind] in H. apply GetRoot_loop_grows in H.
  rewrite length_app in H. cbn in H. lia.
Qed.

(** X8: [GetRoot] caches: a second call gives the same root and leaves the
    view as the first call left it; a failure of the first call is the
    result of the two. *)
Theorem GetRoot_cached (v : CMerkleMountainView.t) :
  (r <- CMerkleMountainView.GetRoot v ;; CMerkleMountainView.GetRoot (snd r))
  = CMerkleMountainView.GetRoot v.
Proof.
  unfold CMerkleMountainView.GetRoot at 1 3.
  destruct ((0 <? CMerkleMountainView.size v)
            && (vsize (CMerkleMountainView.peakMerkle v) =? 0)) eqn:Hc.
  - cbv zeta.
    destruct (CMerkleMountainView.GetRoot_loop _ _ _ _ _) as [pm|] eqn:Hl;
      [|reflexivity].
    cbn [bind snd]. unfold CMerkleMountainView.GetRoot.
    apply GetRoot_loop_unfold_first in Hl.
    assert (Hsz : CMerkleMountainView.size
                    (CMerkleMountainView.mk
                       (CMerkleMountainView.mmr (CMerkleMountainView.CalcPeaks v false))
                       (CMerkleMountainView.sizes (CMerkleMountainView.CalcPeaks v false))
                       (CMerkleMountainView.peaks (CMerkleMountainView.CalcPeaks v false))
                       pm)
                  = CMerkleMountainView.size v).
    { unfold CMerkleMountainView.size, CMerkleMountainView.CalcPeaks.
      cbn [CMerkleMountainView.sizes]. destruct (_ || _); reflexivity. }
    rewrite Hsz. cbn [CMerkleMountainView.peakMerkle].
    assert (Hpm : 0 < vsize pm) by (unfold vsize; lia).
    destruct (Z.eqb_spec (vsize pm) 0); [lia|]. rewrite andb_false_r.
    destruct (Z.ltb_spec 0 (vsize pm)); [|lia]. reflexivity.
  - destruct (0 <? vsize (CMerkleMountainView.peakMerkle v)) eqn:Hp.
    + cbn [bind snd]. unfold CMerkleMountainView.GetRoot. rewrite Hc, Hp. reflexivity.
    + cbn [bind snd]. unfold CMerkleMountainView.GetRoot. rewrite Hc, Hp. reflexivity.
Qed.
End ViewCache.

Section ViewResize.
Context {NT : NODE_TYPE}.

(** X9: [resize] returns the size of the view after the call, the
    requested size capped by the size of the range.  A call with the
    current size keeps the view and its caches; any other positive size
    gives the view that the constructor gives for it; size 0 on a
    non-empty view gives an empty view, whose root is the null hash. *)
Theorem view_resize (v : CMerkleMountainView.t) (newSize : Z) :
  0 <= newSize ->
  CMerkleMountainView.size v <= CMerkleMountainRange.size (CMerkleMountainView.mmr v) ->
  let v' := fst (CMerkleMountainView_resize v newSize) in
  snd (CMerkleMountainView_resize v newSize) = CMerkleMountainView.size v' /\
  CMerkleMountainView.size v'
    = Z.min newSize (CMerkleMountainRange.size (CMerkleMountainView.mmr v)) /\
  (newSize = CMerkleMountainView.size v -> v' = v) /\
  (newSize <> CMerkleMountainView.size v -> 0 < newSize ->
   v' = CMerkleMountainView.new (CMerkleMountainView.mmr v) newSize) /\
  (newSize = 0 -> 0 < CMerkleMountainView.size v ->
   CMerkleMountainView.GetRoot v' = Ok (uint256_null, v')).
Proof.
  intros Hn Hv. cbv zeta. unfold CMerkleMountainView_resize. cbn [fst snd].
  split; [reflexivity|].
  destruct (Z.eqb_spec newSize (CMerkleMountainView.size v)) as [He|Hne]; cbn [negb].
  - split; [lia|]. split; [reflexivity|]. split; [contradiction|].
    intros H0 Hpos. lia.
  - assert (Hsz : forall k, CMerkleMountainView.size
              (CMerkleMountainView.mk (CMerkleMountainView.mmr v)
                 (k :: halving 64 (Z.shiftr k 1)) [] []) = k).
    { intros k. unfold CMerkleMountainView.size. cbn [CMerkleMountainView.sizes].
      rewrite vsize_cons. pose proof (vsize_nonneg (halving 64 (Z.shiftr k 1))).
      destruct (Z.eqb_spec (vsize (halving 64 (Z.shiftr k 1)) + 1) 0); [lia|].
      reflexivity. }
    split; [|split; [contradiction|split]].
    + rewrite Hsz.
      destruct (Z.ltb_spec (CMerkleMountainRange.size (CMerkleMountainView.mmr v)) newSize);
        lia.
    + intros _ Hpos. unfold CMerkleMountainView.new.
      destruct (Z.eqb_spec newSize 0); [lia|]. now rewrite orb_false_r.
    + intros -> Hpos. unfold CMerkleMountainView.GetRoot. rewrite Hsz.
      destruct (Z.ltb_spec (CMerkleMountainRange.size (CMerkleMountainView.mmr v)) 0);
        [lia|reflexivity].
Qed.
End ViewResize.

Lemma view_resize_witness :
  0 <= 0 /\
  @CMerkleMountainView.size plain_nodes (CMerkleMountainView.new five_leaves 3)
    <= CMerkleMountainRange.size
         (CMerkleMountainView.mmr (CMerkleMountainView.new five_leaves 3)) /\
  let v := @CMerkleMountainView.new plain_nodes five_leaves 3 in
  let v' := fst (CMerkleMountainView_resize v 0) in
  snd (CMerkleMountainView_resize v 0) = CMerkleMountainView.size v' /\
  CMerkleMountainView.size v'
    = Z.min 0 (CMerkleMountainRange.size (CMerkleMountainView.mmr v)) /\
  (0 = CMerkleMountainView.size v -> v' = v) /\
  (0 <> CMerkleMountainView.size v -> 0 < 0 ->
   v' = CMerkleMountainView.new (CMerkleMountainView.mmr v) 0) /\
  (0 = 0 -> 0 < CMerkleMountainView.size v ->
   CMerkleMountainView.GetRoot v' = Ok (uint256_null, v')).
Proof.
  split; [lia|]. split; [vm_compute; discriminate|].
  apply (@view_resize plain_nodes (CMerkleMountainView.new five_leaves 3) 0).
  - lia.
  - vm_compute; discriminate.
Defined.

Lemma filter_none {A} (p : A -> bool) (l : list A) :
  (forall x, In x l -> p x = false) -> filter p l = [].
Proof.
  induction l as [|x l IH]; intros H; [reflexivity|].
  cbn [filter]. rewrite (H x (or_introl eq_refl)). apply IH.
  intros y Hy. apply H. now right.
Qed.

Lemma peak_heights_pow2 (j : Z) :
  0 <= j -> rev (filter (Z.testbit (2 ^ j)) (zrange 0 j)) = [j].
Proof.
  intros Hj.
  assert (E : zrange 0 j = zrange 0 (j - 1) ++ [j]).
  { pose proof (zrange_snoc 0 (j - 1) ltac:(lia)) as Hs.
    replace (j - 1 + 1) with j in Hs by lia. exact Hs. }
  rewrite E, filter_app, rev_app_distr. cbn [filter].
  rewrite Z.pow2_bits_true by lia. cbn [rev app].
  rewrite filter_none; [reflexivity|].
  intros x Hx. apply in_zrange in Hx. apply Z.pow2_bits_false. lia.
Qed.

Section SinglePeak.
Context {NT : NODE_TYPE}.

(** The root of a fresh view of a non-empty range: the peaks reduced. *)
Lemma GetRoot_reduce (m : CMerkleMountainRange.t) (viewSize : Z) :
  0 <= viewSize -> 0 < CMerkleMountainRange.size m < 2 ^ 64 - 1 ->
  result_map fst (CMerkleMountainView.GetRoot (CMerkleMountainView.new m viewSize))
  = spec_root (CMerkleMountainView.peaks
                 (CMerkleMountainView.CalcPeaks
                    (CMerkleMountainView.new m viewSize) false)).
Proof.
  intros Hv Hm.
  pose proof (view_size_pos m viewSize Hv ltac:(lia)) as Hpos.
  unfold CMerkleMountainView.GetRoot.
  set (v := CMerkleMountainView.new m viewSize) in *.
  destruct (Z.ltb_spec 0 (CMerkleMountainView.size v)); [|lia].
  change (vsize (CMerkleMountainView.peakMerkle v) =? 0) with true. cbn [andb].
  destruct (CalcPeaks_new m viewSize false Hv Hm) as (_ & _ & _ & _ & Hpm).
  pose proof (peaks_new_bounds m viewSize false Hv Hm) as Hb.
  fold v in Hpm, Hb. rewrite Hpm.
  rewrite <- GetRoot_loop_root by lia.
  destruct (CMerkleMountainView.GetRoot_loop _ _ _ _ _); reflexivity.
Qed.

(** X10: a view whose size is a power of two, [2^j], has the top of one
    complete mountain as its only peak, and its root is the hash of that
    node, [GetNode(j, 0)], with nothing hashed on top; the root of a view
    of one leaf is the hash of the leaf. *)
Theorem root_of_single_peak (leaves : list Node) (j : Z) :
  tree_ok leaves = true -> vsize leaves < 2 ^ 32 ->
  0 <= j -> 2 ^ j <= vsize leaves ->
  exists m,
    CMerkleMountainRange.build leaves = Ok m /\
    let v := CMerkleMountainView.new m (2 ^ j) in
    CMerkleMountainView.peaks (CMerkleMountainView.CalcPeaks v false)
      = [CMerkleMountainRange.GetNode m j 0] /\
    result_map fst (CMerkleMountainView.GetRoot v)
      = Ok (hash (CMerkleMountainRange.GetNode m j 0)) /\
    (j = 0 -> result_map fst (CMerkleMountainView.GetRoot v)
              = Ok (hash (vat NodeDefault leaves 0))).
Proof.
  intros Hok Hb Hj Hle. apply tree_ok_levels in Hok.
  exists (range_of leaves). split; [now apply build_range_of|]. cbv zeta.
  assert (Hp : 0 < 2 ^ j) by (apply Z.pow_pos_nonneg; lia).
  assert (Hsm : CMerkleMountainRange.size (range_of leaves) = vsize leaves)
    by (apply size_range_of; lia).
  assert (Hsz : CMerkleMountainView.size
                  (CMerkleMountainView.new (range_of leaves) (2 ^ j)) = 2 ^ j).
  { rewrite view_size_new, Hsm.
    destruct (Z.ltb_spec (vsize leaves) (2 ^ j)); [lia|].
    destruct (Z.eqb_spec (2 ^ j) 0); [lia|]. reflexivity. }
  destruct (CalcPeaks_new (range_of leaves) (2 ^ j) false ltac:(lia) ltac:(lia))
    as (Hpk & _).
  rewrite Hsz, Z.log2_pow2, peak_heights_pow2 in Hpk by lia.
  cbn [map] in Hpk.
  replace (Z.shiftr (2 ^ j) j - 1) with 0 in Hpk
    by (rewrite shiftr_div, Z.div_same by lia; reflexivity).
  assert (Hroot : result_map fst
                    (CMerkleMountainView.GetRoot
                       (CMerkleMountainView.new (range_of leaves) (2 ^ j)))
                  = Ok (hash (CMerkleMountainRange.GetNode (range_of leaves) j 0))).
  { rewrite GetRoot_reduce by lia. rewrite Hpk. reflexivity. }
  split; [exact Hpk|]. split; [exact Hroot|].
  intros ->. rewrite Hroot. rewrite GetNode_range_of by lia. reflexivity.
Qed.
End SinglePeak.

Lemma root_of_single_peak_witness :
  @tree_ok plain_nodes (plain_leaves [1; 2; 3; 4; 5]) = true /\
  vsize (plain_leaves [1; 2; 3; 4; 5]) < 2 ^ 32 /\
  0 <= 2 /\ 2 ^ 2 <= vsize (plain_leaves [1; 2; 3; 4; 5]) /\
  exists m,
    @CMerkleMountainRange.build plain_nodes (plain_leaves [1; 2; 3; 4; 5]) = Ok m /\
    let v := CMerkleMountainView.new m (2 ^ 2) in
    CMerkleMountainView.peaks (CMerkleMountainView.CalcPeaks v false)
      = [CMerkleMountainRange.GetNode m 2 0] /\
    result_map fst (CMerkleMountainView.GetRoot v)
      = Ok (@hash plain_nodes (CMerkleMountainRange.GetNode m 2 0)) /\
    (2 = 0 -> result_map fst (CMerkleMountainView.GetRoot v)
              = Ok (@hash plain_nodes
                      (vat NodeDefault (plain_leaves [1; 2; 3; 4; 5]) 0))).
Proof.
  split; [vm_compute; reflexivity|]. split; [vm_compute; reflexivity|].
  split; [lia|]. split; [vm_compute; discriminate|].
  apply (@root_of_single_peak plain_nodes (plain_leaves [1; 2; 3; 4; 5]) 2).
  - vm_compute; reflexivity.
  - vm_compute; reflexivity.
  - lia.
  - vm_compute; discriminate.
Defined.

(** ** Views of a range that grows *)

Section AppendStable.
Context {NT : NODE_TYPE}.
Variables leaves more : list Node.

Let n := vsize leaves.

Hypothesis Hpos : 0 < n.
Hypothesis Hall : vsize (leaves ++ more) < 2 ^ 32.

Lemma node_prefix (h i : Z) :
  0 <= h -> 0 <= i < Z.shiftr n h ->
  CMerkleMountainRange.GetNode (range_of (leaves ++ more)) h i
  = CMerkleMountainRange.GetNode (range_of leaves) h i.
Proof.
  intros Hh Hi. pose proof Hall as Hall'. rewrite vsize_app in Hall'.
  pose proof (vsize_nonneg more). pose proof Hpos as Hpos'. unfold n in Hpos', Hi.
  rewrite !GetNode_range_of by (try rewrite vsize_app; lia).
  assert (E : firstn (length leaves) (leaves ++ more) = leaves).
  { rewrite firstn_app, Nat.sub_diag, firstn_all. cbn. apply app_nil_r. }
  rewrite <- E at 2. symmetry. apply vat_level_firstn.
  rewrite E, vsize_level, Z2Nat.id by lia. exact Hi.
Qed.

Variable S : list Z.
Variable P : list Node.
Variable pm : list (list Node).

Let vb := CMerkleMountainView.mk (range_of (leaves ++ more)) S P pm.
Let vs := CMerkleMountainView.mk (range_of leaves) S P pm.

Lemma GetProof_peaks_prefix (fuel : nat) : forall layerNum layerSize p br,
  CMerkleMountainView.GetProof_peaks fuel vb layerNum layerSize p br
  = CMerkleMountainView.GetProof_peaks fuel vs layerNum layerSize p br.
Proof.
  induction fuel as [|fuel IH]; intros layerNum layerSize p br; [reflexivity|].
  rewrite !GetProof_peaks_unfold. unfold vb, vs at 1 2 3 4.
  cbn [CMerkleMountainView.peaks CMerkleMountainView.peakMerkle].
  destruct (_ || _); [|reflexivity]. cbv zeta. apply IH.
Qed.

Hypothesis HS : S = map (fun h => Z.shiftr n (Z.of_nat h))
                        (seq 0 (Datatypes.S (Z.to_nat (Z.log2 n)))).

Lemma GetProof_loop_prefix (d : nat) : forall l p br,
  l = Z.log2 n - Z.of_nat d -> 0 <= l -> 0 <= p < Z.shiftr n l ->
  CMerkleMountainView.GetProof_loop vb (zrange l (Z.log2 n)) p br
  = CMerkleMountainView.GetProof_loop vs (zrange l (Z.log2 n)) p br.
Proof.
  assert (Hstep : forall l rest p br,
            0 <= l <= Z.log2 n -> 0 <= p < Z.shiftr n l ->
            (forall p' br', 0 <= p' < Z.shiftr n (l + 1) ->
               CMerkleMountainView.GetProof_loop vb rest p' br'
               = CMerkleMountainView.GetProof_loop vs rest p' br') ->
            CMerkleMountainView.GetProof_loop vb (l :: rest) p br
            = CMerkleMountainView.GetProof_loop vs (l :: rest) p br).
  { intros l rest p br Hl Hp Hrest.
    assert (Hsl : Z.shiftr n l <= n) by (apply shiftr_le; lia).
    pose proof Hall as Hall'. rewrite vsize_app in Hall'.
    pose proof (vsize_nonneg more) as Hm.
    assert (Hn32 : 0 < n < 2 ^ 32) by (unfold n in *; lia).
    assert (Hnext : Z.shiftr n (l + 1) = Z.shiftr n l / 2) by (apply shiftr_succ; lia).
    pose proof (Z.div_mod (Z.shiftr n l) 2 ltac:(lia)) as Hds.
    pose proof (Z.mod_pos_bound (Z.shiftr n l) 2 ltac:(lia)) as Hms.
    cbn [CMerkleMountainView.GetProof_loop]. unfold vb, vs at 1 2 3 4 5 6 7 8.
    cbn [CMerkleMountainView.mmr CMerkleMountainView.sizes CMerkleMountainView.peaks
         CMerkleMountainView.peakMerkle].
    fold vb vs. rewrite !odd_test.
    assert (Hat : vat 0 S l = Z.shiftr n l) by (rewrite HS; apply vat_sizes; lia).
    rewrite !Hat.
    destruct (Z.odd p) eqn:Hodd; cbn [negb].
    - pose proof (odd_half p Hodd) as Hh.
      rewrite (shiftr_div p 1) in Hh by lia. change (2 ^ 1) with 2 in Hh.
      rewrite uint64_small by lia.
      rewrite !node_prefix by lia.
      apply Hrest. rewrite Hnext, (shiftr_div p 1) by lia. change (2 ^ 1) with 2.
      split; [apply Z.div_pos; lia|]. lia.
    - pose proof (even_half p Hodd) as Hh.
      rewrite (shiftr_div p 1) in Hh by lia. change (2 ^ 1) with 2 in Hh.
      rewrite !uint64_small by lia.
      destruct (Z.ltb_spec (p + 1) (Z.shiftr n l)).
      + rewrite !node_prefix by lia.
        apply Hrest. rewrite Hnext, (shiftr_div p 1) by lia. change (2 ^ 1) with 2.
        split; [apply Z.div_pos; lia|]. lia.
      + rewrite !node_prefix by lia.
        cbv zeta. destruct (assert _); [|reflexivity]. cbn [bind].
        apply GetProof_peaks_prefix. }
  pose proof (Z.log2_nonneg n) as Hlog.
  induction d as [|d IH]; intros l p br Hl Hl0 Hp.
  - assert (El : l = Z.log2 n) by lia. clear Hl. subst l. rewrite zrange_single.
    apply Hstep; [lia|assumption|]. intros p' br' Hp'.
    rewrite shiftr_above_log2 in Hp' by lia. lia.
  - rewrite zrange_head by lia. apply Hstep; [lia|assumption|].
    intros p' br' Hp'. apply IH; lia.
Qed.
End AppendStable.

Section AppendTheorem.
Context {NT : NODE_TYPE}.

(** [GetRoot] on a fresh view of a non-empty range, written out. *)
Lemma GetRoot_new (m : CMerkleMountainRange.t) (viewSize : Z) :
  0 <= viewSize -> 0 < CMerkleMountainRange.size m < 2 ^ 64 - 1 ->
  let v := CMerkleMountainView.new m viewSize in
  let P := CMerkleMountainView.peaks (CMerkleMountainView.CalcPeaks v false) in
  CMerkleMountainView.GetRoot v
  = (pm <- CMerkleMountainView.GetRoot_loop (S (S (length P))) P [] 0
             (uint32_t (vsize P)) ;;
     Ok (hash (vat NodeDefault (last pm []) 0),
         CMerkleMountainView.mk m (CMerkleMountainView.sizes v) P pm)).
Proof.
  intros Hv Hm v P.
  pose proof (view_size_pos m viewSize Hv ltac:(lia)) as Hpos.
  destruct (CalcPeaks_new m viewSize false Hv Hm) as (_ & _ & Hsz & Hmmr & Hpm).
  fold v in Hpos, Hsz, Hmmr, Hpm.
  unfold CMerkleMountainView.GetRoot. fold v.
  destruct (Z.ltb_spec 0 (CMerkleMountainView.size v)); [|lia].
  change (vsize (CMerkleMountainView.peakMerkle v) =? 0) with true.
  cbn [andb]. rewrite Hpm, Hsz, Hmmr. reflexivity.
Qed.

(** X11: appending to a range changes neither the root nor any proof of a
    view of an earlier size: the view of size [n] over the range with
    more leaves appended gives the root and the proofs of the view over
    the range of the first [n] leaves. *)
Theorem view_stable_under_append (leaves more : list Node) (pos : Z) :
  tree_ok (leaves ++ more) = true ->
  0 < vsize leaves -> vsize (leaves ++ more) < 2 ^ 32 -> 0 <= pos ->
  exists m m',
    CMerkleMountainRange.build leaves = Ok m /\
    CMerkleMountainRange.build (leaves ++ more) = Ok m' /\
    result_map fst (CMerkleMountainView.GetRoot
                      (CMerkleMountainView.new m' (vsize leaves)))
    = result_map fst (CMerkleMountainView.GetRoot
                        (CMerkleMountainView.new m (vsize leaves))) /\
    result_map fst (CMerkleMountainView.GetProof
                      (CMerkleMountainView.new m' (vsize leaves)) pos)
    = result_map fst (CMerkleMountainView.GetProof
                        (CMerkleMountainView.new m (vsize leaves)) pos).
Proof.
  intros Hok Hpos Hall Hp. apply tree_ok_levels in Hok.
  pose proof (levels_ok_app _ _ Hok) as Hok0.
  pose proof (vsize_app leaves more) as Hva.
  pose proof (vsize_nonneg more) as Hmore.
  exists (range_of leaves), (range_of (leaves ++ more)).
  split; [apply build_range_of; [assumption|lia]|].
  split; [apply build_range_of; assumption|].
  set (n := vsize leaves) in *.
  set (mb := range_of (leaves ++ more)). set (ms := range_of leaves).
  assert (Hsb : CMerkleMountainRange.size mb = vsize (leaves ++ more))
    by (apply size_range_of; lia).
  assert (Hss : CMerkleMountainRange.size ms = n) by (apply size_range_of; lia).
  assert (Hvb : CMerkleMountainView.size (CMerkleMountainView.new mb n) = n).
  { rewrite view_size_new, Hsb.
    destruct (Z.ltb_spec (vsize (leaves ++ more)) n); [lia|].
    destruct (Z.eqb_spec n 0); [lia|]. reflexivity. }
  assert (Hvs : CMerkleMountainView.size (CMerkleMountainView.new ms n) = n).
  { rewrite view_size_new, Hss. rewrite Z.ltb_irrefl.
    destruct (Z.eqb_spec n 0); [lia|]. reflexivity. }
  pose proof (sizes_new_head mb n) as Hhb. pose proof (sizes_new_head ms n) as Hhs.
  cbv zeta in Hhb, Hhs. rewrite Hvb in Hhb. rewrite Hvs in Hhs.
  destruct (sizes_new ms n ltac:(lia) ltac:(lia)) as [_ HS].
  rewrite Hvs in HS.
  destruct (CalcPeaks_new mb n false ltac:(lia) ltac:(lia)) as (Hpb & _).
  destruct (CalcPeaks_new ms n false ltac:(lia) ltac:(lia)) as (Hps & _).
  rewrite Hvb in Hpb. rewrite Hvs in Hps.
  assert (HP : CMerkleMountainView.peaks
                 (CMerkleMountainView.CalcPeaks (CMerkleMountainView.new mb n) false)
               = CMerkleMountainView.peaks
                   (CMerkleMountainView.CalcPeaks (CMerkleMountainView.new ms n) false)).
  { rewrite Hpb, Hps. apply map_ext_in. intros ht Hht.
    apply in_rev, filter_In in Hht. destruct Hht as [Hht _].
    apply in_zrange in Hht.
    apply (node_prefix leaves more Hpos Hall); [lia|].
    assert (1 <= Z.shiftr n ht) by (apply shiftr_log2_ge; lia). fold n. lia. }
  pose proof (GetRoot_new mb n ltac:(lia) ltac:(lia)) as Grb.
  pose proof (GetRoot_new ms n ltac:(lia) ltac:(lia)) as Grs.
  cbv zeta in Grb, Grs. rewrite HP, Hhb in Grb. rewrite Hhs in Grs.
  set (P := CMerkleMountainView.peaks
              (CMerkleMountainView.CalcPeaks (CMerkleMountainView.new ms n) false)) in *.
  set (L := CMerkleMountainView.GetRoot_loop (S (S (length P))) P [] 0
              (uint32_t (vsize P))) in *.
  split.
  - rewrite Grb, Grs. destruct L; reflexivity.
  - unfold CMerkleMountainView.GetProof. rewrite Hvb, Hvs.
    destruct (Z.ltb_spec pos n) as [Hlt|]; [|reflexivity].
    unfold CMerkleMountainView.GetProof_walk. rewrite Grb, Grs.
    destruct L as [pm|]; [|reflexivity]. cbn [bind snd fst].
    cbn [CMerkleMountainView.mmr CMerkleMountainView.sizes].
    unfold mb, ms. cbn [range_of CMerkleMountainRange.layer0].
    rewrite (chunked_get _ (leaves ++ more))
      by (try apply chunked_layer_of; lia).
    rewrite (chunked_get _ leaves) by (try apply chunked_layer_of; fold n; lia).
    rewrite vat_app1 by (fold n; lia). cbn [bind].
    assert (Hlen : vsize (n :: halving 64 (Z.shiftr n 1)) - 1 = Z.log2 n).
    { rewrite <- Hhs, HS. unfold vsize. rewrite length_map, length_seq.
      pose proof (Z.log2_nonneg n). lia. }
    rewrite Hlen.
    rewrite (GetProof_loop_prefix leaves more Hpos Hall
               (n :: halving 64 (Z.shiftr n 1)) P pm
               ltac:(rewrite <- Hhs; exact HS)
               (Z.to_nat (Z.log2 n)) 0 pos)
      by (pose proof (Z.log2_nonneg n); rewrite ?Z.shiftr_0_r; fold n; lia).
    fold ms.
    destruct (CMerkleMountainView.GetProof_loop _ _ _ _) as [w|]; reflexivity.
Qed.
End AppendTheorem.

Lemma view_stable_under_append_witness :
  @tree_ok plain_nodes (plain_leaves [1; 2; 3] ++ plain_leaves [4; 5]) = true /\
  0 < vsize (plain_leaves [1; 2; 3]) /\
  vsize (plain_leaves [1; 2; 3] ++ plain_leaves [4; 5]) < 2 ^ 32 /\ 0 <= 1 /\
  exists m m',
    @CMerkleMountainRange.build plain_nodes (plain_leaves [1; 2; 3]) = Ok m /\
    @CMerkleMountainRange.build plain_nodes (plain_leaves [1; 2; 3] ++ plain_leaves [4; 5])
      = Ok m' /\
    result_map fst (CMerkleMountainView.GetRoot
                      (CMerkleMountainView.new m' (vsize (plain_leaves [1; 2; 3]))))
    = result_map fst (CMerkleMountainView.GetRoot
                        (CMerkleMountainView.new m (vsize (plain_leaves [1; 2; 3])))) /\
    result_map fst (CMerkleMountainView.GetProof
                      (CMerkleMountainView.new m' (vsize (plain_leaves [1; 2; 3]))) 1)
    = result_map fst (CMerkleMountainView.GetProof
                        (CMerkleMountainView.new m (vsize (plain_leaves [1; 2; 3]))) 1).
Proof.
  split; [vm_compute; reflexivity|]. split; [vm_compute; reflexivity|].
  split; [vm_compute; reflexivity|]. split; [lia|].
  apply (@view_stable_under_append plain_nodes (plain_leaves [1; 2; 3])
           (plain_leaves [4; 5]) 1).
  - vm_compute; reflexivity.
  - vm_compute; reflexivity.
  - vm_compute; reflexivity.
  - lia.
Defined.

(** ** CMMRPowerNode: work and stake *)

Lemma lor_shift_add (a b k : Z) :
  0 <= k -> 0 <= b < 2 ^ k -> Z.lor (Z.shiftl a k) b = a * 2 ^ k + b.
Proof.
  intros Hk Hb. rewrite <- Z.shiftl_mul_pow2 by lia.
  rewrite <- Z.lxor_lor, <- Z.add_nocarry_lxor; try reflexivity.
  - apply Z.bits_inj'. intros i Hi. rewrite Z.land_spec, Z.bits_0.
    destruct (Z.lt_ge_cases i k).
    + rewrite Z.shiftl_spec_low by lia. reflexivity.
    + rewrite andb_comm. destruct (Z.eq_dec b 0) as [->|Hb0].
      * now rewrite Z.bits_0.
      * assert (2 ^ k <= 2 ^ i) by (apply Z.pow_le_mono_r; lia).
        rewrite Z.bits_above_log2; [reflexivity|lia|].
        apply Z.log2_lt_pow2; lia.
  - apply Z.bits_inj'. intros i Hi. rewrite Z.land_spec, Z.bits_0.
    destruct (Z.lt_ge_cases i k).
    + rewrite Z.shiftl_spec_low by lia. reflexivity.
    + rewrite andb_comm. destruct (Z.eq_dec b 0) as [->|Hb0].
      * now rewrite Z.bits_0.
      * assert (2 ^ k <= 2 ^ i) by (apply Z.pow_le_mono_r; lia).
        rewrite Z.bits_above_log2; [reflexivity|lia|].
        apply Z.log2_lt_pow2; lia.
Qed.

Section PowerFacts.
Context {HW : HASHALGOWRITER}.

Lemma Work_spec (n : CMMRPowerNode) :
  power_ok n -> Work n = power n mod 2 ^ 128 /\ 0 <= Work n < 2 ^ 128.
Proof.
  intros Hn. unfold power_ok in Hn. unfold Work, arith_uint256.
  rewrite Z.shiftl_mul_pow2, Z.shiftr_div_pow2 by lia.
  pose proof (Z.mod_pos_bound (power n) (2 ^ 128) ltac:(lia)) as Hm.
  assert (E : (power n * 2 ^ 128) mod 2 ^ 256 / 2 ^ 128 = power n mod 2 ^ 128).
  { change (2 ^ 256) with (2 ^ 128 * 2 ^ 128).
    rewrite Z.mul_comm, Z.mul_mod_distr_l by lia.
    rewrite Z.mul_comm, Z.div_mul by lia. reflexivity. }
  rewrite E. split; [reflexivity|exact Hm].
Qed.

Lemma Stake_spec (n : CMMRPowerNode) :
  power_ok n -> Stake n = power n / 2 ^ 128 /\ 0 <= Stake n < 2 ^ 128.
Proof.
  intros Hn. unfold power_ok in Hn. unfold Stake.
  rewrite Z.shiftr_div_pow2 by lia. split; [reflexivity|].
  split; [apply Z.div_pos; lia|].
  apply Z.div_lt_upper_bound; [lia|]. change (2 ^ 128 * 2 ^ 128) with (2 ^ 256). lia.
Qed.

Lemma fits128 (x : Z) :
  0 <= x < 2 ^ 129 ->
  (Z.shiftr (arith_uint256 (Z.shiftl x 128)) 128 =? x) = (x <? 2 ^ 128).
Proof.
  intros Hx. unfold arith_uint256.
  rewrite Z.shiftl_mul_pow2, Z.shiftr_div_pow2 by lia.
  assert (E : (x * 2 ^ 128) mod 2 ^ 256 / 2 ^ 128 = x mod 2 ^ 128).
  { change (2 ^ 256) with (2 ^ 128 * 2 ^ 128).
    rewrite Z.mul_comm, Z.mul_mod_distr_l by lia.
    rewrite Z.mul_comm, Z.div_mul by lia. reflexivity. }
  rewrite E.
  destruct (Z.ltb_spec x (2 ^ 128)).
  - rewrite Z.mod_small by lia. apply Z.eqb_refl.
  - apply Z.eqb_neq. pose proof (Z.mod_pos_bound x (2 ^ 128) ltac:(lia)). lia.
Qed.

Lemma parent_fields (h : uint256) (work stake : Z) :
  0 <= work < 2 ^ 128 -> 0 <= stake < 2 ^ 128 ->
  let p := mkCMMRPowerNode h (stake * 2 ^ 128 + work) in
  power_ok p /\ Work p = work /\ Stake p = stake.
Proof.
  intros Hw Hs p.
  assert (Hp : power_ok p).
  { unfold power_ok, p. cbn [power].
    change (2 ^ 256) with (2 ^ 128 * 2 ^ 128). nia. }
  split; [exact Hp|].
  destruct (Work_spec _ Hp) as [Ewp _]. destruct (Stake_spec _ Hp) as [Esp _].
  unfold p in Ewp, Esp. cbn [power] in Ewp, Esp. fold p in Ewp, Esp.
  rewrite Ewp, Esp. split.
  - rewrite Z.add_comm, Z.mod_add by lia. apply Z.mod_small. lia.
  - rewrite Z.add_comm, Z.div_add by lia. rewrite Z.div_small by lia. reflexivity.
Qed.

Lemma CreateParentNode_unfold (l r : CMMRPowerNode) :
  power_ok l -> power_ok r ->
  CMMRPowerNode_CreateParentNode l r
  = if (Work l + Work r <? 2 ^ 128) && (Stake l + Stake r <? 2 ^ 128)
    then let nodePower := (Stake l + Stake r) * 2 ^ 128 + (Work l + Work r) in
         Ok (mkCMMRPowerNode
               (HashObj (HashObj (CMMRPowerNode_hash l) (CMMRPowerNode_hash r))
                        nodePower)
               nodePower)
    else Throw assert_failure.
Proof.
  intros Hl Hr.
  destruct (Work_spec l Hl) as [_ Hwl]. destruct (Work_spec r Hr) as [_ Hwr].
  destruct (Stake_spec l Hl) as [_ Hsl]. destruct (Stake_spec r Hr) as [_ Hsr].
  unfold CMMRPowerNode_CreateParentNode. cbv zeta.
  assert (Ew : arith_uint256 (Work l + Work r) = Work l + Work r)
    by (unfold arith_uint256; apply Z.mod_small; lia).
  assert (Es : arith_uint256 (Stake l + Stake r) = Stake l + Stake r)
    by (unfold arith_uint256; apply Z.mod_small; lia).
  rewrite Ew, Es. rewrite !fits128 by lia.
  destruct (Z.ltb_spec (Work l + Work r) (2 ^ 128)) as [Hw|Hw];
    destruct (Z.ltb_spec (Stake l + Stake r) (2 ^ 128)) as [Hs|Hs];
    cbn [andb assert bind]; try reflexivity.
  set (work := Work l + Work r) in *. set (stake := Stake l + Stake r) in *.
  assert (Esh : arith_uint256 (Z.shiftl stake 128) = Z.shiftl stake 128).
  { unfold arith_uint256. rewrite Z.shiftl_mul_pow2 by lia.
    apply Z.mod_small. change (2 ^ 256) with (2 ^ 128 * 2 ^ 128). nia. }
  rewrite Esh. rewrite lor_shift_add by lia. reflexivity.
Qed.

(** X12: the parent of two power nodes exists exactly when the sums of
    their works and of their stakes each fit 128 bits, and fails the
    assertion otherwise; its work and its stake are those sums, and its
    hash is the hash of the two hashes hashed with its power. *)
Theorem power_parent (l r : CMMRPowerNode) :
  power_ok l -> power_ok r ->
  if (Work l + Work r <? 2 ^ 128) && (Stake l + Stake r <? 2 ^ 128) then
    exists p,
      CMMRPowerNode_CreateParentNode l r = Ok p /\
      power_ok p /\
      Work p = Work l + Work r /\
      Stake p = Stake l + Stake r /\
      CMMRPowerNode_hash p
      = HashObj (HashObj (CMMRPowerNode_hash l) (CMMRPowerNode_hash r)) (power p)
  else CMMRPowerNode_CreateParentNode l r = Throw assert_failure.
Proof.
  intros Hl Hr.
  destruct (Work_spec l Hl) as [_ Hwl]. destruct (Work_spec r Hr) as [_ Hwr].
  destruct (Stake_spec l Hl) as [_ Hsl]. destruct (Stake_spec r Hr) as [_ Hsr].
  rewrite (CreateParentNode_unfold l r Hl Hr).
  destruct (Z.ltb_spec (Work l + Work r) (2 ^ 128)) as [Hw|Hw];
    destruct (Z.ltb_spec (Stake l + Stake r) (2 ^ 128)) as [Hs|Hs];
    cbn [andb]; try reflexivity.
  cbv zeta. eexists. split; [reflexivity|].
  destruct (parent_fields
              (HashObj (HashObj (CMMRPowerNode_hash l) (CMMRPowerNode_hash r))
                       ((Stake l + Stake r) * 2 ^ 128 + (Work l + Work r)))
              (Work l + Work r) (Stake l + Stake r) ltac:(lia) ltac:(lia))
    as (Hp & Ew & Es).
  repeat split; try assumption; apply Hp.
Qed.
End PowerFacts.

Lemma power_parent_witness :
  power_ok (mkCMMRPowerNode 142 5) /\ power_ok (mkCMMRPowerNode 178 (2 ^ 128 + 6)) /\
  if (Work (mkCMMRPowerNode 142 5) + Work (mkCMMRPowerNode 178 (2 ^ 128 + 6)) <? 2 ^ 128)
     && (Stake (mkCMMRPowerNode 142 5) + Stake (mkCMMRPowerNode 178 (2 ^ 128 + 6))
         <? 2 ^ 128)
  then
    exists p,
      @CMMRPowerNode_CreateParentNode pair_writer (mkCMMRPowerNode 142 5)
        (mkCMMRPowerNode 178 (2 ^ 128 + 6)) = Ok p /\
      power_ok p /\
      Work p = Work (mkCMMRPowerNode 142 5) + Work (mkCMMRPowerNode 178 (2 ^ 128 + 6)) /\
      Stake p = Stake (mkCMMRPowerNode 142 5)
                + Stake (mkCMMRPowerNode 178 (2 ^ 128 + 6)) /\
      CMMRPowerNode_hash p
      = @HashObj pair_writer
          (@HashObj pair_writer (CMMRPowerNode_hash (mkCMMRPowerNode 142 5))
             (CMMRPowerNode_hash (mkCMMRPowerNode 178 (2 ^ 128 + 6))))
          (power p)
  else @CMMRPowerNode_CreateParentNode pair_writer (mkCMMRPowerNode 142 5)
         (mkCMMRPowerNode 178 (2 ^ 128 + 6)) = Throw assert_failure.
Proof.
  split; [vm_compute; split; [discriminate|reflexivity]|].
  split; [vm_compute; split; [discriminate|reflexivity]|].
  apply (@power_parent pair_writer (mkCMMRPowerNode 142 5)
           (mkCMMRPowerNode 178 (2 ^ 128 + 6))).
  - vm_compute; split; [discriminate|reflexivity].
  - vm_compute; split; [discriminate|reflexivity].
Defined.

(** ** The power of the root *)

Lemma total_of_app {A} (f : A -> Z) (a b : list A) :
  total_of f (a ++ b) = total_of f a + total_of f b.
Proof.
  unfold total_of. induction a as [|x a IH]; cbn [app fold_right]; lia.
Qed.

Lemma total_of_rev {A} (f : A -> Z) (l : list A) : total_of f (rev l) = total_of f l.
Proof.
  induction l as [|x l IH]; [reflexivity|].
  cbn [rev]. rewrite total_of_app, IH. unfold total_of. cbn [fold_right]. lia.
Qed.

Lemma total_of_map {A B} (g : A -> B) (f : B -> Z) (l : list A) :
  total_of f (map g l) = total_of (fun x => f (g x)) l.
Proof.
  unfold total_of. induction l as [|x l IH]; [reflexivity|].
  cbn [map fold_right]. now rewrite IH.
Qed.

Lemma total_of_ext_in {A} (f g : A -> Z) (l : list A) :
  (forall x, In x l -> f x = g x) -> total_of f l = total_of g l.
Proof.
  unfold total_of. induction l as [|x l IH]; intros H; [reflexivity|].
  cbn [fold_right].
  rewrite (H x (or_introl eq_refl)), IH; [reflexivity|].
  intros y Hy. apply H. now right.
Qed.

Lemma total_of_cons {A} (f : A -> Z) (x : A) (l : list A) :
  total_of f (x :: l) = f x + total_of f l.
Proof. reflexivity. Qed.

Lemma vat_last_elem {A} (d : A) (l : list A) :
  l <> [] -> vat d l (vsize l - 1) = last l d.
Proof.
  intros Hl. unfold vat, vsize.
  replace (Z.to_nat (Z.of_nat (length l) - 1)) with (length l - 1)%nat by lia.
  apply nth_last.
Qed.

Section Aggregate.
Context {HW : HASHALGOWRITER}.
Let PN : NODE_TYPE := @CMMRPowerNode_type HW.

Variable f : CMMRPowerNode -> Z.
Hypothesis f_parent : forall l r p,
  power_ok l -> power_ok r ->
  CMMRPowerNode_CreateParentNode l r = Ok p -> power_ok p /\ f p = f l + f r.

Lemma pairs_total (l : list CMMRPowerNode) :
  Forall power_ok l -> @pairs_ok PN l = true ->
  Forall power_ok (@pairs PN l) /\
  total_of f l
  = total_of f (@pairs PN l)
    + (if Z.odd (vsize l) then f (last l (@NodeDefault PN)) else 0).
Proof.
  induction l as [| a | a b l IH] using list_pair_ind; intros Hv Hok.
  - split; [constructor|reflexivity].
  - split; [constructor|]. rewrite total_of_cons. cbn. lia.
  - inversion Hv as [|? ? Ha Hv1]; subst. inversion Hv1 as [|? ? Hb Hv2]; subst.
    cbn [pairs_ok] in Hok. apply andb_prop in Hok. destruct Hok as [Hc Hok].
    destruct (IH Hv2 Hok) as [IHv IHt].
    cbn [pairs]. unfold parent.
    destruct (@CreateParentNode PN a b) as [p|] eqn:Hp; [|discriminate].
    destruct (f_parent a b p Ha Hb Hp) as [Hpv Hpf].
    split; [constructor; assumption|].
    rewrite !total_of_cons, Hpf, IHt.
    assert (Hodd : Z.odd (vsize (a :: b :: l)) = Z.odd (vsize l)).
    { unfold vsize. cbn [length]. rewrite !Nat2Z.inj_succ.
      rewrite Z.odd_succ, Z.even_succ. reflexivity. }
    rewrite Hodd. destruct (Z.odd (vsize l)) eqn:Ho; [|lia].
    destruct l as [|c l]; [discriminate|]. cbn [last]. lia.
Qed.

Lemma layer_up_total (l : list CMMRPowerNode) : forall l',
  Forall power_ok l -> @layer_up PN l = Ok l' ->
  Forall power_ok l' /\ total_of f l' = total_of f l.
Proof.
  induction l as [| a | a b l IH] using list_pair_ind; intros l' Hv Hup.
  - cbn in Hup.
    pose proof (f_equal (fun r => match r with Ok x => x | Throw _ => l' end) Hup) as E.
    cbn in E. subst l'. split; [constructor|reflexivity].
  - cbn in Hup.
    pose proof (f_equal (fun r => match r with Ok x => x | Throw _ => l' end) Hup) as E.
    cbn in E. subst l'. split; [assumption|reflexivity].
  - inversion Hv as [|? ? Ha Hv1]; subst. inversion Hv1 as [|? ? Hb Hv2]; subst.
    cbn [layer_up] in Hup.
    destruct (@CreateParentNode PN a b) as [p|] eqn:Hp; [|discriminate].
    cbn [bind] in Hup.
    destruct (@layer_up PN l) as [above|] eqn:Ha'; [|discriminate].
    cbn [bind] in Hup.
    pose proof (f_equal (fun r => match r with Ok x => x | Throw _ => l' end) Hup) as E.
    cbn in E. subst l'.
    destruct (IH above Hv2 eq_refl) as [IHv IHt].
    destruct (f_parent a b p Ha Hb Hp) as [Hpv Hpf].
    split; [constructor; assumption|].
    rewrite !total_of_cons, Hpf, IHt. lia.
Qed.

Lemma tower_total (first : list CMMRPowerNode) (rest : list (list CMMRPowerNode)) :
  @tower_of PN first rest -> Forall power_ok first -> 1 <= vsize first ->
  total_of f (last (first :: rest) []) = total_of f first /\
  vsize (last (first :: rest) []) = 1.
Proof.
  induction 1 as [l Hl|l above rest Hl Hup Htw IH]; intros Hv Hne;
    change (@Node PN) with CMMRPowerNode in *.
  - cbn [last]. split; [reflexivity|lia].
  - destruct (layer_up_total l above Hv Hup) as [Hva Hta].
    pose proof (@vsize_layer_up PN l above Hup) as Hsz.
    change (@Node PN) with CMMRPowerNode in *.
    assert (1 <= vsize above).
    { rewrite Hsz. apply Z.div_le_lower_bound; lia. }
    destruct (IH Hva ltac:(assumption)) as [IHt IHs].
    change (last (l :: above :: rest) []) with (last (above :: rest) []).
    split; [now rewrite IHt|exact IHs].
Qed.

Variable leaves : list CMMRPowerNode.
Hypothesis Hok : @levels_ok PN leaves.
Hypothesis Hvalid : Forall power_ok leaves.

Lemma levels_valid (h : nat) : Forall power_ok (@level PN h leaves).
Proof.
  induction h as [|h IH]; [exact Hvalid|].
  cbn [level]. apply pairs_total; [exact IH|apply Hok].
Qed.

Lemma level_total (d : nat) : forall h : Z,
  h = Z.log2 (vsize leaves) + 1 - Z.of_nat d -> 0 <= h ->
  total_of f (@level PN (Z.to_nat h) leaves)
  = total_of (fun ht => f (last (@level PN (Z.to_nat ht) leaves) (@NodeDefault PN)))
      (filter (Z.testbit (vsize leaves)) (zrange h (Z.log2 (vsize leaves)))).
Proof.
  induction d as [|d IH]; intros h Hh H0.
  - rewrite zrange_empty by lia.
    rewrite (@level_top_empty PN) by (change (@Node PN) with CMMRPowerNode; lia).
    reflexivity.
  - rewrite zrange_head by lia. cbn [filter].
    destruct (pairs_total _ (levels_valid (Z.to_nat h)) (Hok (Z.to_nat h))) as [_ Ht].
    rewrite Ht. rewrite (@vsize_level PN), Z2Nat.id by lia.
    change (@Node PN) with CMMRPowerNode.
    rewrite Z.testbit_odd.
    change (@pairs PN (@level PN (Z.to_nat h) leaves))
      with (@level PN (S (Z.to_nat h)) leaves).
    replace (S (Z.to_nat h)) with (Z.to_nat (h + 1)) by lia.
    rewrite (IH (h + 1)) by lia.
    destruct (Z.odd (Z.shiftr (vsize leaves) h)).
    + rewrite total_of_cons. cbv beta. change (@Node PN) with CMMRPowerNode. lia.
    + change (@Node PN) with CMMRPowerNode. lia.
Qed.
End Aggregate.

Section RootPower.
Context {HW : HASHALGOWRITER}.
Let PN : NODE_TYPE := @CMMRPowerNode_type HW.

Lemma parent_sums (l r p : CMMRPowerNode) :
  power_ok l -> power_ok r ->
  CMMRPowerNode_CreateParentNode l r = Ok p ->
  power_ok p /\ Work p = Work l + Work r /\ Stake p = Stake l + Stake r.
Proof.
  intros Hl Hr Hp.
  destruct (Work_spec l Hl) as [_ Hwl]. destruct (Work_spec r Hr) as [_ Hwr].
  destruct (Stake_spec l Hl) as [_ Hsl]. destruct (Stake_spec r Hr) as [_ Hsr].
  rewrite (CreateParentNode_unfold l r Hl Hr) in Hp.
  destruct (Z.ltb_spec (Work l + Work r) (2 ^ 128)) as [Hw|Hw];
    destruct (Z.ltb_spec (Stake l + Stake r) (2 ^ 128)) as [Hs|Hs];
    cbn [andb] in Hp; try discriminate.
  cbv zeta in Hp.
  pose proof (f_equal (fun x => match x with Ok y => y | Throw _ => p end) Hp) as E.
  cbv beta iota in E. rewrite <- E.
  apply (parent_fields _ (Work l + Work r) (Stake l + Stake r)); lia.
Qed.

Variable f : CMMRPowerNode -> Z.
Hypothesis f_parent : forall l r p,
  power_ok l -> power_ok r ->
  CMMRPowerNode_CreateParentNode l r = Ok p -> power_ok p /\ f p = f l + f r.

Variable leaves : list CMMRPowerNode.
Hypothesis Hok : @levels_ok PN leaves.
Hypothesis Hvalid : Forall power_ok leaves.
Hypothesis Hn : 0 < vsize leaves < 2 ^ 32.

Let v := @CMerkleMountainView.new PN (@range_of PN leaves) 0.

Lemma peaks_total :
  total_of f (CMerkleMountainView.peaks (CMerkleMountainView.CalcPeaks v false))
    = total_of f leaves /\
  Forall power_ok (CMerkleMountainView.peaks (CMerkleMountainView.CalcPeaks v false)).
Proof.
  assert (Hsm : CMerkleMountainRange.size (@range_of PN leaves) = vsize leaves)
    by (apply (@size_range_of PN); change (@Node PN) with CMMRPowerNode; lia).
  assert (Hsz : CMerkleMountainView.size v = vsize leaves).
  { unfold v. rewrite (@view_size_new PN), Hsm. now rewrite orb_true_r. }
  destruct (@CalcPeaks_new PN (@range_of PN leaves) 0 false ltac:(lia)
              ltac:(rewrite Hsm; lia)) as (Hpk & _).
  fold v in Hpk. rewrite Hsz in Hpk.
  change (@Node PN) with CMMRPowerNode in *.
  pose proof (Z.log2_nonneg (vsize leaves)) as Hlog.
  assert (Hnode : forall ht, In ht (rev (filter (Z.testbit (vsize leaves))
                                           (zrange 0 (Z.log2 (vsize leaves))))) ->
            CMerkleMountainRange.GetNode (@range_of PN leaves) ht
              (Z.shiftr (vsize leaves) ht - 1)
            = last (@level PN (Z.to_nat ht) leaves) (@NodeDefault PN) /\
            In (last (@level PN (Z.to_nat ht) leaves) (@NodeDefault PN))
               (@level PN (Z.to_nat ht) leaves)).
  { intros ht Hht. apply in_rev, filter_In in Hht. destruct Hht as [Hht _].
    apply in_zrange in Hht.
    assert (Hs : 1 <= Z.shiftr (vsize leaves) ht) by (apply shiftr_log2_ge; lia).
    pose proof (@vsize_level PN (Z.to_nat ht) leaves) as Hvl.
    rewrite Z2Nat.id in Hvl by lia.
    change (@Node PN) with CMMRPowerNode in *.
    assert (Hne : @level PN (Z.to_nat ht) leaves <> []).
    { intros E. rewrite E in Hvl. unfold vsize in Hvl at 1. cbn in Hvl. lia. }
    rewrite (@GetNode_range_of PN) by (change (@Node PN) with CMMRPowerNode; lia).
    rewrite <- Hvl. rewrite vat_last_elem by assumption.
    split; [reflexivity|].
    destruct (exists_last Hne) as (l0 & x & E). rewrite E, last_last.
    apply in_or_app. right. now left. }
  split.
  - rewrite Hpk, total_of_map.
    rewrite (total_of_ext_in _
               (fun ht => f (last (@level PN (Z.to_nat ht) leaves) (@NodeDefault PN))))
      by (intros ht Hht; f_equal; apply Hnode; exact Hht).
    rewrite total_of_rev.
    pose proof (level_total f f_parent leaves Hok Hvalid
                  (Z.to_nat (Z.log2 (vsize leaves) + 1)) 0 ltac:(lia) ltac:(lia)) as Ht.
    cbn [Z.to_nat level] in Ht. symmetry. exact Ht.
  - rewrite Hpk. apply Forall_forall. intros x Hx. apply in_map_iff in Hx.
    destruct Hx as (ht & <- & Hht). destruct (Hnode ht Hht) as [-> Hin].
    pose proof (levels_valid f f_parent leaves Hok Hvalid (Z.to_nat ht)) as Hv.
    rewrite Forall_forall in Hv. now apply Hv.
Qed.

Lemma root_total (root : uint256) (v1 : CMerkleMountainView.t) :
  CMerkleMountainView.GetRoot v = Ok (root, v1) ->
  let nd := vat (@NodeDefault PN) (last (CMerkleMountainView.peakMerkle v1) []) 0 in
  f nd = total_of f leaves /\ CMMRPowerNode_hash nd = root.
Proof.
  intros Hr.
  assert (Hsm : CMerkleMountainRange.size (@range_of PN leaves) = vsize leaves)
    by (apply (@size_range_of PN); change (@Node PN) with CMMRPowerNode; lia).
  destruct (@GetRoot_layers PN (@range_of PN leaves) 0 root v1 ltac:(lia)
              ltac:(rewrite Hsm; lia) Hr)
    as (first & rest & Ev1 & Eroot & Hup & Htw).
  fold v in Ev1, Hup.
  destruct peaks_total as [Hpt Hpv].
  pose proof (@peaks_new_bounds PN (@range_of PN leaves) 0 false ltac:(lia)
                ltac:(rewrite Hsm; lia)) as Hpb.
  fold v in Hpb.
  destruct (layer_up_total f f_parent _ _ Hpv Hup) as [Hfv Hft].
  pose proof (@vsize_layer_up PN _ _ Hup) as Hfs.
  change (@Node PN) with CMMRPowerNode in *.
  assert (Hf1 : 1 <= vsize first).
  { rewrite Hfs. apply Z.div_le_lower_bound; lia. }
  destruct (tower_total f f_parent first rest Htw Hfv Hf1) as [Htt Hts].
  cbv zeta. rewrite Ev1. cbn [CMerkleMountainView.peakMerkle].
  change (@Node (@CMMRPowerNode_type HW)) with CMMRPowerNode.
  destruct (last (first :: rest) []) as [|x [|y l]] eqn:El;
    try (unfold vsize in Hts; cbn in Hts; lia).
  change (vat (@NodeDefault PN) [x] 0) with x.
  split.
  - rewrite <- Hpt, <- Hft, <- Htt. unfold total_of. cbn. lia.
  - rewrite Eroot. reflexivity.
Qed.
End RootPower.

Section PowerTotals.
Context {HW : HASHALGOWRITER}.
Let PN : NODE_TYPE := @CMMRPowerNode_type HW.

Lemma total_nonneg (l : list CMMRPowerNode) :
  Forall power_ok l -> 0 <= total_of Work l /\ 0 <= total_of Stake l.
Proof.
  induction 1 as [|x l Hx _ IH]; [unfold total_of; cbn; lia|].
  rewrite !total_of_cons.
  destruct (Work_spec x Hx) as [_ ?]. destruct (Stake_spec x Hx) as [_ ?]. lia.
Qed.

Lemma Work_parent : forall l r p,
  power_ok l -> power_ok r ->
  CMMRPowerNode_CreateParentNode l r = Ok p -> power_ok p /\ Work p = Work l + Work r.
Proof.
  intros l r p Hl Hr Hp. destruct (parent_sums l r p Hl Hr Hp) as (? & ? & ?). auto.
Qed.

Lemma Stake_parent : forall l r p,
  power_ok l -> power_ok r ->
  CMMRPowerNode_CreateParentNode l r = Ok p -> power_ok p /\ Stake p = Stake l + Stake r.
Proof.
  intros l r p Hl Hr Hp. destruct (parent_sums l r p Hl Hr Hp) as (? & ? & ?). auto.
Qed.

Lemma parent_of_total (a b : CMMRPowerNode) (l : list CMMRPowerNode) :
  Forall power_ok (a :: b :: l) ->
  total_of Work (a :: b :: l) < 2 ^ 128 -> total_of Stake (a :: b :: l) < 2 ^ 128 ->
  exists p, CMMRPowerNode_CreateParentNode a b = Ok p.
Proof.
  intros Hv Hw Hs.
  inversion Hv as [|? ? Ha Hv1]; subst. inversion Hv1 as [|? ? Hb Hv2]; subst.
  destruct (total_nonneg l Hv2) as [Hw0 Hs0].
  rewrite !total_of_cons in Hw, Hs.
  rewrite (CreateParentNode_unfold a b Ha Hb).
  destruct (Z.ltb_spec (Work a + Work b) (2 ^ 128)); [|lia].
  destruct (Z.ltb_spec (Stake a + Stake b) (2 ^ 128)); [|lia].
  cbn [andb]. eexists. reflexivity.
Qed.

Lemma pairs_ok_of_total (l : list CMMRPowerNode) :
  Forall power_ok l ->
  total_of Work l < 2 ^ 128 -> total_of Stake l < 2 ^ 128 ->
  @pairs_ok PN l = true.
Proof.
  induction l as [| a | a b l IH] using list_pair_ind; intros Hv Hw Hs;
    try reflexivity.
  destruct (parent_of_total a b l Hv Hw Hs) as [p Hp].
  inversion Hv as [|? ? Ha Hv1]; subst. inversion Hv1 as [|? ? Hb Hv2]; subst.
  destruct (Work_spec a Ha) as [_ ?]. destruct (Work_spec b Hb) as [_ ?].
  destruct (Stake_spec a Ha) as [_ ?]. destruct (Stake_spec b Hb) as [_ ?].
  rewrite !total_of_cons in Hw, Hs.
  cbn [pairs_ok]. change (@CreateParentNode PN a b)
    with (CMMRPowerNode_CreateParentNode a b). rewrite Hp. cbn [is_ok andb].
  apply IH; [assumption|lia|lia].
Qed.

Lemma layer_up_of_total (l : list CMMRPowerNode) :
  Forall power_ok l ->
  total_of Work l < 2 ^ 128 -> total_of Stake l < 2 ^ 128 ->
  exists l', @layer_up PN l = Ok l'.
Proof.
  induction l as [| a | a b l IH] using list_pair_ind; intros Hv Hw Hs.
  - now exists [].
  - now exists [a].
  - destruct (parent_of_total a b l Hv Hw Hs) as [p Hp].
    inversion Hv as [|? ? Ha Hv1]; subst. inversion Hv1 as [|? ? Hb Hv2]; subst.
    destruct (Work_spec a Ha) as [_ ?]. destruct (Work_spec b Hb) as [_ ?].
    destruct (Stake_spec a Ha) as [_ ?]. destruct (Stake_spec b Hb) as [_ ?].
    rewrite !total_of_cons in Hw, Hs.
    destruct (IH Hv2 ltac:(lia) ltac:(lia)) as [above Ha'].
    exists (p :: above). cbn [layer_up].
    change (@CreateParentNode PN a b) with (CMMRPowerNode_CreateParentNode a b).
    rewrite Hp. cbn [bind]. rewrite Ha'. reflexivity.
Qed.

Lemma reduce_of_total (fuel : nat) : forall l : list CMMRPowerNode,
  Forall power_ok l ->
  total_of Work l < 2 ^ 128 -> total_of Stake l < 2 ^ 128 ->
  vsize l <= Z.of_nat fuel + 1 ->
  exists top, @reduce PN fuel l = Ok top.
Proof.
  induction fuel as [|fuel IH]; intros l Hv Hw Hs Hl.
  - exists l. apply (@reduce_small PN). exact Hl.
  - destruct (Z.le_gt_cases (vsize l) 1) as [H1|H1].
    + exists l. now apply (@reduce_small PN).
    + rewrite (@reduce_step PN) by (change (@Node PN) with CMMRPowerNode; lia).
      destruct (layer_up_of_total l Hv Hw Hs) as [above Hup]. rewrite Hup. cbn [bind].
      destruct (layer_up_total Work Work_parent l above Hv Hup) as [Hva Hwa].
      destruct (layer_up_total Stake Stake_parent l above Hv Hup) as [_ Hsa].
      pose proof (@vsize_layer_up PN l above Hup) as Hsz.
      change (@Node PN) with CMMRPowerNode in *.
      apply IH; try assumption; try lia.
      rewrite Hsz. pose proof (Z.div_mod (vsize l + 1) 2 ltac:(lia)).
      pose proof (Z.mod_pos_bound (vsize l + 1) 2 ltac:(lia)). lia.
Qed.

Lemma levels_of_total (leaves : list CMMRPowerNode) :
  Forall power_ok leaves ->
  total_of Work leaves < 2 ^ 128 -> total_of Stake leaves < 2 ^ 128 ->
  @levels_ok PN leaves.
Proof.
  intros Hv Hw Hs.
  assert (H : forall h : nat,
            Forall power_ok (@level PN h leaves) /\
            total_of Work (@level PN h leaves) < 2 ^ 128 /\
            total_of Stake (@level PN h leaves) < 2 ^ 128).
  { induction h as [|h (IHv & IHw & IHs)]; [auto|].
    pose proof (pairs_ok_of_total _ IHv IHw IHs) as Hok.
    destruct (pairs_total Work Work_parent _ IHv Hok) as [Hpv Hpw].
    destruct (pairs_total Stake Stake_parent _ IHv Hok) as [_ Hps].
    cbn [level]. split; [exact Hpv|].
    assert (Hlast : Z.odd (vsize (@level PN h leaves)) = true ->
              power_ok (last (@level PN h leaves) (@NodeDefault PN))).
    { intros Ho. destruct (@level PN h leaves) as [|x l] eqn:El; [discriminate|].
      assert (Hne : x :: l <> []) by discriminate.
      destruct (exists_last Hne) as (l0 & y & E). rewrite E, last_last.
      rewrite E in IHv. apply Forall_app in IHv. destruct IHv as [_ Hy].
      now inversion Hy. }
    unfold PN in *.
    change (@Node (@CMMRPowerNode_type HW)) with CMMRPowerNode in *.
    destruct (Z.odd (@vsize CMMRPowerNode (@level (@CMMRPowerNode_type HW) h leaves)))
      eqn:Ho.
    - specialize (Hlast eq_refl).
      destruct (Work_spec _ Hlast) as [_ ?]. destruct (Stake_spec _ Hlast) as [_ ?].
      lia.
    - lia. }
  intros h. destruct (H h) as (Hhv & Hhw & Hhs). now apply pairs_ok_of_total.
Qed.

(** X13: when the works and the stakes of the leaves, summed, each fit 128
    bits, appending them builds a range of power nodes whose full view
    has a root, and the node on top of its peak merkle tree carries those
    sums and the root as its hash; [GetRootNode] gives that node unless
    the root is the null hash. *)
Theorem root_power (leaves : list CMMRPowerNode) :
  Forall power_ok leaves -> 0 < vsize leaves < 2 ^ 32 ->
  total_work leaves < 2 ^ 128 -> total_stake leaves < 2 ^ 128 ->
  exists m root v' nd,
    @CMerkleMountainRange.build PN leaves = Ok m /\
    CMerkleMountainView.GetRoot (CMerkleMountainView.new m 0) = Ok (root, v') /\
    nd = vat (@NodeDefault PN) (last (CMerkleMountainView.peakMerkle v') []) 0 /\
    CMMRPowerNode_hash nd = root /\
    Work nd = total_work leaves /\
    Stake nd = total_stake leaves /\
    CMerkleMountainView_GetRootNode (CMerkleMountainView.new m 0)
    = Ok (if root =? uint256_null then None else Some nd, v').
Proof.
  intros Hv Hn Hw Hs.
  change (total_work leaves) with (total_of Work leaves) in *.
  change (total_stake leaves) with (total_of Stake leaves) in *.
  pose proof (levels_of_total leaves Hv Hw Hs) as Hok.
  set (m := @range_of PN leaves).
  assert (Hsm : CMerkleMountainRange.size m = vsize leaves)
    by (apply (@size_range_of PN); change (@Node PN) with CMMRPowerNode; lia).
  set (v := @CMerkleMountainView.new PN m 0).
  destruct (peaks_total Work Work_parent leaves Hok Hv Hn) as [Hpw Hpv].
  destruct (peaks_total Stake Stake_parent leaves Hok Hv Hn) as [Hps _].
  fold m v in Hpw, Hps, Hpv.
  pose proof (@peaks_new_bounds PN m 0 false ltac:(lia) ltac:(rewrite Hsm; lia)) as Hpb.
  fold v in Hpb.
  assert (HPw : total_of Work
                  (CMerkleMountainView.peaks (CMerkleMountainView.CalcPeaks v false))
                < 2 ^ 128) by exact (eq_ind_r (fun x => x < 2 ^ 128) Hw Hpw).
  assert (HPs : total_of Stake
                  (CMerkleMountainView.peaks (CMerkleMountainView.CalcPeaks v false))
                < 2 ^ 128) by exact (eq_ind_r (fun x => x < 2 ^ 128) Hs Hps).
  set (P := CMerkleMountainView.peaks (CMerkleMountainView.CalcPeaks v false)) in *.
  assert (Hroot : exists root v', CMerkleMountainView.GetRoot v = Ok (root, v')).
  { pose proof (@GetRoot_new PN m 0 ltac:(lia) ltac:(rewrite Hsm; lia)) as Hg.
    cbv zeta in Hg. fold v P in Hg.
    pose proof (@GetRoot_loop_root PN P ltac:(lia)) as Hl.
    destruct (reduce_of_total (length P) P Hpv HPw HPs
                ltac:(unfold vsize; apply Z.le_succ_diag_r)) as [top Htop].
    unfold spec_root in Hl. rewrite Htop in Hl. cbn [bind] in Hl.
    destruct (CMerkleMountainView.GetRoot_loop _ _ _ _ _) as [pm|]; [|discriminate].
    rewrite Hg. cbn [bind]. eauto. }
  destruct Hroot as (root & v' & Hr).
  destruct (root_total Work Work_parent leaves Hok Hv Hn root v' Hr) as [Hwn Hh].
  destruct (root_total Stake Stake_parent leaves Hok Hv Hn root v' Hr) as [Hsn _].
  exists m, root, v',
    (vat (@NodeDefault PN) (last (CMerkleMountainView.peakMerkle v') []) 0).
  split.
  { apply (@build_range_of PN); [assumption|].
    change (@Node PN) with CMMRPowerNode. lia. }
  split; [exact Hr|]. split; [reflexivity|]. split; [exact Hh|].
  split; [exact Hwn|]. split; [exact Hsn|].
  unfold CMerkleMountainView_GetRootNode. fold v. rewrite Hr. cbn [bind fst snd].
  destruct (root =? uint256_null); reflexivity.
Qed.
End PowerTotals.

Lemma root_power_witness :
  Forall power_ok three_power_leaves /\ 0 < vsize three_power_leaves < 2 ^ 32 /\
  total_work three_power_leaves < 2 ^ 128 /\ total_stake three_power_leaves < 2 ^ 128 /\
  exists m root v' nd,
    @CMerkleMountainRange.build (@CMMRPowerNode_type pair_writer) three_power_leaves
      = Ok m /\
    CMerkleMountainView.GetRoot (CMerkleMountainView.new m 0) = Ok (root, v') /\
    nd = vat (@NodeDefault (@CMMRPowerNode_type pair_writer))
           (last (CMerkleMountainView.peakMerkle v') []) 0 /\
    CMMRPowerNode_hash nd = root /\
    Work nd = total_work three_power_leaves /\
    Stake nd = total_stake three_power_leaves /\
    CMerkleMountainView_GetRootNode (CMerkleMountainView.new m 0)
    = Ok (if root =? uint256_null then None else Some nd, v').
Proof.
  assert (Hv : Forall power_ok three_power_leaves)
    by (repeat constructor; vm_compute; discriminate).
  split; [exact Hv|].
  split; [vm_compute; split; reflexivity|].
  split; [vm_compute; reflexivity|]. split; [vm_compute; reflexivity|].
  apply (@root_power pair_writer three_power_leaves).
  - exact Hv.
  - vm_compute; split; reflexivity.
  - vm_compute; reflexivity.
  - vm_compute; reflexivity.
Defined.

(** ** Branches: the bits of the index that count, and appending *)

Section BranchFacts.
Context {HW : HASHALGOWRITER}.

Lemma SafeCheck_loop_bits (br : list uint256) : forall (a b : Z) (h : uint256),
  (forall k, 0 <= k < vsize br -> Z.testbit a k = Z.testbit b k) ->
  SafeCheck_loop br a h = SafeCheck_loop br b h.
Proof.
  induction br as [|it br IH]; intros a b h Hbits; [reflexivity|].
  pose proof (vsize_nonneg br) as Hnn.
  cbn [SafeCheck_loop]. rewrite !odd_test, <- !Z.bit0_odd.
  rewrite (Hbits 0) by (rewrite vsize_cons; lia).
  assert (Hrest : forall k, 0 <= k < vsize br ->
            Z.testbit (Z.shiftr a 1) k = Z.testbit (Z.shiftr b 1) k).
  { intros k Hk. rewrite !Z.shiftr_spec by lia. apply Hbits. rewrite vsize_cons. lia. }
  destruct (Z.testbit b 0).
  - destruct (it =? h); [reflexivity|]. now apply IH.
  - now apply IH.
Qed.

Lemma canonical_bits (br : list uint256) : forall (a b : Z) (h : uint256),
  (forall k, 0 <= k < vsize br -> Z.testbit a k = Z.testbit b k) ->
  canonical a br h = canonical b br h.
Proof.
  induction br as [|it br IH]; intros a b h Hbits; [reflexivity|].
  pose proof (vsize_nonneg br) as Hnn.
  cbn [canonical].
  rewrite (Hbits 0) by (rewrite vsize_cons; lia).
  assert (Hrest : forall k, 0 <= k < vsize br ->
            Z.testbit (Z.shiftr a 1) k = Z.testbit (Z.shiftr b 1) k).
  { intros k Hk. rewrite !Z.shiftr_spec by lia. apply Hbits. rewrite vsize_cons. lia. }
  destruct (Z.testbit b 0).
  - f_equal. now apply IH.
  - now apply IH.
Qed.

Lemma SafeCheck_loop_app (br1 br2 : list uint256) : forall (idx : Z) (h : uint256),
  canonical idx br1 h = true ->
  SafeCheck_loop (br1 ++ br2) idx h
  = SafeCheck_loop br2 (Z.shiftr idx (vsize br1)) (SafeCheck_loop br1 idx h).
Proof.
  induction br1 as [|it br1 IH]; intros idx h Hc.
  - cbn [app SafeCheck_loop]. change (vsize (@nil uint256)) with 0.
    now rewrite Z.shiftr_0_r.
  - pose proof (vsize_nonneg br1) as Hnn.
    cbn [app SafeCheck_loop]. cbn [canonical] in Hc.
    rewrite odd_test, <- Z.bit0_odd.
    assert (Hs : Z.shiftr idx (vsize (it :: br1)) = Z.shiftr (Z.shiftr idx 1) (vsize br1)).
    { rewrite vsize_cons, Z.shiftr_shiftr by lia. f_equal. lia. }
    rewrite Hs.
    destruct (Z.testbit idx 0).
    + apply andb_prop in Hc. destruct Hc as [Hne Hc].
      destruct (it =? h); [discriminate|]. now apply IH.
    + now apply IH.
Qed.

Lemma mod_pow2_bits (a b n : Z) :
  0 <= n -> a mod 2 ^ n = b mod 2 ^ n ->
  forall k, 0 <= k < n -> Z.testbit a k = Z.testbit b k.
Proof.
  intros Hn He k Hk.
  rewrite <- (Z.mod_pow2_bits_low a n k), <- (Z.mod_pow2_bits_low b n k) by lia.
  now rewrite He.
Qed.

(** X14: [CMerkleBranch::SafeCheck] reads only the lowest bits of
    [nIndex], one for each hash of the branch: two indexes that agree on
    those bits give the same result on the same branch. *)
Theorem check_reads_low_bits (i j : Z) (br : list uint256) (h : uint256) :
  0 <= i < 2 ^ 32 -> 0 <= j < 2 ^ 32 ->
  i mod 2 ^ vsize br = j mod 2 ^ vsize br ->
  CMerkleBranch_SafeCheck (mkCMerkleBranch i br) h
  = CMerkleBranch_SafeCheck (mkCMerkleBranch j br) h.
Proof.
  intros Hi Hj He. unfold CMerkleBranch_SafeCheck, SafeCheck_from.
  cbn [btc_nIndex btc_branch]. rewrite !int64_small by lia.
  destruct (Z.eqb_spec i (-1)); [lia|]. destruct (Z.eqb_spec j (-1)); [lia|].
  apply SafeCheck_loop_bits. apply mod_pow2_bits; [apply vsize_nonneg|exact He].
Qed.

Lemma append_index_bits (a b la : Z) :
  0 <= la < 32 -> 0 <= a < 2 ^ la -> 0 <= b < 2 ^ 32 ->
  let c := uint32_t (a + uint32_t (Z.shiftl b la)) in
  0 <= c < 2 ^ 32 /\
  (forall k, 0 <= k < la -> Z.testbit c k = Z.testbit a k) /\
  (forall k, 0 <= k < 32 - la -> Z.testbit (Z.shiftr c la) k = Z.testbit b k).
Proof.
  intros Hla Ha Hb. cbv zeta. unfold uint32_t.
  assert (Hp : 0 < 2 ^ la) by (apply Z.pow_pos_nonneg; lia).
  assert (Hq : 0 < 2 ^ (32 - la)) by (apply Z.pow_pos_nonneg; lia).
  assert (E32 : 2 ^ 32 = 2 ^ la * 2 ^ (32 - la)).
  { rewrite <- Z.pow_add_r by lia. f_equal. lia. }
  assert (Em : Z.shiftl b la mod 2 ^ 32 = Z.shiftl (b mod 2 ^ (32 - la)) la).
  { rewrite !Z.shiftl_mul_pow2 by lia. rewrite E32.
    rewrite (Z.mul_comm b), Z.mul_mod_distr_l by lia. apply Z.mul_comm. }
  rewrite Em.
  pose proof (Z.mod_pos_bound b (2 ^ (32 - la)) Hq) as Hbm.
  set (q := b mod 2 ^ (32 - la)) in *.
  assert (Ec : a + Z.shiftl q la = Z.lor (Z.shiftl q la) a).
  { rewrite lor_shift_add by lia. rewrite Z.shiftl_mul_pow2 by lia. lia. }
  assert (Hc : 0 <= a + Z.shiftl q la < 2 ^ 32).
  { rewrite Z.shiftl_mul_pow2 by lia. rewrite E32. nia. }
  rewrite (Z.mod_small _ _ Hc). split; [exact Hc|]. rewrite Ec. split.
  - intros k Hk. rewrite Z.lor_spec, Z.shiftl_spec_low by lia. reflexivity.
  - intros k Hk. rewrite Z.shiftr_spec, Z.lor_spec by lia.
    rewrite Z.shiftl_spec by lia. replace (k + la - la) with k by lia.
    assert (Hak : Z.testbit a (k + la) = false).
    { destruct (Z.eq_dec a 0) as [->|Ha0]; [apply Z.bits_0|].
      apply Z.bits_above_log2; [lia|].
      assert (Z.log2 a < la) by (apply Z.log2_lt_pow2; lia). lia. }
    rewrite Hak, orb_false_r. unfold q. apply Z.mod_pow2_bits_low. lia.
Qed.

End BranchFacts.

Lemma check_reads_low_bits_witness :
  0 <= 1 < 2 ^ 32 /\ 0 <= 5 < 2 ^ 32 /\
  1 mod 2 ^ vsize [7; 8] = 5 mod 2 ^ vsize [7; 8] /\
  @CMerkleBranch_SafeCheck pair_writer (mkCMerkleBranch 1 [7; 8]) 3
  = @CMerkleBranch_SafeCheck pair_writer (mkCMerkleBranch 5 [7; 8]) 3.
Proof.
  split; [lia|]. split; [lia|]. split; [vm_compute; reflexivity|].
  apply (@check_reads_low_bits pair_writer 1 5 [7; 8] 3).
  - lia.
  - lia.
  - vm_compute; reflexivity.
Defined.


(** ** Bytes and hexadecimal strings *)

Lemma be_value_snoc (pre : list Z) (b : Z) : be_value (pre ++ [b]) = be_value pre * 256 + b.
Proof. unfold be_value. now rewrite fold_left_app. Qed.

Lemma BEVector_loop_spec (fuel : nat) : forall (v : Z) (acc : list Z),
  0 <= v < 2 ^ (8 * Z.of_nat fuel) ->
  exists pre,
    BEVector_loop fuel v acc = Ok (pre ++ acc) /\
    be_value pre = v /\
    Forall (fun b => 0 <= b < 256) pre /\
    (v = 0 -> pre = []) /\
    (v <> 0 -> hd 0 pre <> 0) /\
    (length pre <= fuel)%nat.
Proof.
  induction fuel as [|fuel IH]; intros v acc Hv.
  - change (2 ^ (8 * Z.of_nat 0)) with 1 in Hv. assert (v = 0) by lia. subst v.
    exists []. cbn. repeat split; auto; lia.
  - cbn [BEVector_loop]. destruct (Z.ltb_spec 0 v) as [Hpos|Hz].
    + change (2 ^ 8) with 256.
      change 255 with (Z.ones 8). rewrite Z.land_ones by lia. change (2 ^ 8) with 256.
      rewrite Z.mod_mod by lia. rewrite Z.shiftr_div_pow2 by lia. change (2 ^ 8) with 256.
      pose proof (Z.div_mod v 256 ltac:(lia)) as Hdm.
      pose proof (Z.mod_pos_bound v 256 ltac:(lia)) as Hmb.
      assert (Hv' : 0 <= v / 256 < 2 ^ (8 * Z.of_nat fuel)).
      { split; [apply Z.div_pos; lia|]. apply Z.div_lt_upper_bound; [lia|].
        replace (8 * Z.of_nat (S fuel)) with (8 + 8 * Z.of_nat fuel) in Hv by lia.
        rewrite Z.pow_add_r in Hv by lia. change (2 ^ 8) with 256 in Hv. lia. }
      destruct (IH (v / 256) (v mod 256 :: acc) Hv')
        as (pre & Hr & Hval & Hb & Hz & Hnz & Hlen).
      exists (pre ++ [v mod 256]). rewrite Hr.
      split; [now rewrite <- app_assoc|].
      split; [rewrite be_value_snoc, Hval; lia|].
      split; [apply Forall_app; split; [assumption|constructor; [lia|constructor]]|].
      split; [lia|]. split.
      * intros _. destruct (Z.eq_dec (v / 256) 0) as [E0|E0].
        -- rewrite (Hz E0). cbn. lia.
        -- specialize (Hnz E0). destruct pre; [cbn in Hnz; lia|exact Hnz].
      * rewrite length_app. cbn. lia.
    + assert (v = 0) by lia. subst v. exists []. cbn. repeat split; auto; lia.
Qed.

(** X16: [GetBalanceAsBEVector] returns the bytes of the balance, most
    significant first, without a leading zero byte: at most 32 bytes, none
    for a balance of 0, and the number they write is the balance. *)
Theorem balance_bytes (balance : uint256) :
  0 <= balance < 2 ^ 256 ->
  exists bytes,
    GetBalanceAsBEVector balance = Ok bytes /\
    be_value bytes = balance /\
    Forall (fun b => 0 <= b < 256) bytes /\
    vsize bytes <= 32 /\
    (balance = 0 -> bytes = []) /\
    (balance <> 0 -> hd 0 bytes <> 0).
Proof.
  intros Hb. unfold GetBalanceAsBEVector, arith_uint256.
  rewrite Z.mod_small by lia.
  destruct (BEVector_loop_spec 32 balance [] Hb) as (pre & Hr & Hval & Hby & Hz & Hnz & Hlen).
  rewrite app_nil_r in Hr. exists pre. repeat split; auto. unfold vsize. lia.
Qed.

Lemma balance_bytes_witness :
  0 <= 66000 < 2 ^ 256 /\
  exists bytes,
    GetBalanceAsBEVector 66000 = Ok bytes /\
    be_value bytes = 66000 /\
    Forall (fun b => 0 <= b < 256) bytes /\
    vsize bytes <= 32 /\
    (66000 = 0 -> bytes = []) /\
    (66000 <> 0 -> hd 0 bytes <> 0).
Proof.
  split; [vm_compute; split; [discriminate|reflexivity]|].
  apply (balance_bytes 66000). vm_compute; split; [discriminate|reflexivity].
Defined.

Lemma hex_digit_value (d : Z) :
  0 <= d < 16 ->
  hex_value (vat 0 hex_digits d) = d /\ In (vat 0 hex_digits d) hex_digits.
Proof.
  intros Hd.
  assert (H : d = 0 \/ d = 1 \/ d = 2 \/ d = 3 \/ d = 4 \/ d = 5 \/ d = 6 \/ d = 7 \/
              d = 8 \/ d = 9 \/ d = 10 \/ d = 11 \/ d = 12 \/ d = 13 \/ d = 14 \/ d = 15)
    by lia.
  repeat (destruct H as [->|H]; [split; [reflexivity|cbn; tauto]|]).
  subst d. split; [reflexivity|cbn; tauto].
Qed.

(** X17: [string_to_hex] writes two digits of ["0123456789ABCDEF"] for
    each character, the high half first, so the string can be read back:
    decoding the digits gives the characters again. *)
Theorem hex_round_trip (input : list Z) :
  Forall (fun c => 0 <= c < 256) input ->
  vsize (string_to_hex input) = 2 * vsize input /\
  Forall (fun d => In d hex_digits) (string_to_hex input) /\
  hex_decode (string_to_hex input) = input.
Proof.
  induction 1 as [|c input Hc _ (IHl & IHd & IHr)].
  - repeat split. constructor.
  - cbn [string_to_hex hex_decode].
    assert (Hhi : 0 <= Z.shiftr c 4 < 16).
    { rewrite Z.shiftr_div_pow2 by lia. change (2 ^ 4) with 16.
      split; [apply Z.div_pos; lia|apply Z.div_lt_upper_bound; lia]. }
    assert (Hlo : 0 <= Z.land c 15 < 16).
    { change 15 with (Z.ones 4). rewrite Z.land_ones by lia.
      apply Z.mod_pos_bound. lia. }
    destruct (hex_digit_value _ Hhi) as [Vhi Ihi].
    destruct (hex_digit_value _ Hlo) as [Vlo Ilo].
    split; [|split].
    + rewrite !vsize_cons, IHl. lia.
    + constructor; [assumption|]. constructor; assumption.
    + rewrite Vhi, Vlo, IHr. f_equal.
      rewrite Z.shiftr_div_pow2 by lia. change (2 ^ 4) with 16.
      change 15 with (Z.ones 4). rewrite Z.land_ones by lia. change (2 ^ 4) with 16.
      pose proof (Z.div_mod c 16 ltac:(lia)). lia.
Qed.

Lemma hex_round_trip_witness :
  Forall (fun c => 0 <= c < 256) [0; 26; 255] /\
  vsize (string_to_hex [0; 26; 255]) = 2 * vsize [0; 26; 255] /\
  Forall (fun d => In d hex_digits) (string_to_hex [0; 26; 255]) /\
  hex_decode (string_to_hex [0; 26; 255]) = [0; 26; 255].
Proof.
  assert (H : Forall (fun c => 0 <= c < 256) [0; 26; 255])
    by (repeat constructor; lia).
  split; [exact H|]. apply (hex_round_trip [0; 26; 255]). exact H.
Defined.

(** ** The size of a proof *)

Lemma vsize_emit (side : Z) (l : list uint256) :
  vsize (CMerkleMountainView.emit side l) = vsize l.
Proof.
  destruct l as [|x l]; [reflexivity|].
  unfold vsize. cbn [CMerkleMountainView.emit length]. now rewrite length_map.
Qed.

Section ProofSize.
Context {HW : HASHALGOWRITER} {NT : NODE_TYPE} {NL : NodeLaws NT}.

Lemma GetProof_peaks_size (v : CMerkleMountainView.t) (fuel : nat) :
  forall layerNum layerSize p br out,
  CMerkleMountainView.GetProof_peaks fuel v layerNum layerSize p br = Ok out ->
  vsize out <= vsize br + (1 + GetExtraHashCount) * Z.of_nat fuel.
Proof.
  pose proof extra_nonneg as He.
  induction fuel as [|fuel IH]; intros layerNum layerSize p br out H.
  - cbn in H. destruct (_ || _); [discriminate|].
    pose proof (f_equal (fun r => match r with Ok x => x | Throw _ => br end) H) as E.
    cbn in E. subst out. lia.
  - rewrite GetProof_peaks_unfold in H. destruct (_ || _).
    + cbv zeta in H. apply IH in H.
      destruct (_ || _) in H; [|nia].
      destruct (negb _) in H;
        rewrite vsize_app, vsize_emit, proof_hash_length in H; nia.
    + pose proof (f_equal (fun r => match r with Ok x => x | Throw _ => br end) H) as E.
      cbn in E. subst out. nia.
Qed.

Lemma GetProof_loop_size (v : CMerkleMountainView.t) (ls : list Z) :
  forall p br out,
  CMerkleMountainView.GetProof_loop v ls p br = Ok out ->
  vsize out <= vsize br
               + (1 + GetExtraHashCount)
                 * (vsize ls + vsize (CMerkleMountainView.peakMerkle v) + 1).
Proof.
  pose proof extra_nonneg as He.
  pose proof (vsize_nonneg (CMerkleMountainView.peakMerkle v)) as HK.
  induction ls as [|l ls IH]; intros p br out H.
  - cbn in H.
    pose proof (f_equal (fun r => match r with Ok x => x | Throw _ => br end) H) as E.
    cbn in E. subst out. change (vsize (@nil Z)) with 0. nia.
  - pose proof (vsize_nonneg ls) as Hls.
    cbn [CMerkleMountainView.GetProof_loop] in H. rewrite vsize_cons.
    destruct (negb _) in H.
    + apply IH in H. rewrite vsize_app, vsize_emit, proof_hash_length in H. nia.
    + destruct (_ <? _) in H.
      * apply IH in H. rewrite vsize_app, vsize_emit, proof_hash_length in H. nia.
      * cbv zeta in H. destruct (assert _) in H; [|discriminate]. cbn [bind] in H.
        apply GetProof_peaks_size in H. unfold vsize in *. nia.
Qed.

Lemma tower_height (l : list Node) (t : list (list Node)) :
  tower_of l t -> forall k, 0 <= k -> vsize l <= 2 ^ k -> vsize t <= k.
Proof.
  induction 1 as [l Hl|l above rest Hl Hup Htw IH]; intros k Hk Hb.
  - change (vsize (@nil (list Node))) with 0. lia.
  - assert (Hk1 : 1 <= k).
    { destruct (Z.eq_dec k 0) as [->|]; [|lia]. change (2 ^ 0) with 1 in Hb. lia. }
    pose proof (vsize_layer_up _ _ Hup) as Hsz.
    assert (Hab : vsize above <= 2 ^ (k - 1)).
    { rewrite Hsz. replace k with (1 + (k - 1)) in Hb by lia.
      rewrite Z.pow_add_r in Hb by lia. change (2 ^ 1) with 2 in Hb.
      pose proof (Z.div_mod (vsize l + 1) 2 ltac:(lia)).
      pose proof (Z.mod_pos_bound (vsize l + 1) 2 ltac:(lia)). lia. }
    specialize (IH (k - 1) ltac:(lia) Hab). rewrite vsize_cons. lia.
Qed.

(** X18: a proof is short: on a view of size [n] over a range of fewer
    than [2^32] leaves, the branch that [GetProof] gives holds at most
    [log2 n + 7] siblings, each with the extra hashes of the node type,
    and the extra hashes of the leaf. *)
Theorem proof_size (m : CMerkleMountainRange.t) (viewSize pos : Z)
    (b : CMMRBranch) (v' : CMerkleMountainView.t) :
  0 <= viewSize -> 0 < CMerkleMountainRange.size m < 2 ^ 32 ->
  let v := CMerkleMountainView.new m viewSize in
  CMerkleMountainView.GetProof v pos = Ok (Some b, v') ->
  vsize (branch b)
  <= (1 + GetExtraHashCount) * (Z.log2 (CMerkleMountainView.size v) + 7)
     + GetExtraHashCount.
Proof.
  intros Hvs Hm v H. pose proof extra_nonneg as He.
  unfold CMerkleMountainView.GetProof in H.
  destruct (pos <? CMerkleMountainView.size v); [|discriminate].
  unfold CMerkleMountainView.GetProof_walk in H.
  destruct (CMerkleMountainView.GetRoot v) as [[root v1]|] eqn:Hr; [|discriminate].
  cbn [bind snd] in H.
  destruct (CChunkedLayer.get _ _) as [leaf|]; [|discriminate]. cbn [bind] in H.
  destruct (CMerkleMountainView.GetProof_loop _ _ _ _) as [w|] eqn:Hw; [|discriminate].
  cbn [bind fst snd] in H.
  pose proof (f_equal (fun r => match r with
                                | Ok (Some x, _) => branch x
                                | _ => branch b
                                end) H) as E.
  cbv beta iota in E. cbn [branch] in E. rewrite <- E.
  apply GetProof_loop_size in Hw.
  destruct (GetRoot_layers m viewSize root v1 Hvs ltac:(lia) Hr)
    as (first & rest & Ev1 & _ & Hup & Htw).
  fold v in Ev1, Hup.
  destruct (sizes_new m viewSize Hvs ltac:(lia)) as [Hn Hsizes].
  fold v in Hn, Hsizes.
  destruct (CalcPeaks_new m viewSize false Hvs ltac:(lia)) as (Hpk & _).
  fold v in Hpk.
  pose proof (view_size_pos m viewSize Hvs ltac:(lia)) as Hpos.
  fold v in Hpos.
  set (n := CMerkleMountainView.size v) in *.
  pose proof (Z.log2_nonneg n) as Hlog.
  assert (Hl32 : Z.log2 n < 32) by (apply Z.log2_lt_pow2; lia).
  assert (HP : vsize (CMerkleMountainView.peaks
                        (CMerkleMountainView.CalcPeaks v false)) <= 32).
  { rewrite Hpk. unfold vsize. rewrite length_map, length_rev.
    pose proof (filter_length_le (Z.testbit n) (zrange 0 (Z.log2 n))) as Hle.
    unfold zrange in Hle at 2. rewrite length_map, length_seq in Hle. lia. }
  pose proof (vsize_layer_up _ _ Hup) as Hfs.
  assert (Hf16 : vsize first <= 2 ^ 4).
  { rewrite Hfs. change (2 ^ 4) with 16.
    set (P := vsize (CMerkleMountainView.peaks _)) in *.
    pose proof (Z.div_mod (P + 1) 2 ltac:(lia)).
    pose proof (Z.mod_pos_bound (P + 1) 2 ltac:(lia)). lia. }
  pose proof (tower_height first rest Htw 4 ltac:(lia) Hf16) as Hrest.
  assert (HK : vsize (CMerkleMountainView.peakMerkle v1) <= 5).
  { rewrite Ev1. cbn [CMerkleMountainView.peakMerkle]. rewrite vsize_cons. lia. }
  assert (Hls : vsize (zrange 0 (vsize (CMerkleMountainView.sizes v1) - 1))
                = Z.log2 n + 1).
  { rewrite Ev1. cbn [CMerkleMountainView.sizes]. rewrite Hsizes.
    unfold vsize, zrange. rewrite !length_map, !length_seq. lia. }
  rewrite Hls in Hw.
  unfold vsize in Hw at 2. rewrite length_map in Hw.
  pose proof (leaf_hash_length leaf) as Hlh. unfold vsize in Hlh.
  unfold vsize at 1. rewrite length_map. unfold vsize in Hw at 1. nia.
Qed.
End ProofSize.

Lemma proof_size_witness :
  0 <= 5 /\ 0 < CMerkleMountainRange.size five_leaves < 2 ^ 32 /\
  let b := mkCMMRBranch 2 2 5 [4; 9; 5] in
  vsize (branch b)
  <= (1 + @GetExtraHashCount plain_nodes)
     * (Z.log2 (@CMerkleMountainView.size plain_nodes
                  (CMerkleMountainView.new five_leaves 5)) + 7)
     + @GetExtraHashCount plain_nodes.
Proof.
  split; [lia|]. split; [vm_compute; split; reflexivity|].
  apply (@proof_size pair_writer plain_nodes plain_node_laws five_leaves 5 2
           (mkCMMRBranch 2 2 5 [4; 9; 5])
           (snd (match @CMerkleMountainView.GetProof plain_nodes
                         (CMerkleMountainView.new five_leaves 5) 2 with
                 | Ok r => r
                 | Throw _ => (None, CMerkleMountainView.new five_leaves 5)
                 end))).
  - lia.
  - vm_compute; split; reflexivity.
  - reflexivity.
Defined.
